(** * Lead classification, de-duplication and CSV export

    A shallow embedding of [src/lib/categorization.ts], of the CSV export
    utility and of the lead-building part of [app/actions/scrape.ts];
    then of the rest of [scrape.ts] (the test of the key, one scrape, a
    batch), of the merge into the page state ([app/page.tsx]), of the
    filters, the sort and the counts of [components/LeadsTable.tsx], of the
    list of queries of [components/ScraperConfig.tsx] and of the export to
    the sheet.

    Modelling conventions.
    - A JavaScript string is a Rocq [string]: a sequence of code units
      below 256.  On these [toLowerCase] maps the capital letters (A to Z
      and the accented capitals 192 to 214 and 216 to 222) to the small
      ones, 32 higher, and leaves every other unit alone; the white space
      of [trim] and of the class [\s] is tab, line feed, vertical tab,
      form feed, carriage return, space and the no-break space (160); a
      pattern under the flag [i] matches an ASCII letter in both cases
      and no other unit.
    - A score is a JavaScript number holding a small integer: [Z].
    - [Date.now()] and [new Date().toISOString()] are the only effects of
      the lead builder; the values they return are explicit arguments.
    - A [Map<string, Lead>] is an association list in insertion order, which
      is the order [Map.prototype.values] iterates in.
    - The network is an input too: a function from the request to what the
      request comes to, with a count of the requests made so far. *)

From Stdlib Require Import String Ascii List Bool Arith ZArith NArith Lia.
From Stdlib Require Import DecimalString DecimalN Permutation Sorted QArith.
Import ListNotations.

Local Close Scope Q_scope.
Local Open Scope string_scope.
Local Open Scope list_scope.

(** ** JavaScript string primitives *)

Module Js.

(** The double-quote character (code unit 34). *)
Definition dquote : ascii := ascii_of_nat 34.
Definition LF : ascii := ascii_of_nat 10.
Definition CR : ascii := ascii_of_nat 13.

(** [toLowerCase] on one code unit: the capitals are A to Z (65 to 90)
    and the accented ones (192 to 222, less the sign 215). *)
Definition toLowerChar (c : ascii) : ascii :=
  let n := nat_of_ascii c in
  if ((65 <=? n)%nat && (n <=? 90)%nat)
     || ((192 <=? n)%nat && (n <=? 214)%nat)
     || ((216 <=? n)%nat && (n <=? 222)%nat)
  then ascii_of_nat (n + 32) else c.

(** [String.prototype.toLowerCase] *)
Fixpoint toLowerCase (s : string) : string :=
  match s with
  | EmptyString => EmptyString
  | String c r => String (toLowerChar c) (toLowerCase r)
  end.

(** [String.prototype.startsWith] *)
Fixpoint startsWith (s p : string) {struct p} : bool :=
  match p, s with
  | EmptyString, _ => true
  | String _ _, EmptyString => false
  | String a p', String b s' => Ascii.eqb a b && startsWith s' p'
  end.

(** [s.slice(n)] *)
Fixpoint drop (n : nat) (s : string) : string :=
  match n, s with
  | O, _ => s
  | S _, EmptyString => EmptyString
  | S n', String _ r => drop n' r
  end.

(** [String.prototype.includes]: [needle] occurs in [text] as a substring. *)
Fixpoint includes (text needle : string) : bool :=
  startsWith text needle
  || match text with
     | EmptyString => false
     | String _ r => includes r needle
     end.

(** The class [\s], which is also what [trim] removes: code units 9 to
    13, the space and the no-break space. *)
Definition isSpace (c : ascii) : bool :=
  let n := nat_of_ascii c in
  ((9 <=? n)%nat && (n <=? 13)%nat) || (n =? 32)%nat || (n =? 160)%nat.

(** Every character of [s] is white space. *)
Fixpoint isBlank (s : string) : bool :=
  match s with
  | EmptyString => true
  | String c r => isSpace c && isBlank r
  end.

Fixpoint trimStart (s : string) : string :=
  match s with
  | EmptyString => EmptyString
  | String c r => if isSpace c then trimStart r else s
  end.

Fixpoint trimEnd (s : string) : string :=
  match s with
  | EmptyString => EmptyString
  | String c r =>
      match trimEnd r with
      | EmptyString => if isSpace c then EmptyString else String c EmptyString
      | r' => String c r'
      end
  end.

(** [String.prototype.trim] *)
Definition trim (s : string) : string := trimEnd (trimStart s).

(** [Array.prototype.join] *)
Fixpoint join (sep : string) (parts : list string) : string :=
  match parts with
  | [] => EmptyString
  | [p] => p
  | p :: rest => p ++ sep ++ join sep rest
  end.

(** Append one character at the end. *)
Definition snoc (s : string) (c : ascii) : string := s ++ String c EmptyString.

(** [s.split(' - ')]: [cur] is the segment being read.  The separator is
    looked for from left to right and occurrences do not overlap. *)
Fixpoint splitDashFrom (cur s : string) : list string :=
  match s with
  | EmptyString => [cur]
  | String c r =>
      match r with
      | String c2 (String c3 r') =>
          if Ascii.eqb c " " && Ascii.eqb c2 "-" && Ascii.eqb c3 " "
          then cur :: splitDashFrom EmptyString r'
          else splitDashFrom (snoc cur c) r
      | _ => splitDashFrom (snoc cur c) r
      end
  end.

Definition splitDash (s : string) : list string := splitDashFrom EmptyString s.

End Js.

(** ** Data model ([types.ts]) *)

Inductive LeadCategory : Type :=
  | KitchenTenant
  | OfficeTenant
  | EventClient
  | Uncategorized.

Inductive Confidence : Type := High | Medium | Low.

Definition LeadCategory_eqb (a b : LeadCategory) : bool :=
  match a, b with
  | KitchenTenant, KitchenTenant
  | OfficeTenant, OfficeTenant
  | EventClient, EventClient
  | Uncategorized, Uncategorized => true
  | _, _ => false
  end.

(** The string a category is in the source. *)
Definition categoryName (c : LeadCategory) : string :=
  match c with
  | KitchenTenant => "Kitchen Tenant"
  | OfficeTenant => "Office Tenant"
  | EventClient => "Event Client"
  | Uncategorized => "Uncategorized"
  end.

Definition confidenceName (c : Confidence) : string :=
  match c with
  | High => "High"
  | Medium => "Medium"
  | Low => "Low"
  end.

Record Lead : Type := mkLead {
  id : string;
  name : string;
  headline : string;
  profileUrl : string;
  snippet : string;
  category : LeadCategory;
  confidence : Confidence;
  source : string;
  scrapedAt : string
}.

(** [position] is an array index wherever the repository sets it. *)
Record SerpApiResult : Type := mkSerpApiResult {
  position : N;
  title : string;
  link : string;
  result_snippet : string
}.

(** ** Category scorer ([categorizeLead]) *)

Definition CATEGORY_KEYWORDS : list (LeadCategory * list (list string * Z)) :=
  [ (KitchenTenant,
      [ (["catering"; "caterer"; "catering business"; "catering company"], 10%Z);
        (["food truck"; "mobile food"; "food trailer"], 10%Z);
        (["ghost kitchen"; "virtual kitchen"; "cloud kitchen"; "delivery kitchen"], 10%Z);
        (["private chef"; "personal chef"; "executive chef"], 8%Z);
        (["meal prep"; "meal delivery"; "healthy meals"; "prepared meals"], 8%Z);
        (["chef owner"; "culinary entrepreneur"; "food entrepreneur"], 7%Z);
        (["commercial kitchen"; "commissary"; "shared kitchen"], 9%Z);
        (["food production"; "food manufacturing"], 6%Z) ]);
    (OfficeTenant,
      [ (["food consultant"; "culinary consultant"; "restaurant consultant"], 10%Z);
        (["food brand"; "cpg"; "consumer packaged goods"], 10%Z);
        (["food startup"; "food tech"; "foodtech"], 9%Z);
        (["restaurant group"; "hospitality management"], 7%Z);
        (["food marketing"; "food branding"], 6%Z);
        (["nutrition consultant"; "dietitian"; "nutritionist"], 5%Z) ]);
    (EventClient,
      [ (["event planner"; "event planning"; "event coordinator"], 10%Z);
        (["wedding planner"; "wedding coordinator"; "bridal"], 10%Z);
        (["corporate events"; "event management"; "event producer"], 9%Z);
        (["party planner"; "celebration"; "special events"], 8%Z);
        (["venue coordinator"; "banquet"; "reception"], 7%Z) ]);
    (Uncategorized, []) ].

Definition LOCATION_KEYWORDS : list string :=
  [ "baltimore"; "maryland"; "md"; "dc"; "washington"; "dmv";
    "annapolis"; "columbia"; "silver spring"; "bethesda"; "rockville";
    "towson"; "glen burnie"; "dundalk"; "essex"; "middle river" ].

(** [Record<LeadCategory, number>]; the fields are in the order the object
    literal of the source creates them, which is the order of
    [Object.entries]. *)
Record Scores : Type := mkScores {
  sKitchen : Z;
  sOffice : Z;
  sEvent : Z;
  sUncategorized : Z
}.

Definition getScore (s : Scores) (c : LeadCategory) : Z :=
  match c with
  | KitchenTenant => sKitchen s
  | OfficeTenant => sOffice s
  | EventClient => sEvent s
  | Uncategorized => sUncategorized s
  end.

(** [scores[c] += w] *)
Definition addScore (s : Scores) (c : LeadCategory) (w : Z) : Scores :=
  match c with
  | KitchenTenant => mkScores (sKitchen s + w) (sOffice s) (sEvent s) (sUncategorized s)
  | OfficeTenant => mkScores (sKitchen s) (sOffice s + w) (sEvent s) (sUncategorized s)
  | EventClient => mkScores (sKitchen s) (sOffice s) (sEvent s + w) (sUncategorized s)
  | Uncategorized => mkScores (sKitchen s) (sOffice s) (sEvent s) (sUncategorized s + w)
  end.

Definition zeroScores : Scores := mkScores 0 0 0 0.

(** [Object.entries(scores)] *)
Definition entries (s : Scores) : list (LeadCategory * Z) :=
  [ (KitchenTenant, sKitchen s); (OfficeTenant, sOffice s);
    (EventClient, sEvent s); (Uncategorized, sUncategorized s) ].

Definition combinedText (title snippet : string) : string :=
  Js.toLowerCase (title ++ " " ++ snippet).

(** The innermost loop: one keyword group of one category. *)
Definition scoreGroup (text : string) (category : LeadCategory)
    (scores : Scores) (group : list string * Z) : Scores :=
  let '(keywords, weight) := group in
  fold_left
    (fun acc keyword =>
       if Js.includes text (Js.toLowerCase keyword)
       then addScore acc category weight
       else acc)
    keywords scores.

(** The loop over [Object.entries(CATEGORY_KEYWORDS)]. *)
Definition keywordScores (text : string) : Scores :=
  fold_left
    (fun acc entry =>
       let '(category, keywordGroups) := entry in
       if LeadCategory_eqb category Uncategorized then acc
       else fold_left (scoreGroup text category) keywordGroups acc)
    CATEGORY_KEYWORDS zeroScores.

Definition hasLocationRelevance (text : string) : bool :=
  existsb (fun loc => Js.includes text (Js.toLowerCase loc)) LOCATION_KEYWORDS.

(** [.sort(([, a], [, b]) => b - a)]: the sort is stable, so on the result
    it is an insertion sort that puts an entry before the entries after it
    that do not score more. *)
Fixpoint insertDesc (x : LeadCategory * Z) (l : list (LeadCategory * Z))
  : list (LeadCategory * Z) :=
  match l with
  | [] => [x]
  | y :: l' => if (snd y <=? snd x)%Z then x :: l else y :: insertDesc x l'
  end.

Definition sortDesc (l : list (LeadCategory * Z)) : list (LeadCategory * Z) :=
  fold_right insertDesc [] l.

(** [Object.entries(scores).filter(([cat]) => cat !== 'Uncategorized')
     .sort(([, a], [, b]) => b - a)] *)
Definition ranked (s : Scores) : list (LeadCategory * Z) :=
  sortDesc
    (filter (fun e => negb (LeadCategory_eqb (fst e) Uncategorized)) (entries s)).

(** The location bonus. *)
Definition locationBoost (text : string) (scores : Scores) : Scores :=
  if hasLocationRelevance text then
    match ranked scores with
    | maxCategory :: _ =>
        if (0 <? getScore scores (fst maxCategory))%Z
        then addScore scores (fst maxCategory) 3
        else scores
    | [] => scores
    end
  else scores.

Record CategorizationResult : Type := mkResult {
  res_category : LeadCategory;
  res_confidence : Confidence;
  res_scores : Scores
}.

(** The decision table.  [topScore > secondScore * 1.5] is on numbers that
    hold small integers, where it is [2 * topScore > 3 * secondScore]. *)
Definition decide (topCategory : LeadCategory) (topScore secondScore : Z)
  : LeadCategory * Confidence :=
  if (topScore =? 0)%Z then (Uncategorized, Low)
  else if (15 <=? topScore)%Z && (3 * secondScore <? 2 * topScore)%Z
       then (topCategory, High)
  else if (8 <=? topScore)%Z then (topCategory, Medium)
  else (topCategory, Low).

Definition finalScores (title snippet : string) : Scores :=
  let text := combinedText title snippet in
  locationBoost text (keywordScores text).

Definition categorizeLead (title snippet : string) : CategorizationResult :=
  let scores := finalScores title snippet in
  let sortedCategories := ranked scores in
  let '(topCategory, topScore) := nth 0 sortedCategories (Uncategorized, 0%Z) in
  let '(_, secondScore) := nth 1 sortedCategories (Uncategorized, 0%Z) in
  let '(category, confidence) := decide topCategory topScore secondScore in
  mkResult category confidence scores.

(** ** Title parser *)

(** Does the whole of [s] match [\s*\|\s*LinkedIn\s*] (flag [i])?  No
    white-space character starts the next item of the pattern, so taking
    all the white space at each [\s*] loses no match. *)
Definition matchesSuffix (s : string) : bool :=
  match Js.trimStart s with
  | String c r =>
      Ascii.eqb c "|"
      && (let r1 := Js.trimStart r in
          Js.startsWith (Js.toLowerCase r1) "linkedin"
          && String.eqb (Js.trimStart (Js.drop 8 r1)) EmptyString)
  | EmptyString => false
  end.

(** [title.replace(/\s*\|\s*LinkedIn\s*$/i, '')]: the match starts at the
    first index from which the rest of the string matches, and with [$] it
    runs to the end of the string. *)
Fixpoint stripLinkedInSuffix (s : string) : string :=
  if matchesSuffix s then EmptyString
  else match s with
       | EmptyString => EmptyString
       | String c r => String c (stripLinkedInSuffix r)
       end.

Definition extractNameFromTitle (title : string) : string :=
  let cleaned := stripLinkedInSuffix title in
  match Js.splitDash cleaned with
  | p :: _ => Js.trim p
  | [] => Js.trim cleaned
  end.

Definition extractHeadlineFromTitle (title : string) : string :=
  let cleaned := stripLinkedInSuffix title in
  match Js.splitDash cleaned with
  | _ :: p :: rest => Js.trim (Js.join " - " (p :: rest))
  | _ => EmptyString
  end.

(** ** Lead builder ([serpResultToLead]) *)

(** A number in a template literal: the decimal digits of an index or of a
    millisecond count. *)
Definition showN (n : N) : string := NilEmpty.string_of_uint (N.to_uint n).

(** [now] is what [Date.now()] returns and [stamp] what
    [new Date().toISOString()] returns during the call. *)
Definition serpResultToLead (now : N) (stamp : string)
    (result : SerpApiResult) (queryCategory : LeadCategory)
    (queryLabel : string) : Lead :=
  let name := extractNameFromTitle (title result) in
  let headline := extractHeadlineFromTitle (title result) in
  let r := categorizeLead (title result) (result_snippet result) in
  let finalCategory :=
    if LeadCategory_eqb (res_category r) Uncategorized
    then queryCategory else res_category r in
  {| id := "lead-" ++ showN now ++ "-" ++ showN (position result);
     name := name;
     headline := headline;
     profileUrl := link result;
     snippet := result_snippet result;
     category := finalCategory;
     confidence :=
       if LeadCategory_eqb (res_category r) Uncategorized
       then Low else res_confidence r;
     source := queryLabel;
     scrapedAt := stamp |}.

(** ** Batches ([scrapeLinkedInLeads], [batchScrapeLeads]) *)

(** One search result that passed the LinkedIn filter, with the two clock
    readings taken while its lead is built. *)
Record Arrival : Type := mkArrival {
  arr_result : SerpApiResult;
  arr_now : N;
  arr_stamp : string
}.

(** [linkedInResults.map((result, index) =>
      serpResultToLead({ ...result, position: index }, ...))],
    [index] counting from [start]. *)
Fixpoint leadsFrom (start : N) (arrivals : list Arrival)
    (queryCategory : LeadCategory) (queryLabel : string) : list Lead :=
  match arrivals with
  | [] => []
  | a :: rest =>
      let r := arr_result a in
      serpResultToLead (arr_now a) (arr_stamp a)
        (mkSerpApiResult start (title r) (link r) (result_snippet r))
        queryCategory queryLabel
      :: leadsFrom (N.succ start) rest queryCategory queryLabel
  end.

(** One query of a batch: its label, its category and what the search
    returned, [None] when the search failed. *)
Record QueryRun : Type := mkQueryRun {
  run_label : string;
  run_category : LeadCategory;
  run_arrivals : option (list Arrival)
}.

Definition scrapeLeads (q : QueryRun) : list Lead :=
  match run_arrivals q with
  | Some arrivals => leadsFrom 0 arrivals (run_category q) (run_label q)
  | None => []
  end.

(** [allLeads] of [batchScrapeLeads] after the loop. *)
Definition allLeads (batch : list QueryRun) : list Lead :=
  flat_map scrapeLeads batch.

(** ** De-duplication ([deduplicateLeads]) *)

(** [url.replace(/\/$/, '')] *)
Fixpoint stripTrailingSlash (s : string) : string :=
  match s with
  | EmptyString => EmptyString
  | String c r =>
      match r with
      | EmptyString => if Ascii.eqb c "/" then EmptyString else s
      | _ => String c (stripTrailingSlash r)
      end
  end.

Definition normalizedUrl (lead : Lead) : string :=
  stripTrailingSlash (Js.toLowerCase (profileUrl lead)).

Definition confidenceOrder (c : Confidence) : Z :=
  match c with
  | High => 3
  | Medium => 2
  | Low => 1
  end.

(** [Map<string, Lead>] in insertion order. *)
Definition LeadMap : Type := list (string * Lead).

Fixpoint map_get (m : LeadMap) (k : string) : option Lead :=
  match m with
  | [] => None
  | (k', v) :: m' => if String.eqb k' k then Some v else map_get m' k
  end.

(** [Map.prototype.set]: a key already there keeps its place. *)
Fixpoint map_set (m : LeadMap) (k : string) (v : Lead) : LeadMap :=
  match m with
  | [] => [(k, v)]
  | (k', v') :: m' =>
      if String.eqb k' k then (k, v) :: m' else (k', v') :: map_set m' k v
  end.

Definition map_values (m : LeadMap) : list Lead := map snd m.
Definition map_keys (m : LeadMap) : list string := map fst m.

(** The body of the loop. *)
Definition dedupStep (seen : LeadMap) (lead : Lead) : LeadMap :=
  let normalizedUrl := normalizedUrl lead in
  match map_get seen normalizedUrl with
  | None => map_set seen normalizedUrl lead
  | Some existing =>
      if (confidenceOrder (confidence existing) <? confidenceOrder (confidence lead))%Z
      then map_set seen normalizedUrl lead
      else seen
  end.

(** The map [seen] after the loop has read [leads]. *)
Definition dedupSeen (leads : list Lead) : LeadMap :=
  fold_left dedupStep leads [].

Definition deduplicateLeads (leads : list Lead) : list Lead :=
  map_values (dedupSeen leads).

(** ** CSV export ([escapeCSVField], [leadsToCSV]) *)

(** The global replace of [escapeCSVField]: every double quote is written
    twice. *)
Fixpoint doubleQuotes (s : string) : string :=
  match s with
  | EmptyString => EmptyString
  | String c r =>
      if Ascii.eqb c Js.dquote
      then String Js.dquote (String Js.dquote (doubleQuotes r))
      else String c (doubleQuotes r)
  end.

Definition needsQuoting (stringValue : string) : bool :=
  Js.includes stringValue ","
  || Js.includes stringValue (String Js.dquote EmptyString)
  || Js.includes stringValue (String Js.LF EmptyString)
  || Js.includes stringValue (String Js.CR EmptyString).

(** The fields of a lead are strings, so the [null]/[undefined] test of
    the source never fires. *)
Definition escapeCSVField (value : string) : string :=
  if needsQuoting value
  then String Js.dquote (doubleQuotes value) ++ String Js.dquote EmptyString
  else value.

Definition csvHeaders : list string :=
  [ "Name"; "Headline"; "Category"; "Confidence"; "Profile URL";
    "Snippet"; "Source Query"; "Scraped At" ].

Definition csvFields (lead : Lead) : list string :=
  [ name lead; headline lead; categoryName (category lead);
    confidenceName (confidence lead); profileUrl lead; snippet lead;
    source lead; scrapedAt lead ].

Definition csvRow (fields : list string) : string :=
  Js.join "," (map escapeCSVField fields).

Definition leadsToCSV (leads : list Lead) : string :=
  match leads with
  | [] => EmptyString
  | _ =>
      let headerRow := csvRow csvHeaders in
      let dataRows := map (fun lead => csvRow (csvFields lead)) leads in
      Js.join (String Js.LF EmptyString) (headerRow :: dataRows)
  end.

(** ** Words of the specification *)

(** The distinct keys of a list, each at the place of its first
    occurrence. *)
Fixpoint firstSeen (keys : list string) : list string :=
  match keys with
  | [] => []
  | k :: rest => k :: filter (fun k' => negb (String.eqb k' k)) (firstSeen rest)
  end.

Definition memKey (k : string) (keys : list string) : bool :=
  existsb (String.eqb k) keys.

(** The place of a category in the declaration of [LeadCategory] and of
    the score table. *)
Definition declIndex (c : LeadCategory) : nat :=
  match c with
  | KitchenTenant => 0
  | OfficeTenant => 1
  | EventClient => 2
  | Uncategorized => 3
  end.

(** The real categories with their scores, in declaration order. *)
Definition realEntries (s : Scores) : list (LeadCategory * Z) :=
  [ (KitchenTenant, getScore s KitchenTenant);
    (OfficeTenant, getScore s OfficeTenant);
    (EventClient, getScore s EventClient) ].

(** [c] is the real category with the maximum score, the first declared
    one among those that have it. *)
Definition leader (s : Scores) (c : LeadCategory) : Prop :=
  c <> Uncategorized /\
  (forall c', c' <> Uncategorized -> (getScore s c' <= getScore s c)%Z) /\
  (forall c', (declIndex c' < declIndex c)%nat ->
     (getScore s c' < getScore s c)%Z).

(** [top] is strictly greater than 1.5 times [second]. *)
Definition exceedsOneAndHalf (top second : Z) : Prop :=
  ((15 # 10) * inject_Z second < inject_Z top)%Q.

(** [needle] occurs in [text]. *)
Definition occursIn (needle text : string) : Prop :=
  exists before after, text = (before ++ needle ++ after)%string.

(** The field contains a comma, a double quote, a line feed or a carriage
    return. *)
Definition hasSpecial (value : string) : Prop :=
  exists c, In c [","%char; Js.dquote; Js.LF; Js.CR] /\
            occursIn (String c EmptyString) value.

(** The field between double quotes, its own double quotes doubled. *)
Definition quoted (value : string) : string :=
  String Js.dquote (doubleQuotes value ++ String Js.dquote EmptyString).

(** What the pattern of the suffix matches: white space, a bar, white
    space, the word LinkedIn in any case, white space. *)
Definition suffixShape (s : string) : Prop :=
  exists w1 w2 word w3,
    s = (w1 ++ "|" ++ w2 ++ word ++ w3)%string /\
    Js.isBlank w1 = true /\ Js.isBlank w2 = true /\ Js.isBlank w3 = true /\
    Js.toLowerCase word = "linkedin".

(** [t] is [s] less the white space at its two ends. *)
Definition trimmedOf (s t : string) : Prop :=
  (exists l r,
      s = (l ++ t ++ r)%string /\ Js.isBlank l = true /\ Js.isBlank r = true)
  /\ (forall c rest, t = String c rest -> Js.isSpace c = false)
  /\ (forall init c, t = (init ++ String c EmptyString)%string ->
      Js.isSpace c = false).




Definition byScore (z : Z) (e : LeadCategory * Z) : bool := (snd e =? z)%Z.

Definition descending (a b : LeadCategory * Z) : Prop := (snd b <= snd a)%Z.

(** No score is negative. *)
Definition nonneg (s : Scores) : Prop :=
  forall c, (0 <= getScore s c)%Z.

Definition lowWhenUncategorized (lead : Lead) : Prop :=
  category lead = Uncategorized -> confidence lead = Low.

(** Every entry of the map is stored under the normalized URL of its
    lead. *)
Definition keyed (m : LeadMap) : Prop :=
  forall k v, In (k, v) m -> k = normalizedUrl v.

(** The candidate of the end-to-end example. *)
Definition janeDoe (index : N) : SerpApiResult :=
  {| position := index;
     title := "Jane Doe - Owner, Baltimore Catering Co | LinkedIn";
     link := "https://linkedin.com/in/janedoe/";
     result_snippet := "catering owner serving Baltimore weddings" |}.

(** ** Sample data *)

Definition sampleLead (url : string) (c : Confidence) : Lead :=
  {| id := "lead-1700000000000-0";
     name := "Jane Doe";
     headline := "Owner";
     profileUrl := url;
     snippet := "catering";
     category := KitchenTenant;
     confidence := c;
     source := "Catering Owners";
     scrapedAt := "2024-01-01T00:00:00.000Z" |}.

Definition lowLead : Lead := sampleLead "https://linkedin.com/in/JaneDoe/" Low.
Definition highLead : Lead := sampleLead "https://LinkedIn.com/in/janedoe" High.

(** A candidate in whose text no keyword of the table occurs. *)
Definition plainResult : SerpApiResult :=
  {| position := 0;
     title := "John Smith - Accountant | LinkedIn";
     link := "https://linkedin.com/in/johnsmith";
     result_snippet := "numbers and ledgers" |}.

(** Three queries of one batch, the last one failing; the second reads
    the clock 731 ms after the first. *)
Definition sampleBatch : list QueryRun :=
  [ {| run_label := "Catering Owners";
       run_category := KitchenTenant;
       run_arrivals :=
         Some [ mkArrival (janeDoe 1) 1700000000000 "2023-11-14T22:13:20.000Z";
                mkArrival plainResult 1700000000000 "2023-11-14T22:13:20.000Z" ] |};
    {| run_label := "Event Planners";
       run_category := EventClient;
       run_arrivals :=
         Some [ mkArrival (janeDoe 1) 1700000000731 "2023-11-14T22:13:20.731Z" ] |};
    {| run_label := "Food Truck Operators";
       run_category := KitchenTenant;
       run_arrivals := None |} ].

(** Two queries of one batch that read the same value of the clock, as
    they do when the clock is set back between them by the time that has
    passed. *)
Definition collidingBatch : list QueryRun :=
  [ {| run_label := "Catering Owners";
       run_category := KitchenTenant;
       run_arrivals :=
         Some [ mkArrival (janeDoe 1) 1700000000000 "2023-11-14T22:13:20.000Z" ] |};
    {| run_label := "Accountants";
       run_category := Uncategorized;
       run_arrivals :=
         Some [ mkArrival plainResult 1700000000000 "2023-11-14T22:13:20.000Z" ] |} ].

(** ** The rest of the code *)

(** *** Merging into the page state ([handleLeadsScraped] of [page.tsx]) *)

(** The body of the loop: only a key not yet in the map is set. *)
Definition mergeStep (seen : LeadMap) (lead : Lead) : LeadMap :=
  let normalizedUrl := normalizedUrl lead in
  match map_get seen normalizedUrl with
  | None => map_set seen normalizedUrl lead
  | Some _ => seen
  end.

(** The state update of [handleLeadsScraped]: [prev] is the list of leads
    the page holds, [newLeads] the list the scraper hands over. *)
Definition handleLeadsScraped (prev newLeads : list Lead) : list Lead :=
  let allLeads := prev ++ newLeads in
  map_values (fold_left mergeStep allLeads []).

(** [lead] has a normalized URL that no lead of [leads] has. *)
Definition freshFor (leads : list Lead) (lead : Lead) : bool :=
  negb (memKey (normalizedUrl lead) (map normalizedUrl leads)).

(** The leads of a list that are the first with their normalized URL. *)
Fixpoint firstLeads (leads : list Lead) : list Lead :=
  match leads with
  | [] => []
  | lead :: rest =>
      lead :: filter (fun other =>
                        negb (String.eqb (normalizedUrl other) (normalizedUrl lead)))
                (firstLeads rest)
  end.

Definition entryOf (lead : Lead) : string * Lead := (normalizedUrl lead, lead).

(** *** The scores as sums *)

(** How many keywords of a group occur in the text. *)
Definition keywordHits (text : string) (keywords : list string) : Z :=
  Z.of_nat
    (length (filter (fun kw => Js.includes text (Js.toLowerCase kw)) keywords)).

(** Weight times hits, summed over the groups. *)
Definition groupsScore (text : string) (groups : list (list string * Z)) : Z :=
  fold_right Z.add 0%Z
    (map (fun g => (snd g * keywordHits text (fst g))%Z) groups).

(** The same summed over the entries of the table that are for [c], the
    entry of Uncategorized left out. *)
Definition tableScore (text : string) (c : LeadCategory) : Z :=
  fold_right Z.add 0%Z
    (map (fun e =>
            if LeadCategory_eqb (fst e) c
               && negb (LeadCategory_eqb (fst e) Uncategorized)
            then groupsScore text (snd e) else 0%Z)
       CATEGORY_KEYWORDS).

(** Every keyword of the table is in lower case. *)
Definition tableLowerCase : bool :=
  forallb (fun e : LeadCategory * list (list string * Z) =>
             forallb (fun g : list string * Z =>
                        forallb (fun kw => String.eqb (Js.toLowerCase kw) kw) (fst g))
               (snd e))
    CATEGORY_KEYWORDS.

(** *** Reading CSV (RFC 4180) *)

(** Where a reader of CSV text is: at the start of a field, inside a
    field without quotes, inside a quoted field, or just after a double
    quote inside a quoted field. *)
Inductive CsvMode : Type := FieldStart | Unquoted | Quoted | QuoteSeen.

(** The reader: [field] is the text of the field read so far, [fields]
    the fields of the record before it.  A comma ends a field, a line
    feed ends a record, the end of the text ends the last record; inside
    quotes two double quotes stand for one and one double quote ends the
    quoted part. *)
Fixpoint parseCsvFrom (mode : CsvMode) (field : string) (fields : list string)
    (s : string) : list (list string) :=
  match s with
  | EmptyString => [fields ++ [field]]
  | String c r =>
      match mode with
      | Quoted =>
          if Ascii.eqb c Js.dquote then parseCsvFrom QuoteSeen field fields r
          else parseCsvFrom Quoted (Js.snoc field c) fields r
      | QuoteSeen =>
          if Ascii.eqb c Js.dquote
          then parseCsvFrom Quoted (Js.snoc field c) fields r
          else if Ascii.eqb c ","
          then parseCsvFrom FieldStart EmptyString (fields ++ [field]) r
          else if Ascii.eqb c Js.LF
          then (fields ++ [field]) :: parseCsvFrom FieldStart EmptyString [] r
          else parseCsvFrom Unquoted (Js.snoc field c) fields r
      | FieldStart =>
          if Ascii.eqb c Js.dquote then parseCsvFrom Quoted field fields r
          else if Ascii.eqb c ","
          then parseCsvFrom FieldStart EmptyString (fields ++ [field]) r
          else if Ascii.eqb c Js.LF
          then (fields ++ [field]) :: parseCsvFrom FieldStart EmptyString [] r
          else parseCsvFrom Unquoted (Js.snoc field c) fields r
      | Unquoted =>
          if Ascii.eqb c ","
          then parseCsvFrom FieldStart EmptyString (fields ++ [field]) r
          else if Ascii.eqb c Js.LF
          then (fields ++ [field]) :: parseCsvFrom FieldStart EmptyString [] r
          else parseCsvFrom Unquoted (Js.snoc field c) fields r
      end
  end.

(** The records of a CSV text, each a list of fields. *)
Definition parseCsv (s : string) : list (list string) :=
  parseCsvFrom FieldStart EmptyString [] s.

(** What the reader does once the field [field] is complete and [rest] is
    left, [rest] being empty or starting with a comma or a line feed. *)
Definition afterField (field : string) (fields : list string) (rest : string)
  : list (list string) :=
  match rest with
  | EmptyString => [fields ++ [field]]
  | String c r =>
      if Ascii.eqb c ","
      then parseCsvFrom FieldStart EmptyString (fields ++ [field]) r
      else (fields ++ [field]) :: parseCsvFrom FieldStart EmptyString [] r
  end.

(** [rest] is empty or starts with a comma or a line feed. *)
Definition endsField (rest : string) : Prop :=
  rest = EmptyString \/ exists c r, rest = String c r /\ (c = ","%char \/ c = Js.LF).

(** A character that needs no quoting. *)
Definition plainChar (c : ascii) : bool :=
  negb (Ascii.eqb c ",") && negb (Ascii.eqb c Js.dquote)
  && negb (Ascii.eqb c Js.LF) && negb (Ascii.eqb c Js.CR).

(** Two leads with the same exported columns: all but [id]. *)
Definition sameColumns (a b : Lead) : Prop :=
  name a = name b /\ headline a = headline b /\ category a = category b
  /\ confidence a = confidence b /\ profileUrl a = profileUrl b
  /\ snippet a = snippet b /\ source a = source b /\ scrapedAt a = scrapedAt b.

(** *** The scraper ([validateApiKey], [scrapeLinkedInLeads],
    [batchScrapeLeads] of [scrape.ts]) *)

(** The class [[a-f0-9]] under the flag [i]. *)
Definition isHexDigit (c : ascii) : bool :=
  let n := nat_of_ascii c in
  ((48 <=? n)%nat && (n <=? 57)%nat)
  || ((97 <=? n)%nat && (n <=? 102)%nat)
  || ((65 <=? n)%nat && (n <=? 70)%nat).

Fixpoint allHex (s : string) : bool :=
  match s with
  | EmptyString => true
  | String c r => isHexDigit c && allHex r
  end.

(** The test of the pattern of 64 hexadecimal digits, from start to end,
    on the trimmed key. *)
Definition validateApiKey (apiKey : string) : bool :=
  let trimmed := Js.trim apiKey in
  (String.length trimmed =? 64)%nat && allHex trimmed.

(** The entries of the [URLSearchParams] of the request. *)
Definition buildSearchParams (apiKey query : string) (numResults : N)
  : list (string * string) :=
  [ ("api_key", Js.trim apiKey);
    ("engine", "google");
    ("q", query);
    ("num", showN (N.min numResults 100));
    ("gl", "us");
    ("hl", "en") ].

(** What a request comes to: an exception anywhere in the [try] block
    (with its message when it is an [Error]), a response that is not ok
    (with its status and text), or the parsed JSON body (its [error] and
    [organic_results] fields, a result being listed with the clock
    readings taken if its lead is built). *)
Inductive FetchOutcome : Type :=
  | FetchThrows (message : option string)
  | HttpNotOk (status : N) (errorText : string)
  | JsonBody (error : option string) (organic_results : option (list Arrival)).

(** The network: what the request number [n] of the run, with the given
    parameters, comes to. *)
Definition Net : Type := nat -> list (string * string) -> FetchOutcome.

Record ScrapeParams : Type := mkScrapeParams {
  sp_apiKey : string;
  sp_query : string;
  sp_queryLabel : string;
  sp_queryCategory : LeadCategory;
  sp_numResults : option N
}.

Record ScrapingResult : Type := mkScrapingResult {
  sr_success : bool;
  sr_leads : list Lead;
  sr_error : option string;
  sr_totalResults : nat;
  sr_query : string
}.

Definition scrapeFailure (error query : string) : ScrapingResult :=
  {| sr_success := false;
     sr_leads := [];
     sr_error := Some error;
     sr_totalResults := 0;
     sr_query := query |}.

(** A string in a condition: true unless empty. *)
Definition truthy (s : string) : bool := negb (String.eqb s EmptyString).

Definition isLinkedInProfile (a : Arrival) : bool :=
  Js.includes (link (arr_result a)) "linkedin.com/in/".

(** [calls] counts the requests made before the call; the second
    component of the result counts them after it. *)
Definition scrapeLinkedInLeads (net : Net) (calls : nat) (params : ScrapeParams)
  : ScrapingResult * nat :=
  let apiKey := sp_apiKey params in
  let query := sp_query params in
  let numResults :=
    match sp_numResults params with Some n => n | None => 10%N end in
  if negb (truthy apiKey) || negb (truthy (Js.trim apiKey)) then
    (scrapeFailure "API key is required" query, calls)
  else if negb (validateApiKey apiKey) then
    (scrapeFailure
       "Invalid API key format. SerpAPI keys are 64 character hex strings."
       query, calls)
  else if negb (truthy query) || negb (truthy (Js.trim query)) then
    (scrapeFailure "Search query is required" query, calls)
  else
    match net calls (buildSearchParams apiKey query numResults) with
    | FetchThrows message =>
        let errorMessage :=
          match message with
          | Some m => m
          | None => "Unknown error occurred"
          end in
        (scrapeFailure ("Network error: " ++ errorMessage) query, S calls)
    | HttpNotOk status errorText =>
        if (status =? 401)%N then
          (scrapeFailure "Invalid API key. Please check your SerpAPI key." query,
           S calls)
        else if (status =? 429)%N then
          (scrapeFailure "Rate limit exceeded. Please wait and try again." query,
           S calls)
        else
          (scrapeFailure
             ("SerpAPI error (" ++ showN status ++ "): " ++ errorText) query,
           S calls)
    | JsonBody error organic_results =>
        match error with
        | Some e =>
            if truthy e
            then (scrapeFailure ("SerpAPI error: " ++ e) query, S calls)
            else
              let organicResults :=
                match organic_results with Some l => l | None => [] end in
              let linkedInResults := filter isLinkedInProfile organicResults in
              ({| sr_success := true;
                  sr_leads :=
                    leadsFrom 0 linkedInResults (sp_queryCategory params)
                      (sp_queryLabel params);
                  sr_error := None;
                  sr_totalResults := length linkedInResults;
                  sr_query := query |}, S calls)
        | None =>
            let organicResults :=
              match organic_results with Some l => l | None => [] end in
            let linkedInResults := filter isLinkedInProfile organicResults in
            ({| sr_success := true;
                sr_leads :=
                  leadsFrom 0 linkedInResults (sp_queryCategory params)
                    (sp_queryLabel params);
                sr_error := None;
                sr_totalResults := length linkedInResults;
                sr_query := query |}, S calls)
        end
    end.

Record BatchQuery : Type := mkBatchQuery {
  bq_query : string;
  bq_label : string;
  bq_category : LeadCategory
}.

(** The variables of the loop of [batchScrapeLeads], and the count of
    requests. *)
Record BatchState : Type := mkBatchState {
  bs_allLeads : list Lead;
  bs_errors : list string;
  bs_totalResults : nat;
  bs_calls : nat
}.

(** The body of the loop.  The pause after each query takes time and
    changes nothing else. *)
Definition batchStep (net : Net) (apiKey : string) (numResultsPerQuery : N)
    (st : BatchState) (q : BatchQuery) : BatchState :=
  let '(result, calls) :=
    scrapeLinkedInLeads net (bs_calls st)
      {| sp_apiKey := apiKey;
         sp_query := bq_query q;
         sp_queryLabel := bq_label q;
         sp_queryCategory := bq_category q;
         sp_numResults := Some numResultsPerQuery |} in
  if sr_success result then
    {| bs_allLeads := bs_allLeads st ++ sr_leads result;
       bs_errors := bs_errors st;
       bs_totalResults := bs_totalResults st + sr_totalResults result;
       bs_calls := calls |}
  else
    match sr_error result with
    | Some e =>
        if truthy e then
          {| bs_allLeads := bs_allLeads st;
             bs_errors := bs_errors st ++ [(bq_label q ++ ": " ++ e)%string];
             bs_totalResults := bs_totalResults st;
             bs_calls := calls |}
        else
          {| bs_allLeads := bs_allLeads st;
             bs_errors := bs_errors st;
             bs_totalResults := bs_totalResults st;
             bs_calls := calls |}
    | None =>
        {| bs_allLeads := bs_allLeads st;
           bs_errors := bs_errors st;
           bs_totalResults := bs_totalResults st;
           bs_calls := calls |}
    end.

Record BatchResult : Type := mkBatchResult {
  br_success : bool;
  br_leads : list Lead;
  br_errors : list string;
  br_totalResults : nat
}.

Definition batchLoop (net : Net) (calls : nat) (apiKey : string)
    (queries : list BatchQuery) (numResultsPerQuery : N) : BatchState :=
  fold_left (batchStep net apiKey numResultsPerQuery) queries
    {| bs_allLeads := []; bs_errors := []; bs_totalResults := 0;
       bs_calls := calls |}.

(** [numResultsPerQuery] is 10 when the caller gives none. *)
Definition batchScrapeLeads (net : Net) (calls : nat) (apiKey : string)
    (queries : list BatchQuery) (numResultsPerQuery : option N)
  : BatchResult * nat :=
  let n := match numResultsPerQuery with Some n => n | None => 10%N end in
  let st := batchLoop net calls apiKey queries n in
  let uniqueLeads := deduplicateLeads (bs_allLeads st) in
  ({| br_success := (length (bs_errors st) =? 0)%nat;
      br_leads := uniqueLeads;
      br_errors := bs_errors st;
      br_totalResults := bs_totalResults st |}, bs_calls st).

(** A key that passes the test: white space, 64 hexadecimal digits, white
    space. *)
Definition wellFormedKey (apiKey : string) : Prop :=
  exists l hex r,
    apiKey = (l ++ hex ++ r)%string /\
    Js.isBlank l = true /\ Js.isBlank r = true /\
    String.length hex = 64 /\ allHex hex = true.

(** The text of a query run of the model of the claims is the text of
    the query of the batch. *)
Definition runFor (q : BatchQuery) (run : QueryRun) : Prop :=
  run_label run = bq_label q /\ run_category run = bq_category q.

Definition failedRuns (runs : list QueryRun) : nat :=
  length (filter (fun run => match run_arrivals run with
                             | None => true
                             | Some _ => false
                             end) runs).

(** Whether [scrapeLinkedInLeads] gets as far as its request: the key
    passes the test of the format and the query is not blank. *)
Definition sendsRequest (apiKey query : string) : bool :=
  validateApiKey apiKey && truthy (Js.trim query).

(** What the answer to a request gives to build leads from: the LinkedIn
    profiles among [organic_results], when the answer is a body whose
    [error] is absent or empty; nothing otherwise. *)
Definition answered (outcome : FetchOutcome) : option (list Arrival) :=
  match outcome with
  | JsonBody error organic_results =>
      if match error with Some e => truthy e | None => false end
      then None
      else Some (filter isLinkedInProfile
                   (match organic_results with Some l => l | None => [] end))
  | FetchThrows _ => None
  | HttpNotOk _ _ => None
  end.

(** The query runs of a batch, read off the network: the query number
    [i] that gets as far as a request is given the answer to request
    number [calls + i]; a query that sends none, or whose answer is not a
    body without error, is a failed run. *)
Fixpoint batchRuns (net : Net) (calls : nat) (apiKey : string)
    (queries : list BatchQuery) (numResultsPerQuery : N) : list QueryRun :=
  match queries with
  | [] => []
  | q :: rest =>
      let sent := sendsRequest apiKey (bq_query q) in
      {| run_label := bq_label q;
         run_category := bq_category q;
         run_arrivals :=
           if sent
           then answered (net calls (buildSearchParams apiKey (bq_query q)
                                       numResultsPerQuery))
           else None |}
      :: batchRuns net (if sent then S calls else calls) apiKey rest
           numResultsPerQuery
  end.

(** The two shapes of a result. *)
Definition failedResult (r : ScrapingResult) : Prop :=
  sr_success r = false /\ sr_leads r = [] /\ sr_totalResults r = 0
  /\ exists e, sr_error r = Some e /\ truthy e = true.

Definition builtResult (p : ScrapeParams) (r : ScrapingResult) : Prop :=
  sr_success r = true /\ sr_error r = None
  /\ exists arrivals,
       Forall (fun a => isLinkedInProfile a = true) arrivals
       /\ sr_leads r
          = leadsFrom 0 arrivals (sp_queryCategory p) (sp_queryLabel p)
       /\ sr_totalResults r = length arrivals.

(** *** The table of leads ([LeadsTable.tsx]) *)

Inductive SortField : Type := SortName | SortCategory | SortConfidence | SortScrapedAt.

Inductive SortDirection : Type := Asc | Desc.

(** [counts]: an object from names to numbers, as a list of its
    properties. *)
Fixpoint counts_get (counts : list (string * nat)) (k : string) : option nat :=
  match counts with
  | [] => None
  | (k', v) :: rest => if String.eqb k' k then Some v else counts_get rest k
  end.

Fixpoint counts_set (counts : list (string * nat)) (k : string) (v : nat)
  : list (string * nat) :=
  match counts with
  | [] => [(k, v)]
  | (k', v') :: rest =>
      if String.eqb k' k then (k, v) :: rest else (k', v') :: counts_set rest k v
  end.

(** [counts[k] || 0] *)
Definition countOf (counts : list (string * nat)) (k : string) : nat :=
  match counts_get counts k with
  | Some n => n
  | None => 0
  end.

Definition categoryCounts (leads : list Lead) : list (string * nat) :=
  fold_left
    (fun counts lead =>
       counts_set counts (categoryName (category lead))
         (countOf counts (categoryName (category lead)) + 1))
    leads [("all", length leads)].

(** The comparison of the sort: the one for the confidence is in the
    source as it is here; the three others compare strings by locale or
    dates and are taken as given ([external]). *)
Definition comparison (external : SortField -> Lead -> Lead -> Z)
    (sortField : SortField) (a b : Lead) : Z :=
  match sortField with
  | SortConfidence =>
      (confidenceOrder (confidence a) - confidenceOrder (confidence b))%Z
  | other => external other a b
  end.

Definition sortCompare (external : SortField -> Lead -> Lead -> Z)
    (sortField : SortField) (sortDirection : SortDirection) (a b : Lead) : Z :=
  let comparison := comparison external sortField a b in
  match sortDirection with
  | Asc => comparison
  | Desc => (- comparison)%Z
  end.

(** [result.sort(compare)], a stable sort: an element goes before the
    elements after it that it does not compare greater than. *)
Fixpoint insertBy (compare : Lead -> Lead -> Z) (x : Lead) (l : list Lead)
  : list Lead :=
  match l with
  | [] => [x]
  | y :: l' => if (compare x y <=? 0)%Z then x :: l else y :: insertBy compare x l'
  end.

Definition sortBy (compare : Lead -> Lead -> Z) (l : list Lead) : list Lead :=
  fold_right (insertBy compare) [] l.

Definition matchesSearch (term : string) (lead : Lead) : bool :=
  Js.includes (Js.toLowerCase (name lead)) term
  || Js.includes (Js.toLowerCase (headline lead)) term
  || Js.includes (Js.toLowerCase (snippet lead)) term.

(** [categoryFilter] is [None] for the choice all; [confidenceFilter] is
    the text of the choice. *)
Definition filteredLeads (external : SortField -> Lead -> Lead -> Z)
    (leads : list Lead) (categoryFilter : option LeadCategory)
    (confidenceFilter searchTerm : string)
    (sortField : SortField) (sortDirection : SortDirection) : list Lead :=
  let result := leads in
  let result :=
    match categoryFilter with
    | Some c => filter (fun lead => LeadCategory_eqb (category lead) c) result
    | None => result
    end in
  let result :=
    if String.eqb confidenceFilter "all" then result
    else filter (fun lead =>
                   String.eqb (confidenceName (confidence lead)) confidenceFilter)
           result in
  let result :=
    if truthy searchTerm
    then filter (matchesSearch (Js.toLowerCase searchTerm)) result
    else result in
  sortBy (sortCompare external sortField sortDirection) result.

(** A lead passes the three filters of the table. *)
Definition shown (categoryFilter : option LeadCategory)
    (confidenceFilter searchTerm : string) (lead : Lead) : Prop :=
  (forall c, categoryFilter = Some c -> category lead = c)
  /\ (confidenceFilter <> "all" ->
      confidenceName (confidence lead) = confidenceFilter)
  /\ (searchTerm <> EmptyString ->
      occursIn (Js.toLowerCase searchTerm) (Js.toLowerCase (name lead))
      \/ occursIn (Js.toLowerCase searchTerm) (Js.toLowerCase (headline lead))
      \/ occursIn (Js.toLowerCase searchTerm) (Js.toLowerCase (snippet lead))).

(** The same as a test. *)
Definition shownb (categoryFilter : option LeadCategory)
    (confidenceFilter searchTerm : string) (lead : Lead) : bool :=
  match categoryFilter with
  | Some c => LeadCategory_eqb (category lead) c
  | None => true
  end
  && (String.eqb confidenceFilter "all"
      || String.eqb (confidenceName (confidence lead)) confidenceFilter)
  && (negb (truthy searchTerm)
      || matchesSearch (Js.toLowerCase searchTerm) lead).

Definition Confidence_eqb (a b : Confidence) : bool :=
  match a, b with
  | High, High | Medium, Medium | Low, Low => true
  | _, _ => false
  end.

(** In the order of the direction: not before by confidence. *)
Definition inDirection (d : SortDirection) (a b : Lead) : Prop :=
  match d with
  | Asc => (confidenceOrder (confidence a) <= confidenceOrder (confidence b))%Z
  | Desc => (confidenceOrder (confidence b) <= confidenceOrder (confidence a))%Z
  end.

(** *** The configuration of the scraper ([ScraperConfig.tsx]) *)

Record SearchQuery : Type := mkSearchQuery {
  q_id : string;
  q_label : string;
  q_query : string;
  q_category : LeadCategory;
  q_enabled : bool
}.

Definition toggleQuery (id : string) (prev : list SearchQuery) : list SearchQuery :=
  map (fun q =>
         if String.eqb (q_id q) id
         then {| q_id := q_id q; q_label := q_label q; q_query := q_query q;
                 q_category := q_category q; q_enabled := negb (q_enabled q) |}
         else q)
    prev.

Definition removeQuery (id : string) (prev : list SearchQuery) : list SearchQuery :=
  filter (fun q => negb (String.eqb (q_id q) id)) prev.

(** [s.slice(0, n)] *)
Fixpoint takeChars (n : nat) (s : string) : string :=
  match n, s with
  | O, _ => EmptyString
  | S _, EmptyString => EmptyString
  | S n', String c r => String c (takeChars n' r)
  end.

(** The query that [addCustomQuery] makes, [now] being the reading of
    the clock. *)
Definition customSearchQuery (now : N) (customQuery : string)
    (customCategory : LeadCategory) : SearchQuery :=
  {| q_id := "custom-" ++ showN now;
     q_label := "Custom: " ++ takeChars 30 customQuery ++ "...";
     q_query :=
       if Js.includes customQuery "site:linkedin.com"
       then customQuery
       else customQuery ++ " site:linkedin.com/in/";
     q_category := customCategory;
     q_enabled := true |}.

(** The new list of queries and the new text of the input field. *)
Definition addCustomQuery (now : N) (customQuery : string)
    (customCategory : LeadCategory) (searchQueries : list SearchQuery)
  : list SearchQuery * string :=
  if negb (truthy (Js.trim customQuery)) then (searchQueries, customQuery)
  else (searchQueries ++ [customSearchQuery now customQuery customCategory],
        EmptyString).

(** Two queries that differ at most in being enabled. *)
Definition sameButEnabled (a b : SearchQuery) : Prop :=
  q_id a = q_id b /\ q_label a = q_label b /\ q_query a = q_query b
  /\ q_category a = q_category b.

(** *** The export to the sheet ([exportToGoogleSheets] of [sheets.ts]) *)

(** [name.split(' ')[0]]: the text before the first space. *)
Fixpoint beforeSpace (s : string) : string :=
  match s with
  | EmptyString => EmptyString
  | String c r => if Ascii.eqb c " " then EmptyString else String c (beforeSpace r)
  end.

Definition generateConnectionNote (lead : Lead) : string :=
  let firstName := beforeSpace (name lead) in
  let headline :=
    if truthy (headline lead) then headline lead else "the food industry" in
  match category lead with
  | KitchenTenant =>
      "Hi " ++ firstName ++ ", I noticed your work in " ++ headline
      ++ ". The LaChow offers shared commercial kitchen space in Baltimore - would love to connect and share how we support food entrepreneurs like yourself."
  | OfficeTenant =>
      "Hi " ++ firstName
      ++ ", I came across your profile and was impressed by your background in "
      ++ headline
      ++ ". The LaChow provides flexible office space for food industry professionals in Baltimore - let's connect!"
  | EventClient =>
      "Hi " ++ firstName ++ ", I saw your experience in " ++ headline
      ++ ". The LaChow has beautiful event venues in Baltimore perfect for your clients - would love to discuss potential collaboration."
  | Uncategorized =>
      "Hi " ++ firstName
      ++ ", I came across your profile and thought we might have synergies. The LaChow is Baltimore's premier shared kitchen and event space - let's connect!"
  end.

(** The row of a lead: date, name, job title, profile link, connection
    note, status.  [formatDate] formats a date for a locale and is taken
    as given. *)
Definition sheetRow (formatDate : string -> string) (lead : Lead) : list string :=
  [ formatDate (scrapedAt lead);
    name lead;
    (if truthy (headline lead) then headline lead
     else categoryName (category lead));
    profileUrl lead;
    generateConnectionNote lead;
    "New" ].

(** What the request to the script comes to: an exception, or a
    response with its [ok], [status] and [statusText] and with what
    reading its text as JSON gives: nothing when that throws, otherwise
    whether [success] holds and the [error] if there is one. *)
Inductive SheetsOutcome : Type :=
  | SheetsThrows (message : option string)
  | SheetsResponse (ok : bool) (status : N) (statusText : string)
      (parsed : option (bool * option string)).

Record SheetExportResult : Type := mkSheetExportResult {
  se_success : bool;
  se_message : string;
  se_rowsAdded : option nat
}.

Definition exportToGoogleSheets (formatDate : string -> string)
    (post : list (list string) -> SheetsOutcome) (leads : list Lead)
  : SheetExportResult :=
  if (length leads =? 0)%nat then
    {| se_success := false; se_message := "No leads to export";
       se_rowsAdded := None |}
  else
    let rows := map (sheetRow formatDate) leads in
    let exported :=
      {| se_success := true;
         se_message :=
           "Successfully exported " ++ showN (N.of_nat (length leads))
           ++ " leads to Google Sheets";
         se_rowsAdded := Some (length leads) |} in
    match post rows with
    | SheetsThrows message =>
        {| se_success := false;
           se_message :=
             "Network error: "
             ++ match message with Some m => m | None => "Unknown error" end;
           se_rowsAdded := None |}
    | SheetsResponse ok status statusText parsed =>
        if negb ok && negb (status =? 302)%N then
          {| se_success := false;
             se_message := "Export failed: " ++ statusText;
             se_rowsAdded := None |}
        else
          match parsed with
          | Some (success, error) =>
              if success then exported
              else
                {| se_success := false;
                   se_message :=
                     match error with
                     | Some e => if truthy e then e else "Export failed"
                     | None => "Export failed"
                     end;
                   se_rowsAdded := None |}
          | None =>
              if ok then exported
              else
                {| se_success := false;
                   se_message := "Unexpected response from Google Sheets";
                   se_rowsAdded := None |}
          end
    end.

(** * Facts about the insertion-ordered map *)

Section MapFacts.

Lemma memKey_In k keys : memKey k keys = true <-> In k keys.
Proof.
  unfold memKey. rewrite existsb_exists. split.
  - intros [x [Hx He]]. apply String.eqb_eq in He. now subst.
  - intros H. exists k. split; [assumption | apply String.eqb_refl].
Qed.

Lemma memKey_app k a b : memKey k (a ++ b) = memKey k a || memKey k b.
Proof. unfold memKey. apply existsb_app. Qed.

Lemma map_get_None m k : map_get m k = None <-> memKey k (map_keys m) = false.
Proof.
  induction m as [|[k' v] m IH]; simpl.
  - tauto.
  - rewrite (String.eqb_sym k k'). destruct (String.eqb k' k); simpl.
    + split; discriminate.
    + exact IH.
Qed.

Lemma map_get_Some_mem m k v : map_get m k = Some v -> memKey k (map_keys m) = true.
Proof.
  intros H. destruct (memKey k (map_keys m)) eqn:E; [reflexivity|].
  apply map_get_None in E. congruence.
Qed.

Lemma map_get_In m k v : map_get m k = Some v -> In (k, v) m.
Proof.
  induction m as [|[k' v'] m IH]; simpl; [discriminate|].
  destruct (String.eqb_spec k' k) as [->|Hne].
  - intros [= ->]. now left.
  - intros H. right. auto.
Qed.

Lemma map_set_fresh m k v :
  map_get m k = None -> map_set m k v = m ++ [(k, v)].
Proof.
  induction m as [|[k' v'] m IH]; simpl; [reflexivity|].
  destruct (String.eqb k' k); [discriminate|].
  intros H. now rewrite IH.
Qed.

Lemma map_set_keys_present m k v old :
  map_get m k = Some old -> map_keys (map_set m k v) = map_keys m.
Proof.
  induction m as [|[k' v'] m IH]; simpl; [discriminate|].
  destruct (String.eqb_spec k' k) as [->|Hne]; simpl.
  - reflexivity.
  - intros H. now rewrite IH.
Qed.

Lemma map_get_set_same m k v : map_get (map_set m k v) k = Some v.
Proof.
  induction m as [|[k' v'] m IH]; simpl.
  - now rewrite String.eqb_refl.
  - destruct (String.eqb k' k) eqn:E; simpl.
    + now rewrite String.eqb_refl.
    + now rewrite E.
Qed.

Lemma map_get_set_other m k v k' :
  k' <> k -> map_get (map_set m k v) k' = map_get m k'.
Proof.
  intros Hne. induction m as [|[k0 v0] m IH]; simpl.
  - destruct (String.eqb_spec k k'); [congruence | reflexivity].
  - destruct (String.eqb_spec k0 k) as [->|Hk]; simpl.
    + destruct (String.eqb_spec k k'); [congruence | reflexivity].
    + destruct (String.eqb k0 k'); [reflexivity | exact IH].
Qed.

Lemma map_set_values_In m k v x :
  In x (map_values (map_set m k v)) -> x = v \/ In x (map_values m).
Proof.
  unfold map_values. induction m as [|[k' v'] m IH]; simpl.
  - intros [H|[]]; auto.
  - destruct (String.eqb k' k); simpl.
    + intros [H|H]; auto.
    + intros [H|H]; auto. destruct (IH H); auto.
Qed.

End MapFacts.

(** * The de-duplicator *)

Section Dedup.

Lemma dedupSeen_snoc leads lead :
  dedupSeen (leads ++ [lead]) = dedupStep (dedupSeen leads) lead.
Proof. unfold dedupSeen. now rewrite fold_left_app. Qed.

Lemma dedupStep_keys m lead :
  map_keys (dedupStep m lead) =
  if memKey (normalizedUrl lead) (map_keys m) then map_keys m
  else map_keys m ++ [normalizedUrl lead].
Proof.
  unfold dedupStep. destruct (map_get m (normalizedUrl lead)) as [old|] eqn:E.
  - rewrite (map_get_Some_mem _ _ _ E).
    destruct (_ <? _)%Z; [|reflexivity].
    now apply map_set_keys_present with old.
  - rewrite (proj1 (map_get_None _ _) E), (map_set_fresh _ _ _ E).
    unfold map_keys. now rewrite map_app.
Qed.

Lemma filter_skip_key (P : string -> bool) k l :
  (forall x, P x = true -> String.eqb x k = false) ->
  filter P (filter (fun k' => negb (String.eqb k' k)) l) = filter P l.
Proof.
  intros HP. induction l as [|x l IH]; simpl; [reflexivity|].
  destruct (P x) eqn:Px.
  - rewrite (HP _ Px). simpl. now rewrite Px, IH.
  - destruct (String.eqb x k); simpl; [exact IH | now rewrite Px, IH].
Qed.

Lemma filter_split_key keys k l :
  filter (fun x => negb (memKey x (keys ++ [k]))) l =
  filter (fun x => negb (memKey x keys))
    (filter (fun k' => negb (String.eqb k' k)) l).
Proof.
  induction l as [|x l IH]; simpl; [reflexivity|].
  rewrite memKey_app. simpl. rewrite orb_false_r.
  destruct (String.eqb x k); simpl.
  - rewrite orb_true_r. simpl. exact IH.
  - rewrite orb_false_r. destruct (memKey x keys); simpl; now rewrite IH.
Qed.

(** The keys of the map after the loop, from any starting map. *)
Lemma fold_dedupStep_keys leads m :
  map_keys (fold_left dedupStep leads m) =
  map_keys m ++
  filter (fun k => negb (memKey k (map_keys m)))
    (firstSeen (map normalizedUrl leads)).
Proof.
  revert m. induction leads as [|lead leads IH]; intros m; simpl.
  - now rewrite app_nil_r.
  - rewrite IH, dedupStep_keys.
    destruct (memKey (normalizedUrl lead) (map_keys m)) eqn:E; simpl.
    + f_equal. symmetry. apply filter_skip_key.
      intros x Hx. destruct (String.eqb_spec x (normalizedUrl lead)); [|reflexivity].
      subst. rewrite E in Hx. discriminate.
    + rewrite <- app_assoc. simpl. f_equal. f_equal. apply filter_split_key.
Qed.

Lemma dedupSeen_keys leads :
  map_keys (dedupSeen leads) = firstSeen (map normalizedUrl leads).
Proof.
  unfold dedupSeen. rewrite fold_dedupStep_keys. simpl.
  induction (firstSeen (map normalizedUrl leads)); simpl; [reflexivity | now f_equal].
Qed.

Lemma dedupStep_keyed m lead : keyed m -> keyed (dedupStep m lead).
Proof.
  intros Hm. unfold dedupStep.
  assert (Hset : keyed (map_set m (normalizedUrl lead) lead)).
  { clear - Hm. induction m as [|[k' v'] m IH]; simpl.
    - intros k v [[= <- <-]|[]]. reflexivity.
    - destruct (String.eqb k' (normalizedUrl lead)).
      + intros k v [[= <- <-]|H]; [reflexivity|]. apply Hm. now right.
      + intros k v [[= <- <-]|H].
        * apply Hm. now left.
        * apply IH; [|assumption]. intros k0 v0 H0. apply Hm. now right. }
  destruct (map_get m (normalizedUrl lead)); [destruct (_ <? _)%Z|]; assumption.
Qed.

Lemma fold_dedupStep_keyed leads m :
  keyed m -> keyed (fold_left dedupStep leads m).
Proof.
  revert m. induction leads as [|lead leads IH]; intros m Hm; simpl; [assumption|].
  apply IH. now apply dedupStep_keyed.
Qed.

Lemma dedupSeen_keyed leads : keyed (dedupSeen leads).
Proof. apply fold_dedupStep_keyed. intros k v []. Qed.

Lemma keyed_keys m : keyed m -> map_keys m = map normalizedUrl (map_values m).
Proof.
  unfold map_keys, map_values. induction m as [|[k v] m IH]; intros Hm; simpl.
  - reflexivity.
  - f_equal.
    + apply Hm. now left.
    + apply IH. intros k0 v0 H. apply Hm. now right.
Qed.

(** The normalized URLs of the output, in order. *)
Lemma deduplicateLeads_keys leads :
  map normalizedUrl (deduplicateLeads leads) = firstSeen (map normalizedUrl leads).
Proof.
  unfold deduplicateLeads.
  rewrite <- keyed_keys by apply dedupSeen_keyed. apply dedupSeen_keys.
Qed.

Lemma firstSeen_In k keys : In k (firstSeen keys) <-> In k keys.
Proof.
  induction keys as [|x keys IH]; simpl; [tauto|].
  rewrite filter_In, IH. destruct (String.eqb_spec k x) as [->|Hne]; simpl.
  - split; auto.
  - split.
    + intros [H|[H _]]; auto.
    + intros [H|H]; [now left | right; auto].
Qed.

Lemma firstSeen_NoDup keys : NoDup (firstSeen keys).
Proof.
  induction keys as [|x keys IH]; simpl; constructor.
  - rewrite filter_In. intros [_ H]. now rewrite String.eqb_refl in H.
  - now apply NoDup_filter.
Qed.

(** Every lead of the output is a lead of the input. *)
Lemma fold_dedupStep_values leads m x :
  In x (map_values (fold_left dedupStep leads m)) ->
  In x (map_values m) \/ In x leads.
Proof.
  revert m. induction leads as [|lead leads IH]; intros m; simpl; [auto|].
  intros H. destruct (IH _ H) as [H1|H1]; [|auto].
  unfold dedupStep in H1.
  destruct (map_get m (normalizedUrl lead)); [destruct (_ <? _)%Z|]; auto;
    destruct (map_set_values_In _ _ _ _ H1); auto.
Qed.

Lemma deduplicateLeads_incl leads x :
  In x (deduplicateLeads leads) -> In x leads.
Proof.
  intros H. destruct (fold_dedupStep_values leads [] x H) as [[]|]; assumption.
Qed.

(** On leads with pairwise different normalized URLs the loop only
    appends. *)
Lemma fold_dedupStep_fresh leads m :
  NoDup (map_keys m ++ map normalizedUrl leads) ->
  fold_left dedupStep leads m =
  m ++ map (fun lead => (normalizedUrl lead, lead)) leads.
Proof.
  revert m. induction leads as [|lead leads IH]; intros m Hnd; simpl.
  - now rewrite app_nil_r.
  - assert (Hfresh : map_get m (normalizedUrl lead) = None).
    { apply map_get_None. destruct (memKey _ _) eqn:E; [|reflexivity].
      apply memKey_In in E. simpl in Hnd. apply NoDup_remove_2 in Hnd.
      exfalso. apply Hnd. apply in_or_app. now left. }
    unfold dedupStep at 2. rewrite Hfresh, (map_set_fresh _ _ _ Hfresh).
    rewrite IH.
    + now rewrite <- app_assoc.
    + unfold map_keys. rewrite map_app. simpl. rewrite <- app_assoc. exact Hnd.
Qed.

Lemma deduplicateLeads_distinct leads :
  NoDup (map normalizedUrl leads) -> deduplicateLeads leads = leads.
Proof.
  intros H. unfold deduplicateLeads, dedupSeen.
  rewrite fold_dedupStep_fresh by exact H. simpl.
  unfold map_values. rewrite map_map. simpl. apply map_id.
Qed.

End Dedup.

Section DedupBest.

Lemma map_get_unique m k v :
  NoDup (map_keys m) -> In (k, v) m -> map_get m k = Some v.
Proof.
  induction m as [|[k' v'] m IH]; simpl; [intros _ []|].
  intros Hnd [[= -> ->]|Hin].
  - now rewrite String.eqb_refl.
  - inversion Hnd as [|? ? Hk Hm]; subst.
    destruct (String.eqb_spec k' k) as [->|Hne].
    + exfalso. apply Hk. unfold map_keys. apply in_map_iff. now exists (k, v).
    + now apply IH.
Qed.

Lemma dedupSeen_no_key leads k x :
  map_get (dedupSeen leads) k = None -> In x leads -> normalizedUrl x <> k.
Proof.
  intros Hnone Hx Hk. apply map_get_None in Hnone.
  rewrite dedupSeen_keys in Hnone.
  assert (H : memKey k (firstSeen (map normalizedUrl leads)) = true).
  { apply memKey_In, firstSeen_In. subst k. now apply in_map. }
  congruence.
Qed.

(** What the map holds for a key once the loop has read [leads]: the
    first of the leads with that key whose confidence no other lead with
    the key exceeds. *)
Lemma dedupSeen_best leads : forall k v,
  map_get (dedupSeen leads) k = Some v ->
  exists before after,
    leads = before ++ v :: after /\
    normalizedUrl v = k /\
    (forall x, In x before -> normalizedUrl x = k ->
       (confidenceOrder (confidence x) < confidenceOrder (confidence v))%Z) /\
    (forall x, In x after -> normalizedUrl x = k ->
       (confidenceOrder (confidence x) <= confidenceOrder (confidence v))%Z).
Proof.
  induction leads as [|lead leads IH] using rev_ind; intros k v.
  - discriminate.
  - rewrite dedupSeen_snoc.
    assert (Hlater : forall v0,
      map_get (dedupSeen leads) k = Some v0 ->
      (normalizedUrl lead = k ->
       (confidenceOrder (confidence lead) <= confidenceOrder (confidence v0))%Z) ->
      exists before after,
        leads ++ [lead] = before ++ v0 :: after /\
        normalizedUrl v0 = k /\
        (forall x, In x before -> normalizedUrl x = k ->
           (confidenceOrder (confidence x) < confidenceOrder (confidence v0))%Z) /\
        (forall x, In x after -> normalizedUrl x = k ->
           (confidenceOrder (confidence x) <= confidenceOrder (confidence v0))%Z)).
    { intros v0 Hv0 Hle. destruct (IH _ _ Hv0) as (b & a & -> & Hk & Hb & Ha).
      exists b, (a ++ [lead]). repeat split; auto.
      - now rewrite <- app_assoc.
      - intros x Hx Hxk. apply in_app_or in Hx. destruct Hx as [Hx|[<-|[]]]; auto. }
    assert (Hnew :
      (forall x, In x leads -> normalizedUrl x = normalizedUrl lead ->
         (confidenceOrder (confidence x) < confidenceOrder (confidence lead))%Z) ->
      exists before after,
        leads ++ [lead] = before ++ lead :: after /\
        normalizedUrl lead = normalizedUrl lead /\
        (forall x, In x before -> normalizedUrl x = normalizedUrl lead ->
           (confidenceOrder (confidence x) < confidenceOrder (confidence lead))%Z) /\
        (forall x, In x after -> normalizedUrl x = normalizedUrl lead ->
           (confidenceOrder (confidence x) <= confidenceOrder (confidence lead))%Z)).
    { intros H. exists leads, []. repeat split; auto. intros x []. }
    unfold dedupStep.
    destruct (String.eqb_spec k (normalizedUrl lead)) as [->|Hne].
    + destruct (map_get (dedupSeen leads) (normalizedUrl lead)) as [existing|] eqn:E.
      * destruct (_ <? _)%Z eqn:Hlt.
        -- rewrite map_get_set_same. intros [= <-]. apply Hnew.
           apply Z.ltb_lt in Hlt.
           destruct (IH _ _ E) as (b & a & -> & Hk & Hb & Ha).
           intros x Hx Hxk. apply in_app_or in Hx.
           destruct Hx as [Hx|[<-|Hx]].
           ++ specialize (Hb x Hx Hxk). lia.
           ++ assumption.
           ++ specialize (Ha x Hx Hxk). lia.
        -- rewrite E. intros [= <-]. apply Hlater; [reflexivity|].
           intros _. apply Z.ltb_ge in Hlt. exact Hlt.
      * rewrite map_get_set_same. intros [= <-]. apply Hnew.
        intros x Hx Hxk. exfalso. exact (dedupSeen_no_key _ _ _ E Hx Hxk).
    + assert (Hsame : map_get
                (match map_get (dedupSeen leads) (normalizedUrl lead) with
                 | Some existing =>
                     if (confidenceOrder (confidence existing) <?
                         confidenceOrder (confidence lead))%Z
                     then map_set (dedupSeen leads) (normalizedUrl lead) lead
                     else dedupSeen leads
                 | None => map_set (dedupSeen leads) (normalizedUrl lead) lead
                 end) k = map_get (dedupSeen leads) k).
      { destruct (map_get (dedupSeen leads) (normalizedUrl lead));
          [destruct (_ <? _)%Z|]; try reflexivity;
          now apply map_get_set_other. }
      rewrite Hsame. intros Hv. apply Hlater; [assumption|].
      intros Hk. congruence.
Qed.

Lemma deduplicateLeads_stored leads v :
  In v (deduplicateLeads leads) ->
  map_get (dedupSeen leads) (normalizedUrl v) = Some v.
Proof.
  unfold deduplicateLeads, map_values. intros H.
  apply in_map_iff in H. destruct H as [[k v'] [Hv Hin]]. simpl in Hv. subst v'.
  rewrite <- (dedupSeen_keyed leads _ _ Hin).
  apply map_get_unique; [|assumption].
  rewrite dedupSeen_keys. apply firstSeen_NoDup.
Qed.

End DedupBest.

(** * Theorems about the de-duplicator *)

(** C2.  The de-duplicator reads the leads in input order, keyed by
    normalized profile URL.  A lead with a key not seen before is recorded
    at the end; a lead with a key seen before replaces the stored lead, in
    its place, exactly when its confidence is strictly higher under
    High(3) > Medium(2) > Low(1), and is dropped otherwise.  So every lead
    of the output is the first lead of its key that no other lead of the
    key exceeds.  Two leads with one key and confidences Low, High give the
    High lead alone; High, Low give the first lead alone. *)
Theorem dedup_merge_policy :
  forall (leads : list Lead) (lead : Lead),
    let seen := dedupSeen leads in
    let seen' := dedupSeen (leads ++ [lead]) in
    let k := normalizedUrl lead in
    match map_get seen k with
    | None => seen' = seen ++ [(k, lead)]
    | Some existing =>
        if (confidenceOrder (confidence existing) <?
            confidenceOrder (confidence lead))%Z
        then map_keys seen' = map_keys seen /\
             map_get seen' k = Some lead /\
             (forall k', k' <> k -> map_get seen' k' = map_get seen k')
        else seen' = seen
    end
    /\ (confidenceOrder High = 3 /\ confidenceOrder Medium = 2
        /\ confidenceOrder Low = 1)%Z
    /\ (forall v, In v (deduplicateLeads leads) ->
        exists before after,
          leads = before ++ v :: after /\
          (forall x, In x before -> normalizedUrl x = normalizedUrl v ->
             (confidenceOrder (confidence x) < confidenceOrder (confidence v))%Z) /\
          (forall x, In x after -> normalizedUrl x = normalizedUrl v ->
             (confidenceOrder (confidence x) <= confidenceOrder (confidence v))%Z))
    /\ (forall a b, normalizedUrl a = normalizedUrl b ->
        confidence a = Low -> confidence b = High ->
        deduplicateLeads [a; b] = [b])
    /\ (forall a b, normalizedUrl a = normalizedUrl b ->
        confidence a = High -> confidence b = Low ->
        deduplicateLeads [a; b] = [a]).
Proof.
  intros leads lead seen seen' k. repeat split.
  - subst seen'. rewrite dedupSeen_snoc. fold seen. unfold dedupStep. fold k.
    destruct (map_get seen k) as [existing|] eqn:E.
    + destruct (_ <? _)%Z; [|reflexivity]. repeat split.
      * now apply map_set_keys_present with existing.
      * apply map_get_set_same.
      * intros k' Hk'. now apply map_get_set_other.
    + now apply map_set_fresh.
  - intros v Hv. apply deduplicateLeads_stored in Hv.
    destruct (dedupSeen_best _ _ _ Hv) as (b & a & H1 & _ & H2 & H3).
    exists b, a. auto.
  - intros a b Hk Ha Hb. unfold deduplicateLeads, dedupSeen. simpl.
    unfold dedupStep at 2. simpl. unfold dedupStep. simpl.
    rewrite Hk, String.eqb_refl, Ha, Hb. reflexivity.
  - intros a b Hk Ha Hb. unfold deduplicateLeads, dedupSeen. simpl.
    unfold dedupStep at 2. simpl. unfold dedupStep. simpl.
    rewrite Hk, String.eqb_refl, Ha, Hb. reflexivity.
Qed.

(** C7.  The output holds exactly one lead per normalized profile URL (the
    URL in lower case, less one closing slash if it has one): the
    normalized URLs of the output are the distinct normalized URLs of the
    input in the order they are first seen, each URL of the input occurs
    once among them, and every lead of the output is a lead of the
    input. *)
Theorem dedup_one_per_url :
  forall leads : list Lead,
    map normalizedUrl (deduplicateLeads leads)
      = firstSeen (map normalizedUrl leads)
    /\ NoDup (map normalizedUrl (deduplicateLeads leads))
    /\ (forall lead, In lead leads ->
        count_occ string_dec (map normalizedUrl (deduplicateLeads leads))
          (normalizedUrl lead) = 1)
    /\ (forall out, In out (deduplicateLeads leads) -> In out leads)
    /\ (forall lead s,
        Js.toLowerCase (profileUrl lead) = (s ++ "/")%string ->
        normalizedUrl lead = s)
    /\ (forall lead,
        (forall s, Js.toLowerCase (profileUrl lead) <> (s ++ "/")%string) ->
        normalizedUrl lead = Js.toLowerCase (profileUrl lead)).
Proof.
  intros leads.
  assert (Hnd : NoDup (map normalizedUrl (deduplicateLeads leads))).
  { rewrite deduplicateLeads_keys. apply firstSeen_NoDup. }
  repeat split.
  - apply deduplicateLeads_keys.
  - exact Hnd.
  - intros lead Hin. apply NoDup_count_occ' with (decA := string_dec).
    + exact Hnd.
    + rewrite deduplicateLeads_keys. apply firstSeen_In. now apply in_map.
  - apply deduplicateLeads_incl.
  - intros lead s Hs. unfold normalizedUrl. rewrite Hs. clear.
    induction s as [|c s IH]; [reflexivity|].
    simpl. rewrite IH. destruct s; reflexivity.
  - intros lead Hs. unfold normalizedUrl.
    induction (Js.toLowerCase (profileUrl lead)) as [|c s IH]; [reflexivity|].
    simpl. destruct s as [|c' s'].
    + destruct (Ascii.eqb_spec c "/"); [|reflexivity].
      subst. exfalso. now apply (Hs EmptyString).
    + rewrite IH; [reflexivity|].
      intros t Ht. apply (Hs (String c t)). simpl. now rewrite Ht.
Qed.

(** C10.  De-duplicating the output of the de-duplicator changes
    nothing. *)
Theorem dedup_idempotent :
  forall leads : list Lead,
    deduplicateLeads (deduplicateLeads leads) = deduplicateLeads leads.
Proof.
  intros leads. apply deduplicateLeads_distinct.
  rewrite deduplicateLeads_keys. apply firstSeen_NoDup.
Qed.

(** * The category scorer *)

Section Ranking.

Lemma insertDesc_perm x l : Permutation (insertDesc x l) (x :: l).
Proof.
  induction l as [|y l IH]; simpl.
  - apply Permutation_refl.
  - destruct (snd y <=? snd x)%Z.
    + apply Permutation_refl.
    + apply perm_trans with (y :: x :: l); [now apply perm_skip | apply perm_swap].
Qed.

Lemma sortDesc_perm l : Permutation (sortDesc l) l.
Proof.
  induction l as [|x l IH]; simpl.
  - apply perm_nil.
  - apply perm_trans with (x :: sortDesc l);
      [apply insertDesc_perm | now apply perm_skip].
Qed.

Lemma insertDesc_sorted x l :
  Sorted descending l -> Sorted descending (insertDesc x l).
Proof.
  induction 1 as [|y l Hl IH Hy]; simpl.
  - repeat constructor.
  - destruct (Z.leb_spec (snd y) (snd x)) as [Hle|Hgt].
    + constructor; [now constructor|]. constructor. exact Hle.
    + constructor; [exact IH|].
      destruct l as [|z l]; simpl.
      * constructor. unfold descending. lia.
      * inversion Hy; subst. destruct (snd z <=? snd x)%Z.
        -- constructor. unfold descending. lia.
        -- now constructor.
Qed.

Lemma sortDesc_sorted l : Sorted descending (sortDesc l).
Proof.
  induction l as [|x l IH]; simpl; [constructor | now apply insertDesc_sorted].
Qed.

(** The sort is stable: entries with one score keep their order. *)
Lemma insertDesc_stable z x l :
  filter (byScore z) (insertDesc x l) = filter (byScore z) (x :: l).
Proof.
  induction l as [|y l IH]; [reflexivity|].
  cbn [insertDesc]. destruct (Z.leb_spec (snd y) (snd x)) as [Hle|Hgt]; [reflexivity|].
  cbn [filter] in *. rewrite IH. unfold byScore.
  destruct (Z.eqb_spec (snd y) z), (Z.eqb_spec (snd x) z); try reflexivity. lia.
Qed.

Lemma sortDesc_stable z l :
  filter (byScore z) (sortDesc l) = filter (byScore z) l.
Proof.
  induction l as [|x l IH]; [reflexivity|].
  cbn [sortDesc fold_right]. fold (sortDesc l).
  rewrite insertDesc_stable. cbn [filter]. now rewrite IH.
Qed.

Lemma ranked_realEntries s : ranked s = sortDesc (realEntries s).
Proof. reflexivity. Qed.

Lemma ranked_three s :
  exists top second third, ranked s = [top; second; third].
Proof.
  pose proof (Permutation_length (sortDesc_perm (realEntries s))) as H.
  rewrite ranked_realEntries.
  destruct (sortDesc (realEntries s)) as [|a [|b [|c [|d l]]]]; try discriminate.
  now exists a, b, c.
Qed.

(** The head of the ranking is the leader. *)
Lemma ranked_head s :
  exists c rest, ranked s = (c, getScore s c) :: rest /\ leader s c.
Proof.
  destruct s as [k o e u]. unfold ranked, entries, sortDesc, leader. cbn.
  destruct (e <=? o)%Z eqn:E1, (o <=? k)%Z eqn:E2, (e <=? k)%Z eqn:E3;
    cbn; rewrite ?E1, ?E2, ?E3; cbn;
    (apply Z.leb_le in E1 || apply Z.leb_gt in E1);
    (apply Z.leb_le in E2 || apply Z.leb_gt in E2);
    (apply Z.leb_le in E3 || apply Z.leb_gt in E3);
    match goal with
    | |- exists c rest, ((?c0, _) :: ?r0) = _ /\ _ => exists c0, r0
    end;
    (split; [reflexivity|]);
    (split; [discriminate|]);
    (split; intros c' Hc'; destruct c'; cbn in *; try lia; congruence).
Qed.

Lemma getScore_addScore s c w c' :
  getScore (addScore s c w) c' =
  if LeadCategory_eqb c' c then (getScore s c' + w)%Z else getScore s c'.
Proof. destruct c, c'; reflexivity. Qed.

Lemma LeadCategory_eqb_eq a b : LeadCategory_eqb a b = true <-> a = b.
Proof. destruct a, b; simpl; split; congruence. Qed.

End Ranking.

(** * Substrings *)

Section Substrings.

Lemma append_nil_r (s : string) : (s ++ EmptyString)%string = s.
Proof. induction s as [|c s IH]; simpl; [reflexivity | now rewrite IH]. Qed.

Lemma append_assoc (a b c : string) :
  ((a ++ b) ++ c)%string = (a ++ (b ++ c))%string.
Proof. induction a as [|x a IH]; simpl; [reflexivity | now rewrite IH]. Qed.

Lemma startsWith_spec s p :
  Js.startsWith s p = true <-> exists rest, s = (p ++ rest)%string.
Proof.
  revert s. induction p as [|a p IH]; intros s; simpl.
  - split; [intros _; now exists s | reflexivity].
  - destruct s as [|b s].
    + split; [discriminate | intros [rest H]; discriminate].
    + rewrite andb_true_iff, IH. split.
      * intros [Hab [rest ->]]. apply Ascii.eqb_eq in Hab. subst. now exists rest.
      * intros [rest [= -> ->]]. split; [apply Ascii.eqb_refl | now exists rest].
Qed.

Lemma includes_spec text needle :
  Js.includes text needle = true <-> occursIn needle text.
Proof.
  unfold occursIn. induction text as [|c text IH].
  - simpl. rewrite orb_false_r, startsWith_spec. split.
    + intros [rest H]. now exists EmptyString, rest.
    + intros [[|x before] [after H]]; [now exists after | discriminate].
  - cbn [Js.includes]. rewrite orb_true_iff, IH, startsWith_spec. split.
    + intros [[rest H]|[before [after H]]].
      * now exists EmptyString, rest.
      * exists (String c before), after. simpl. now rewrite H.
    + intros [[|x before] [after H]].
      * left. now exists after.
      * right. injection H as -> ->. now exists before, after.
Qed.

End Substrings.

(** * Scores *)

Section ScoreFacts.

Lemma scoreGroup_nonneg text category scores group :
  (0 <= snd group)%Z -> nonneg scores ->
  nonneg (scoreGroup text category scores group).
Proof.
  destruct group as [keywords weight]. simpl. intros Hw.
  revert scores. induction keywords as [|kw keywords IH]; intros scores Hs; simpl.
  - exact Hs.
  - apply IH. destruct (Js.includes text (Js.toLowerCase kw)); [|exact Hs].
    intros c. rewrite getScore_addScore. specialize (Hs c).
    destruct (LeadCategory_eqb c category); lia.
Qed.

Lemma fold_scoreGroup_nonneg text category groups scores :
  Forall (fun g => (0 <= snd g)%Z) groups -> nonneg scores ->
  nonneg (fold_left (scoreGroup text category) groups scores).
Proof.
  intros Hg. revert scores. induction Hg as [|g groups Hw Hg IH]; intros scores Hs; simpl.
  - exact Hs.
  - apply IH. now apply scoreGroup_nonneg.
Qed.

Lemma CATEGORY_KEYWORDS_weights :
  Forall (fun e => Forall (fun g : list string * Z => (0 <= snd g)%Z) (snd e))
    CATEGORY_KEYWORDS.
Proof. unfold CATEGORY_KEYWORDS. repeat constructor; simpl; lia. Qed.

Lemma keywordScores_nonneg text : nonneg (keywordScores text).
Proof.
  unfold keywordScores.
  assert (H0 : nonneg zeroScores) by (intros []; simpl; lia).
  revert H0. generalize zeroScores.
  induction CATEGORY_KEYWORDS_weights as [|[category groups] table Hg Ht IH];
    intros scores Hs; simpl.
  - exact Hs.
  - apply IH. destruct (LeadCategory_eqb category Uncategorized); [exact Hs|].
    now apply fold_scoreGroup_nonneg.
Qed.

Lemma hasLocationRelevance_spec text :
  hasLocationRelevance text = true <->
  exists loc, In loc LOCATION_KEYWORDS /\ occursIn loc text.
Proof.
  unfold hasLocationRelevance. rewrite existsb_exists. split.
  - intros [loc [Hin H]]. exists loc. split; [assumption|].
    apply includes_spec.
    replace loc with (Js.toLowerCase loc); [assumption|].
    simpl in Hin.
    repeat (destruct Hin as [<-|Hin]; [reflexivity|]). destruct Hin.
  - intros [loc [Hin H]]. exists loc. split; [assumption|].
    apply includes_spec in H.
    replace (Js.toLowerCase loc) with loc; [assumption|].
    simpl in Hin.
    repeat (destruct Hin as [<-|Hin]; [reflexivity|]). destruct Hin.
Qed.

Lemma exceedsOneAndHalf_Z top second :
  exceedsOneAndHalf top second <-> (3 * second < 2 * top)%Z.
Proof.
  unfold exceedsOneAndHalf, Qlt, Qmult, inject_Z.
  cbn [Qnum Qden Pos.mul]. lia.
Qed.

Lemma categorizeLead_scores title snippet :
  res_scores (categorizeLead title snippet) = finalScores title snippet.
Proof.
  unfold categorizeLead.
  destruct (nth 0 _ _) as [tc ts], (nth 1 _ _) as [sc ss], (decide _ _ _).
  reflexivity.
Qed.

Lemma categorizeLead_decide title snippet top second third :
  ranked (finalScores title snippet) = [top; second; third] ->
  (res_category (categorizeLead title snippet),
   res_confidence (categorizeLead title snippet))
  = decide (fst top) (snd top) (snd second).
Proof.
  intros H. unfold categorizeLead. rewrite H. simpl.
  destruct top as [tc ts], second as [sc ss]. simpl.
  destruct (decide tc ts ss). reflexivity.
Qed.

End ScoreFacts.

(** * Theorems about the category scorer *)

(** C3.  The scorer ranks the three real categories by final score, highest
    first, categories with one score staying in declaration order, and
    reads the decision table in order: (Uncategorized, Low) when the top
    score is 0; (top category, High) when the top score is at least 15 and
    strictly greater than 1.5 times the second score; (top category,
    Medium) when the top score is at least 8; (top category, Low)
    otherwise. *)
Theorem scorer_decision_table :
  forall title snippet : string,
    let r := categorizeLead title snippet in
    let s := res_scores r in
    exists top second third,
      ranked s = [top; second; third]
      /\ Permutation [top; second; third] (realEntries s)
      /\ (snd third <= snd second <= snd top)%Z
      /\ (forall z, filter (byScore z) [top; second; third]
                    = filter (byScore z) (realEntries s))
      /\ (snd top = 0%Z ->
          (res_category r, res_confidence r) = (Uncategorized, Low))
      /\ (snd top <> 0%Z ->
          (15 <= snd top)%Z /\ exceedsOneAndHalf (snd top) (snd second) ->
          (res_category r, res_confidence r) = (fst top, High))
      /\ (snd top <> 0%Z ->
          ~ ((15 <= snd top)%Z /\ exceedsOneAndHalf (snd top) (snd second)) ->
          (8 <= snd top)%Z ->
          (res_category r, res_confidence r) = (fst top, Medium))
      /\ (snd top <> 0%Z ->
          ~ ((15 <= snd top)%Z /\ exceedsOneAndHalf (snd top) (snd second)) ->
          (snd top < 8)%Z ->
          (res_category r, res_confidence r) = (fst top, Low)).
Proof.
  intros title snippet r s. subst s r. rewrite categorizeLead_scores.
  destruct (ranked_three (finalScores title snippet))
    as (top & second & third & Hr).
  exists top, second, third.
  pose proof (sortDesc_sorted (realEntries (finalScores title snippet))) as Hs.
  rewrite <- ranked_realEntries, Hr in Hs.
  pose proof (categorizeLead_decide _ _ _ _ _ Hr) as Hd.
  split; [exact Hr|].
  split; [rewrite <- Hr, ranked_realEntries; apply sortDesc_perm|].
  split.
  { inversion Hs as [|? ? Hs' H1]; subst. inversion Hs' as [|? ? _ H2]; subst.
    inversion H1; subst. inversion H2; subst. unfold descending in *. lia. }
  split.
  { intros z. rewrite <- Hr, ranked_realEntries. apply sortDesc_stable. }
  rewrite Hd. unfold decide. rewrite exceedsOneAndHalf_Z.
  destruct (Z.eqb_spec (snd top) 0), (Z.leb_spec 15 (snd top)),
    (Z.ltb_spec (3 * snd second) (2 * snd top)), (Z.leb_spec 8 (snd top));
    cbn [andb]; repeat split; intros; try reflexivity; try lia; tauto.
Qed.

(** C6.  When the combined text in lower case contains a region name, the
    scorer adds exactly 3 to exactly one score, that of the real category
    with the maximum score, the first declared among equals, unless every
    real category scores 0, and then it adds nothing; when the text
    contains no region name no score changes.  Keyword scores are never
    negative, so these cases are all there are. *)
Theorem location_bonus :
  forall title snippet : string,
    let text := combinedText title snippet in
    let base := keywordScores text in
    let final := res_scores (categorizeLead title snippet) in
    (forall c, (0 <= getScore base c)%Z)
    /\ ((exists loc, In loc LOCATION_KEYWORDS /\ occursIn loc text) ->
        ((exists c, c <> Uncategorized /\ (0 < getScore base c)%Z) ->
         exists c, leader base c /\
           forall c', getScore final c' =
             if LeadCategory_eqb c' c then (getScore base c' + 3)%Z
             else getScore base c')
        /\ ((forall c, c <> Uncategorized -> getScore base c = 0%Z) ->
            final = base))
    /\ ((forall loc, In loc LOCATION_KEYWORDS -> ~ occursIn loc text) ->
        final = base).
Proof.
  intros title snippet text base final. subst final.
  rewrite categorizeLead_scores. unfold finalScores. fold text. fold base.
  unfold locationBoost.
  destruct (ranked_head base) as (c & rest & Hr & Hlead). rewrite Hr.
  cbn [fst].
  split; [apply keywordScores_nonneg|]. split.
  - intros Hloc. apply hasLocationRelevance_spec in Hloc. rewrite Hloc. split.
    + intros (c0 & Hc0 & Hpos).
      assert (Hc : (0 < getScore base c)%Z).
      { destruct Hlead as (_ & Hmax & _). specialize (Hmax c0 Hc0). lia. }
      apply Z.ltb_lt in Hc. rewrite Hc.
      exists c. split; [exact Hlead|]. intros c'. apply getScore_addScore.
    + intros Hzero. destruct Hlead as (Hc & _). rewrite (Hzero c Hc). reflexivity.
  - intros Hnone. destruct (hasLocationRelevance text) eqn:HL; [|reflexivity].
    apply hasLocationRelevance_spec in HL. destruct HL as (loc & Hin & Hocc).
    exfalso. exact (Hnone loc Hin Hocc).
Qed.

(** * The lead builder *)

Section Builder.

Lemma ranked_real s e : In e (ranked s) -> fst e <> Uncategorized.
Proof.
  intros H. rewrite ranked_realEntries in H.
  apply (Permutation_in _ (sortDesc_perm _)) in H.
  simpl in H. destruct H as [<-|[<-|[<-|[]]]]; discriminate.
Qed.

Lemma categorizeLead_uncategorized title snippet :
  res_category (categorizeLead title snippet) = Uncategorized ->
  res_confidence (categorizeLead title snippet) = Low.
Proof.
  destruct (ranked_three (finalScores title snippet))
    as (top & second & third & Hr).
  pose proof (categorizeLead_decide _ _ _ _ _ Hr) as Hd.
  assert (Htop : fst top <> Uncategorized).
  { apply ranked_real with (finalScores title snippet). rewrite Hr. now left. }
  unfold decide in Hd.
  destruct (snd top =? 0)%Z; [now injection Hd|].
  destruct (_ && _); [injection Hd as Hc _; congruence|].
  destruct (8 <=? snd top)%Z; injection Hd as Hc _; congruence.
Qed.

Lemma serpResultToLead_low now stamp result queryCategory queryLabel :
  lowWhenUncategorized
    (serpResultToLead now stamp result queryCategory queryLabel).
Proof.
  unfold lowWhenUncategorized, serpResultToLead. cbn [category confidence].
  destruct (LeadCategory_eqb _ Uncategorized) eqn:E; [reflexivity|].
  intros H. apply LeadCategory_eqb_eq in H. congruence.
Qed.

Lemma leadsFrom_In start arrivals queryCategory queryLabel lead :
  In lead (leadsFrom start arrivals queryCategory queryLabel) ->
  exists a index,
    In a arrivals /\ (start <= index)%N /\
    lead = serpResultToLead (arr_now a) (arr_stamp a)
             (mkSerpApiResult index (title (arr_result a))
                (link (arr_result a)) (result_snippet (arr_result a)))
             queryCategory queryLabel.
Proof.
  revert start. induction arrivals as [|a arrivals IH]; intros start; simpl.
  - intros [].
  - intros [<-|H].
    + exists a, start. repeat split; [now left | lia].
    + destruct (IH _ H) as (a' & index & Hin & Hle & ->).
      exists a', index. repeat split; [now right | lia].
Qed.

Lemma allLeads_In batch lead :
  In lead (allLeads batch) ->
  exists q arrivals a index,
    In q batch /\ run_arrivals q = Some arrivals /\ In a arrivals /\
    lead = serpResultToLead (arr_now a) (arr_stamp a)
             (mkSerpApiResult index (title (arr_result a))
                (link (arr_result a)) (result_snippet (arr_result a)))
             (run_category q) (run_label q).
Proof.
  unfold allLeads. rewrite in_flat_map. intros (q & Hq & H).
  unfold scrapeLeads in H. destruct (run_arrivals q) as [arrivals|] eqn:E; [|destruct H].
  destruct (leadsFrom_In _ _ _ _ _ H) as (a & index & Ha & _ & ->).
  now exists q, arrivals, a, index.
Qed.

End Builder.

(** C4.  A lead whose category is Uncategorized has confidence Low: the
    scorer returns Low with Uncategorized, the lead builder keeps that
    when it falls back on the category of the query, and the
    de-duplicator returns leads of its input, so the leads of a batch
    have the property before and after de-duplication. *)
Theorem uncategorized_is_low :
  (forall title snippet,
      res_category (categorizeLead title snippet) = Uncategorized ->
      res_confidence (categorizeLead title snippet) = Low)
  /\ (forall now stamp result queryCategory queryLabel,
      let lead := serpResultToLead now stamp result queryCategory queryLabel in
      category lead = Uncategorized -> confidence lead = Low)
  /\ (forall leads,
      (forall lead, In lead leads ->
         category lead = Uncategorized -> confidence lead = Low) ->
      forall lead, In lead (deduplicateLeads leads) ->
         category lead = Uncategorized -> confidence lead = Low)
  /\ (forall batch lead,
      In lead (allLeads batch) \/ In lead (deduplicateLeads (allLeads batch)) ->
      category lead = Uncategorized -> confidence lead = Low).
Proof.
  assert (Hbatch : forall batch lead, In lead (allLeads batch) ->
            category lead = Uncategorized -> confidence lead = Low).
  { intros batch lead Hin.
    destruct (allLeads_In _ _ Hin) as (q & arrivals & a & index & _ & _ & _ & ->).
    apply serpResultToLead_low. }
  repeat split.
  - apply categorizeLead_uncategorized.
  - intros. now apply (serpResultToLead_low now stamp result queryCategory queryLabel).
  - intros leads Hall lead Hin. apply Hall. now apply deduplicateLeads_incl.
  - intros batch lead [Hin|Hin]; apply (Hbatch batch); [assumption|].
    now apply deduplicateLeads_incl.
Qed.

(** C1, as amended.  With query category Kitchen Tenant the lead built
    from the candidate Jane Doe has name Jane Doe, headline Owner,
    Baltimore Catering Co, category Kitchen Tenant and confidence Medium:
    the one keyword of the table in the text is catering (10), the region
    name adds 3, and 13 is below the 15 that High needs. *)
Theorem jane_doe_lead :
  forall (now : N) (stamp : string) (index : N) (queryLabel : string),
    let lead :=
      serpResultToLead now stamp (janeDoe index) KitchenTenant queryLabel in
    name lead = "Jane Doe"
    /\ headline lead = "Owner, Baltimore Catering Co"
    /\ category lead = KitchenTenant
    /\ confidence lead = Medium
    /\ finalScores (title (janeDoe index)) (result_snippet (janeDoe index))
       = mkScores 13 0 0 0.
Proof.
  intros now stamp index queryLabel lead. subst lead.
  unfold serpResultToLead. cbn [name headline category confidence janeDoe title result_snippet].
  repeat split; vm_compute; reflexivity.
Qed.

(** C1 as the specification has it, with confidence High, does not
    hold. *)
Lemma jane_doe_not_high :
  ~ (let lead :=
       serpResultToLead 0 EmptyString (janeDoe 0) KitchenTenant EmptyString in
     name lead = "Jane Doe"
     /\ headline lead = "Owner, Baltimore Catering Co"
     /\ category lead = KitchenTenant
     /\ confidence lead = High).
Proof.
  intros (_ & _ & _ & H). vm_compute in H. discriminate H.
Qed.

(** * White space and the suffix pattern *)

Section Suffix.

Lemma trimStart_blank_app w t :
  Js.isBlank w = true -> Js.trimStart (w ++ t) = Js.trimStart t.
Proof.
  induction w as [|c w IH]; simpl; [reflexivity|].
  intros H. apply andb_true_iff in H. destruct H as [Hc Hw].
  rewrite Hc. now apply IH.
Qed.

Lemma trimStart_split s :
  exists w, Js.isBlank w = true /\ s = (w ++ Js.trimStart s)%string.
Proof.
  induction s as [|c s IH].
  - now exists EmptyString.
  - simpl. destruct (Js.isSpace c) eqn:E.
    + destruct IH as (w & Hw & Hs). exists (String c w). simpl.
      rewrite E, Hw. split; [reflexivity | now rewrite <- Hs].
    + now exists EmptyString.
Qed.

Lemma trimStart_head s c r :
  Js.trimStart s = String c r -> Js.isSpace c = false.
Proof.
  induction s as [|d s IH]; simpl; [discriminate|].
  destruct (Js.isSpace d) eqn:E; [exact IH|]. intros [= <- _]. exact E.
Qed.

Lemma trimStart_blank s :
  Js.trimStart s = EmptyString <-> Js.isBlank s = true.
Proof.
  induction s as [|c s IH]; simpl; [tauto|].
  destruct (Js.isSpace c); simpl; [exact IH|]. split; discriminate.
Qed.

Lemma isSpace_not_upper c : Js.isSpace c = true -> Js.toLowerChar c = c.
Proof.
  destruct c as [[] [] [] [] [] [] [] []]; vm_compute; intros H;
    try reflexivity; discriminate H.
Qed.

Lemma toLowerCase_app a b :
  Js.toLowerCase (a ++ b) = (Js.toLowerCase a ++ Js.toLowerCase b)%string.
Proof. induction a as [|c a IH]; simpl; [reflexivity | now rewrite IH]. Qed.

(** A text starts with [p] up to case when it starts with a word that is
    [p] in lower case. *)
Lemma startsWith_lower_elim p : forall r,
  Js.startsWith (Js.toLowerCase r) p = true ->
  exists word,
    r = (word ++ Js.drop (String.length p) r)%string /\
    Js.toLowerCase word = p.
Proof.
  induction p as [|a p IH]; intros r H.
  - now exists EmptyString.
  - destruct r as [|x r]; [discriminate|].
    cbn [Js.toLowerCase Js.startsWith] in H.
    apply andb_true_iff in H. destruct H as [Hx Hr].
    apply Ascii.eqb_eq in Hx. destruct (IH _ Hr) as (word & Hw & Hl).
    exists (String x word). cbn [String.length Js.drop append Js.toLowerCase].
    now rewrite <- Hw, Hl, Hx.
Qed.

Lemma startsWith_lower_intro word : forall p rest,
  Js.toLowerCase word = p ->
  Js.startsWith (Js.toLowerCase (word ++ rest)) p = true /\
  Js.drop (String.length p) (word ++ rest) = rest.
Proof.
  induction word as [|x word IH]; intros p rest <-.
  - now split.
  - cbn [append Js.toLowerCase Js.startsWith String.length Js.drop].
    rewrite Ascii.eqb_refl. now apply IH.
Qed.

Lemma matchesSuffix_spec s : matchesSuffix s = true <-> suffixShape s.
Proof.
  unfold matchesSuffix, suffixShape. split.
  - destruct (trimStart_split s) as (w1 & Hw1 & Hs).
    destruct (Js.trimStart s) as [|c r]; [discriminate|].
    rewrite !andb_true_iff. intros (Hc & Hword & Hrest).
    apply Ascii.eqb_eq in Hc. subst c.
    destruct (trimStart_split r) as (w2 & Hw2 & Hr).
    apply startsWith_lower_elim in Hword. destruct Hword as (word & Hr1 & Hl).
    apply String.eqb_eq, trimStart_blank in Hrest.
    exists w1, w2, word, (Js.drop 8 (Js.trimStart r)).
    repeat split; try assumption.
    rewrite Hs at 1. cbn [append]. f_equal. f_equal.
    rewrite Hr at 1. f_equal. exact Hr1.
  - intros (w1 & w2 & word & w3 & -> & Hw1 & Hw2 & Hw3 & Hl).
    rewrite trimStart_blank_app by assumption.
    cbn [append Js.trimStart]. change (Js.isSpace "|") with false. cbv iota.
    rewrite Ascii.eqb_refl, trimStart_blank_app by assumption.
    assert (Hword : Js.trimStart (word ++ w3) = (word ++ w3)%string).
    { destruct word as [|x word]; [discriminate|].
      cbn [append Js.trimStart]. destruct (Js.isSpace x) eqn:E; [|reflexivity].
      pose proof (isSpace_not_upper _ E) as E'. cbn [Js.toLowerCase] in Hl.
      rewrite E' in Hl. injection Hl as Hx _. subst x.
      vm_compute in E. discriminate E. }
    rewrite Hword.
    destruct (startsWith_lower_intro word _ w3 Hl) as [H1 H2].
    cbn [String.length] in H2. rewrite H1, H2.
    apply trimStart_blank in Hw3. rewrite Hw3. reflexivity.
Qed.

(** The replace takes the first place from which the pattern matches:
    the text it keeps is at the start of whatever else stands before a
    matching end. *)
Lemma stripLinkedInSuffix_leftmost title : forall p q,
  title = (p ++ q)%string -> matchesSuffix q = true ->
  exists p', p = (stripLinkedInSuffix title ++ p')%string.
Proof.
  induction title as [|c title IH]; intros p q Ht Hq.
  - destruct p; [|discriminate]. simpl in Ht. subst q.
    cbn [stripLinkedInSuffix]. rewrite Hq. now exists EmptyString.
  - cbn [stripLinkedInSuffix].
    destruct (matchesSuffix (String c title)) eqn:E; [now exists p|].
    destruct p as [|x p].
    + simpl in Ht. subst q. congruence.
    + injection Ht as <- Ht. destruct (IH _ _ Ht Hq) as (p' & ->).
      now exists p'.
Qed.

Lemma trimEnd_split s :
  exists w, Js.isBlank w = true /\ s = (Js.trimEnd s ++ w)%string.
Proof.
  induction s as [|c s IH].
  - now exists EmptyString.
  - destruct IH as (w & Hw & Hs). cbn [Js.trimEnd].
    destruct (Js.trimEnd s) as [|d t] eqn:E.
    + destruct (Js.isSpace c) eqn:Ec.
      * exists (String c w). cbn [Js.isBlank append] in *.
        rewrite Ec, Hw. split; [reflexivity | now f_equal].
      * exists w. cbn [append] in *. split; [assumption | now f_equal].
    + exists w. split; [assumption|]. cbn [append]. f_equal. exact Hs.
Qed.

Lemma trimEnd_last s : forall init c,
  Js.trimEnd s = (init ++ String c EmptyString)%string -> Js.isSpace c = false.
Proof.
  induction s as [|d s IH]; intros init c.
  - destruct init; discriminate.
  - cbn [Js.trimEnd]. destruct (Js.trimEnd s) as [|e t] eqn:E.
    + destruct (Js.isSpace d) eqn:Ed.
      * destruct init; discriminate.
      * destruct init as [|y [|z init]]; try discriminate.
        intros [= <-]. exact Ed.
    + destruct init as [|y init].
      * discriminate.
      * intros [= _ H]. now apply (IH init c).
Qed.

Lemma trimEnd_head s c r :
  Js.trimEnd s = String c r -> exists r', s = String c r'.
Proof.
  destruct s as [|d s]; [discriminate|]. cbn [Js.trimEnd].
  destruct (Js.trimEnd s); [destruct (Js.isSpace d)|];
    try discriminate; intros [= <- _]; now exists s.
Qed.

Lemma trim_spec s : trimmedOf s (Js.trim s).
Proof.
  unfold trimmedOf, Js.trim. repeat split.
  - destruct (trimStart_split s) as (l & Hl & Hs).
    destruct (trimEnd_split (Js.trimStart s)) as (r & Hr & Ht).
    exists l, r. repeat split; try assumption.
    rewrite Hs at 1. f_equal. exact Ht.
  - intros c rest H. apply trimEnd_head in H. destruct H as (r' & H).
    now apply trimStart_head in H.
  - apply trimEnd_last.
Qed.

End Suffix.

(** * The title parser *)

Section TitleParser.

Lemma splitDashFrom_step cur c r :
  Js.splitDashFrom cur (String c r) =
  if Js.startsWith (String c r) " - "
  then cur :: Js.splitDashFrom EmptyString (Js.drop 2 r)
  else Js.splitDashFrom (Js.snoc cur c) r.
Proof.
  destruct r as [|c2 [|c3 r']];
    cbn [Js.splitDashFrom Js.startsWith Js.drop];
    rewrite ?(Ascii.eqb_sym " " c), ?(Ascii.eqb_sym "-" c2), ?(Ascii.eqb_sym " " c3);
    rewrite ?andb_true_r, ?andb_false_r; try reflexivity.
  rewrite andb_assoc. reflexivity.
Qed.

Lemma snoc_append cur c s :
  (Js.snoc cur c ++ s)%string = (cur ++ String c s)%string.
Proof. unfold Js.snoc. now rewrite append_assoc. Qed.

(** A string without the separator is one segment. *)
Lemma splitDashFrom_whole s : forall cur,
  Js.includes s " - " = false ->
  Js.splitDashFrom cur s = [(cur ++ s)%string].
Proof.
  induction s as [|c r IH]; intros cur H.
  - simpl. now rewrite append_nil_r.
  - cbn [Js.includes] in H. apply orb_false_iff in H. destruct H as [H1 H2].
    rewrite splitDashFrom_step, H1, IH by assumption.
    now rewrite snoc_append.
Qed.

Lemma startsWith_dash_cut c a b :
  Js.startsWith (String c (a ++ " - " ++ b)) " - " =
  Js.startsWith (String c (a ++ " -")) " - ".
Proof.
  destruct a as [|x [|y a]]; cbn; rewrite ?andb_true_r, ?andb_false_r; reflexivity.
Qed.

(** The first segment ends where the separator first occurs. *)
Lemma splitDashFrom_first a : forall cur b,
  Js.includes (a ++ " -") " - " = false ->
  Js.splitDashFrom cur (a ++ " - " ++ b) = (cur ++ a)%string :: Js.splitDash b.
Proof.
  induction a as [|c a IH]; intros cur b H.
  - cbn. now rewrite append_nil_r.
  - cbn [append Js.includes] in H. apply orb_false_iff in H. destruct H as [H1 H2].
    change (String c a ++ " - " ++ b)%string
      with (String c (a ++ " - " ++ b)%string).
    rewrite splitDashFrom_step, startsWith_dash_cut, H1.
    rewrite IH by assumption. now rewrite snoc_append.
Qed.

Lemma splitDashFrom_nonempty s : forall cur, Js.splitDashFrom cur s <> [].
Proof.
  induction s as [|c r IH]; intros cur; [discriminate|].
  rewrite splitDashFrom_step.
  destruct (Js.startsWith (String c r) " - "); [discriminate | apply IH].
Qed.

Lemma join_cons sep p rest :
  rest <> [] -> Js.join sep (p :: rest) = (p ++ sep ++ Js.join sep rest)%string.
Proof. destruct rest; [congruence | reflexivity]. Qed.

Lemma drop_length n s : (String.length (Js.drop n s) <= String.length s)%nat.
Proof.
  revert s. induction n as [|n IH]; intros s; simpl; [lia|].
  destruct s as [|c s]; simpl; [lia|]. specialize (IH s). lia.
Qed.

(** Joining the segments with the separator gives the string back. *)
Lemma join_splitDashFrom n : forall s cur,
  (String.length s <= n)%nat ->
  Js.join " - " (Js.splitDashFrom cur s) = (cur ++ s)%string.
Proof.
  induction n as [|n IH]; intros s cur Hn.
  - destruct s; [|simpl in Hn; lia]. simpl. now rewrite append_nil_r.
  - destruct s as [|c r]; [simpl; now rewrite append_nil_r|].
    rewrite splitDashFrom_step.
    destruct (Js.startsWith (String c r) " - ") eqn:E.
    + rewrite join_cons by apply splitDashFrom_nonempty.
      apply startsWith_spec in E. destruct E as [rest E].
      injection E as -> ->. cbn [append Js.drop].
      rewrite IH; [reflexivity|]. simpl in Hn. simpl. lia.
    + rewrite IH; [apply snoc_append|]. simpl in Hn. lia.
Qed.

Lemma join_splitDash s : Js.join " - " (Js.splitDash s) = s.
Proof. unfold Js.splitDash. now rewrite (join_splitDashFrom (String.length s)). Qed.

Lemma includes_false needle text :
  ~ occursIn needle text -> Js.includes text needle = false.
Proof.
  intros H. destruct (Js.includes text needle) eqn:E; [|reflexivity].
  exfalso. apply H. now apply includes_spec.
Qed.

(** What the regular-expression replace removes is the end of the
    title, and it is empty or matches the pattern. *)
Lemma stripLinkedInSuffix_split title :
  exists suffix,
    title = (stripLinkedInSuffix title ++ suffix)%string /\
    (suffix = EmptyString \/ matchesSuffix suffix = true).
Proof.
  induction title as [|c title IH].
  - exists EmptyString. simpl. destruct (matchesSuffix EmptyString); auto.
  - cbn [stripLinkedInSuffix]. destruct (matchesSuffix (String c title)) eqn:E.
    + exists (String c title). auto.
    + destruct IH as (suffix & H1 & H2). exists suffix. split; [|exact H2].
      simpl. now rewrite <- H1.
Qed.

End TitleParser.

(** C8.  The parser first strips the suffix, from the first place where
    the rest of the title is white space, a bar, white space, the word
    LinkedIn in any case and white space.  Of what is left, the name is
    the text before the first separator, trimmed, or the whole text
    trimmed when it has no separator; the headline is the text after the
    first separator, which is the remaining segments joined by the
    separator again, trimmed, or the empty string when there is no
    separator.  Trimming removes the white space at the two ends.  The
    title A - B | LinkedIn gives name A and headline B. *)
Theorem title_parser :
  forall title : string,
    let cleaned := stripLinkedInSuffix title in
    (exists suffix,
        title = (cleaned ++ suffix)%string /\
        (suffix = EmptyString \/ suffixShape suffix))
    /\ (forall p q, title = (p ++ q)%string -> suffixShape q ->
        exists p', p = (cleaned ++ p')%string)
    /\ (forall s, trimmedOf s (Js.trim s))
    /\ Js.join " - " (Js.splitDash cleaned) = cleaned
    /\ (~ occursIn " - " cleaned ->
        Js.splitDash cleaned = [cleaned]
        /\ extractNameFromTitle title = Js.trim cleaned
        /\ extractHeadlineFromTitle title = EmptyString)
    /\ (forall first rest,
        cleaned = (first ++ " - " ++ rest)%string ->
        ~ occursIn " - " (first ++ " -")%string ->
        Js.splitDash cleaned = first :: Js.splitDash rest
        /\ extractNameFromTitle title = Js.trim first
        /\ extractHeadlineFromTitle title = Js.trim rest)
    /\ extractNameFromTitle "A - B | LinkedIn" = "A"
    /\ extractHeadlineFromTitle "A - B | LinkedIn" = "B".
Proof.
  intros title cleaned.
  split.
  { destruct (stripLinkedInSuffix_split title) as (suffix & H1 & H2).
    exists suffix. split; [exact H1|].
    destruct H2 as [H2|H2]; [now left | right; now apply matchesSuffix_spec]. }
  split.
  { intros p q Ht Hq. apply matchesSuffix_spec in Hq.
    now apply stripLinkedInSuffix_leftmost with q. }
  split; [apply trim_spec|].
  split; [apply join_splitDash|].
  split; [|split; [|split; reflexivity]].
  - intros H. apply includes_false in H.
    assert (Hsplit : Js.splitDash cleaned = [cleaned]).
    { unfold Js.splitDash. now rewrite (splitDashFrom_whole _ _ H). }
    unfold extractNameFromTitle, extractHeadlineFromTitle. fold cleaned.
    rewrite Hsplit. repeat split.
  - intros first rest Hc H. apply includes_false in H.
    assert (Hsplit : Js.splitDash cleaned = first :: Js.splitDash rest).
    { unfold Js.splitDash at 1. now rewrite Hc, (splitDashFrom_first _ _ _ H). }
    unfold extractNameFromTitle, extractHeadlineFromTitle. fold cleaned.
    rewrite Hsplit. split; [reflexivity|]. split; [reflexivity|].
    pose proof (splitDashFrom_nonempty rest EmptyString) as Hne.
    fold (Js.splitDash rest) in Hne.
    destruct (Js.splitDash rest) as [|p ps] eqn:E; [congruence|].
    rewrite <- E, join_splitDash. reflexivity.
Qed.

(** * The CSV serializer *)

Section Csv.

Lemma needsQuoting_spec value : needsQuoting value = true <-> hasSpecial value.
Proof.
  unfold needsQuoting, hasSpecial.
  rewrite !orb_true_iff, !includes_spec. split.
  - intros [[[H|H]|H]|H]; eexists; (split; [|exact H]); simpl; auto.
  - intros (c & Hin & H). simpl in Hin.
    destruct Hin as [<-|[<-|[<-|[<-|[]]]]]; auto.
Qed.

Lemma doubleQuotes_app a b :
  doubleQuotes (a ++ b) = (doubleQuotes a ++ doubleQuotes b)%string.
Proof.
  induction a as [|c a IH]; [reflexivity|].
  cbn [append doubleQuotes]. rewrite IH. now destruct (Ascii.eqb c Js.dquote).
Qed.

Lemma doubleQuotes_length value :
  (String.length value <= String.length (doubleQuotes value))%nat.
Proof.
  induction value as [|c value IH]; simpl; [lia|].
  destruct (Ascii.eqb c Js.dquote); simpl; lia.
Qed.

Lemma append_length (a b : string) :
  String.length (a ++ b) = (String.length a + String.length b)%nat.
Proof. induction a as [|c a IH]; simpl; [reflexivity | now rewrite IH]. Qed.

Lemma quoted_longer value : quoted value <> value.
Proof.
  intros H. apply (f_equal String.length) in H. unfold quoted in H.
  simpl in H. rewrite append_length in H. simpl in H.
  pose proof (doubleQuotes_length value). lia.
Qed.

End Csv.

(** C9.  A field is written between double quotes, with each double quote
    of its own written twice, exactly when its text contains a comma, a
    double quote, a line feed or a carriage return, and is written as it
    is otherwise.  The empty list of leads gives the empty string, with no
    header row; any other list gives the header row and one row per lead,
    the fields of a row escaped and joined by commas, the rows joined by
    line feeds. *)
Theorem csv_escaping :
  (forall value,
      (hasSpecial value <-> escapeCSVField value = quoted value)
      /\ (~ hasSpecial value -> escapeCSVField value = value))
  /\ (forall a b, doubleQuotes (a ++ b) = (doubleQuotes a ++ doubleQuotes b)%string)
  /\ doubleQuotes (String Js.dquote EmptyString)
     = String Js.dquote (String Js.dquote EmptyString)
  /\ (forall c, c <> Js.dquote ->
      doubleQuotes (String c EmptyString) = String c EmptyString)
  /\ leadsToCSV [] = EmptyString
  /\ (forall lead leads,
      leadsToCSV (lead :: leads) =
      Js.join (String Js.LF EmptyString)
        ("Name,Headline,Category,Confidence,Profile URL,Snippet,Source Query,Scraped At"
         :: map (fun l => Js.join "," (map escapeCSVField (csvFields l)))
              (lead :: leads)))
  /\ escapeCSVField ("Smith, " ++ String Js.dquote ("Chef" ++ String Js.dquote EmptyString))
     = String Js.dquote
         ("Smith, " ++ String Js.dquote (String Js.dquote
            ("Chef" ++ String Js.dquote (String Js.dquote
               (String Js.dquote EmptyString))))).
Proof.
  split; [|split; [|split; [|split; [|split; [|split]]]]].
  - intros value. unfold escapeCSVField.
    destruct (needsQuoting value) eqn:E.
    + apply needsQuoting_spec in E. split; [split; auto | tauto].
    + assert (Hn : ~ hasSpecial value).
      { intros H. apply needsQuoting_spec in H. congruence. }
      split; [|reflexivity]. split; [tauto|].
      intros H. symmetry in H. now apply quoted_longer in H.
  - apply doubleQuotes_app.
  - reflexivity.
  - intros c Hc. simpl. destruct (Ascii.eqb_spec c Js.dquote); [contradiction | reflexivity].
  - reflexivity.
  - intros lead leads. reflexivity.
  - vm_compute. reflexivity.
Qed.

(** * Identifiers *)

Section Identifiers.

Lemma showN_inj a b : showN a = showN b -> a = b.
Proof.
  unfold showN. intros H. apply DecimalN.Unsigned.to_uint_inj.
  assert (E : Some (N.to_uint a) = Some (N.to_uint b)).
  { rewrite <- !NilEmpty.usu. now rewrite H. }
  now injection E.
Qed.

Lemma string_of_uint_no_dash d :
  Js.includes (NilEmpty.string_of_uint d) "-" = false.
Proof. induction d; simpl; auto. Qed.

Lemma showN_no_dash n : Js.includes (showN n) "-" = false.
Proof. apply string_of_uint_no_dash. Qed.

(** Two texts cut at their first dash are equal part by part. *)
Lemma cut_at_dash a : forall a' b b',
  Js.includes a "-" = false -> Js.includes a' "-" = false ->
  (a ++ "-" ++ b)%string = (a' ++ "-" ++ b')%string -> a = a' /\ b = b'.
Proof.
  induction a as [|x a IH]; intros [|y a'] b b' Ha Ha' H.
  - injection H as ->. auto.
  - injection H as <- _. cbn in Ha'. discriminate.
  - injection H as -> _. cbn in Ha. discriminate.
  - injection H as -> H.
    cbn [Js.includes] in Ha, Ha'.
    apply orb_false_iff in Ha. apply orb_false_iff in Ha'.
    destruct (IH a' b b') as [-> ->]; tauto.
Qed.

Lemma lead_id_inj n1 s1 r1 c1 l1 n2 s2 r2 c2 l2 :
  id (serpResultToLead n1 s1 r1 c1 l1) = id (serpResultToLead n2 s2 r2 c2 l2) ->
  n1 = n2 /\ position r1 = position r2.
Proof.
  unfold serpResultToLead. cbn [id]. intros H.
  injection H as H.
  apply cut_at_dash in H; try apply showN_no_dash.
  destruct H as [H1 H2]. split; now apply showN_inj.
Qed.

Lemma leadsFrom_ids_NoDup arrivals : forall start queryCategory queryLabel,
  NoDup (map id (leadsFrom start arrivals queryCategory queryLabel)).
Proof.
  induction arrivals as [|a arrivals IH]; intros start qc ql;
    cbn [leadsFrom map].
  - constructor.
  - constructor; [|apply IH].
    rewrite in_map_iff. intros (lead & Hid & Hin).
    destruct (leadsFrom_In _ _ _ _ _ Hin) as (a' & index & _ & Hle & ->).
    apply lead_id_inj in Hid. cbn [position] in Hid. lia.
Qed.







End Identifiers.



(** * The theorems at sample inputs *)

(** [dedup_merge_policy] on two leads with one normalized URL, Low then
    High. *)
Lemma dedup_merge_policy_witness :
  normalizedUrl lowLead = normalizedUrl highLead
  /\ confidence lowLead = Low
  /\ confidence highLead = High
  /\ deduplicateLeads [lowLead; highLead] = [highLead].
Proof.
  assert (Hk : normalizedUrl lowLead = normalizedUrl highLead) by reflexivity.
  split; [exact Hk|]. split; [reflexivity|]. split; [reflexivity|].
  exact (proj1 (proj2 (proj2 (proj2 (dedup_merge_policy [] lowLead))))
           lowLead highLead Hk eq_refl eq_refl).
Defined.

(** [dedup_one_per_url] on the same two leads. *)
Lemma dedup_one_per_url_witness :
  In highLead [lowLead; highLead]
  /\ count_occ string_dec
       (map normalizedUrl (deduplicateLeads [lowLead; highLead]))
       (normalizedUrl highLead) = 1
  /\ Js.toLowerCase (profileUrl lowLead)
     = ("https://linkedin.com/in/janedoe" ++ "/")%string
  /\ normalizedUrl lowLead = "https://linkedin.com/in/janedoe".
Proof.
  assert (Hin : In highLead [lowLead; highLead]) by (simpl; auto).
  assert (Hs : Js.toLowerCase (profileUrl lowLead)
               = ("https://linkedin.com/in/janedoe" ++ "/")%string)
    by reflexivity.
  destruct (dedup_one_per_url [lowLead; highLead])
    as (_ & _ & Hcount & _ & Hslash & _).
  split; [exact Hin|]. split; [exact (Hcount _ Hin)|].
  split; [exact Hs | exact (Hslash _ _ Hs)].
Defined.

(** [scorer_decision_table] on the text of the end-to-end example: the
    top score is 13, so the Medium row applies. *)
Lemma scorer_decision_table_witness :
  let r := categorizeLead (title (janeDoe 0)) (result_snippet (janeDoe 0)) in
  ranked (res_scores r)
    = [(KitchenTenant, 13%Z); (OfficeTenant, 0%Z); (EventClient, 0%Z)]
  /\ (res_category r, res_confidence r) = (KitchenTenant, Medium).
Proof.
  intros r.
  destruct (scorer_decision_table (title (janeDoe 0)) (result_snippet (janeDoe 0)))
    as (top & second & third & Hr & _ & _ & _ & _ & _ & Hmedium & _).
  fold r in Hr, Hmedium.
  assert (Hc : ranked (res_scores r)
               = [(KitchenTenant, 13%Z); (OfficeTenant, 0%Z); (EventClient, 0%Z)])
    by (vm_compute; reflexivity).
  split; [exact Hc|].
  rewrite Hc in Hr. injection Hr as <- <- <-.
  apply Hmedium; cbn [fst snd].
  - lia.
  - intros [H _]. lia.
  - lia.
Defined.

(** [location_bonus] on the same text: it contains baltimore, and the
    leader gets 3. *)
Lemma location_bonus_witness :
  let text := combinedText (title (janeDoe 0)) (result_snippet (janeDoe 0)) in
  let base := keywordScores text in
  let final :=
    res_scores (categorizeLead (title (janeDoe 0)) (result_snippet (janeDoe 0))) in
  (exists loc, In loc LOCATION_KEYWORDS /\ occursIn loc text)
  /\ (exists c, c <> Uncategorized /\ (0 < getScore base c)%Z)
  /\ exists c, leader base c /\
       forall c', getScore final c' =
         if LeadCategory_eqb c' c then (getScore base c' + 3)%Z
         else getScore base c'.
Proof.
  intros text base final.
  assert (Hloc : exists loc, In loc LOCATION_KEYWORDS /\ occursIn loc text).
  { exists "baltimore". split; [simpl; auto|].
    exists "jane doe - owner, ",
      " catering co | linkedin catering owner serving baltimore weddings".
    vm_compute. reflexivity. }
  assert (Hpos : exists c, c <> Uncategorized /\ (0 < getScore base c)%Z).
  { exists KitchenTenant. split; [discriminate | vm_compute; reflexivity]. }
  split; [exact Hloc|]. split; [exact Hpos|].
  exact (proj1 (proj1 (proj2 (location_bonus (title (janeDoe 0))
                                (result_snippet (janeDoe 0)))) Hloc) Hpos).
Defined.

(** [uncategorized_is_low] on a candidate without keywords, from a query
    without category. *)
Lemma uncategorized_is_low_witness :
  let lead :=
    serpResultToLead 1700000000000 EmptyString plainResult Uncategorized
      "Custom query" in
  category lead = Uncategorized /\ confidence lead = Low.
Proof.
  intros lead.
  assert (Hc : category lead = Uncategorized) by (vm_compute; reflexivity).
  split; [exact Hc|].
  exact (proj1 (proj2 uncategorized_is_low) 1700000000000%N EmptyString
           plainResult Uncategorized "Custom query" Hc).
Defined.


(** [title_parser] on the title of the end-to-end example. *)
Lemma title_parser_witness :
  let t := title (janeDoe 0) in
  stripLinkedInSuffix t = ("Jane Doe" ++ " - " ++ "Owner, Baltimore Catering Co")%string
  /\ ~ occursIn " - " ("Jane Doe" ++ " -")%string
  /\ extractNameFromTitle t = Js.trim "Jane Doe"
  /\ extractHeadlineFromTitle t = Js.trim "Owner, Baltimore Catering Co".
Proof.
  intros t.
  assert (Hc : stripLinkedInSuffix t
               = ("Jane Doe" ++ " - " ++ "Owner, Baltimore Catering Co")%string)
    by (vm_compute; reflexivity).
  assert (Hn : ~ occursIn " - " ("Jane Doe" ++ " -")%string).
  { intros H. apply includes_spec in H. vm_compute in H. discriminate H. }
  destruct (title_parser t) as (_ & _ & _ & _ & _ & Hfirst & _).
  destruct (Hfirst _ _ Hc Hn) as (_ & Hname & Hheadline).
  split; [exact Hc|]. split; [exact Hn|]. split; assumption.
Defined.

(** [csv_escaping] on a field with a comma. *)
Lemma csv_escaping_witness :
  hasSpecial "Smith, Chef"
  /\ escapeCSVField "Smith, Chef" = quoted "Smith, Chef".
Proof.
  assert (H : hasSpecial "Smith, Chef").
  { exists ","%char. split; [simpl; auto|]. exists "Smith", " Chef". reflexivity. }
  split; [exact H|].
  exact (proj1 (proj1 (proj1 csv_escaping "Smith, Chef")) H).
Defined.

(** * The model on small inputs *)

Example split_overlapping_separators :
  Js.splitDash "a - - b - c" = ["a"; "- b"; "c"].
Proof. reflexivity. Qed.

Example split_empty : Js.splitDash EmptyString = [EmptyString].
Proof. reflexivity. Qed.

Example suffix_any_case :
  stripLinkedInSuffix "Ann Lee - Chef  |  linkedIN  " = "Ann Lee - Chef".
Proof. reflexivity. Qed.

Example suffix_only_at_the_end :
  stripLinkedInSuffix "Ann | LinkedIn - Chef" = "Ann | LinkedIn - Chef".
Proof. reflexivity. Qed.

Example title_without_separator :
  (extractNameFromTitle "  Ann Lee | LinkedIn",
   extractHeadlineFromTitle "  Ann Lee | LinkedIn") = ("Ann Lee", EmptyString).
Proof. reflexivity. Qed.

Example three_groups_and_a_region :
  let r := categorizeLead "Sam - Caterer" "food truck, ghost kitchen, Maryland" in
  (res_category r, res_confidence r, getScore (res_scores r) KitchenTenant)
  = (KitchenTenant, High, 33%Z).
Proof. vm_compute. reflexivity. Qed.

Example no_keyword_no_region :
  let r := categorizeLead "John Smith - Accountant" "numbers and ledgers" in
  (res_category r, res_confidence r) = (Uncategorized, Low).
Proof. vm_compute. reflexivity. Qed.

Example region_without_keyword_adds_nothing :
  res_scores (categorizeLead "John Smith" "accountant in Baltimore") = zeroScores.
Proof. vm_compute. reflexivity. Qed.

Example tie_goes_to_first_declared :
  let r := categorizeLead "Kim" "caterer and event planner" in
  (res_category r, res_confidence r, res_scores r)
  = (KitchenTenant, Medium, mkScores 10 0 10 0).
Proof. vm_compute. reflexivity. Qed.

Example same_url_in_two_spellings :
  deduplicateLeads [sampleLead "x/" Medium; sampleLead "X" Medium]
  = [sampleLead "x/" Medium].
Proof. reflexivity. Qed.

Example replacement_keeps_the_place :
  deduplicateLeads
    [sampleLead "a" Low; sampleLead "b" Medium; sampleLead "A/" High]
  = [sampleLead "A/" High; sampleLead "b" Medium].
Proof. reflexivity. Qed.

Example only_one_slash_goes :
  normalizedUrl (sampleLead "HTTPS://LinkedIn.com/in/Ann//" Low)
  = "https://linkedin.com/in/ann/".
Proof. reflexivity. Qed.

Example sample_batch_ids :
  map id (allLeads sampleBatch)
  = ["lead-1700000000000-0"; "lead-1700000000000-1"; "lead-1700000000731-0"].
Proof. vm_compute. reflexivity. Qed.

Example csv_of_one_lead :
  leadsToCSV [sampleLead "https://linkedin.com/in/jane" High]
  = ("Name,Headline,Category,Confidence,Profile URL,Snippet,Source Query,Scraped At"
     ++ String Js.LF
          "Jane Doe,Owner,Kitchen Tenant,High,https://linkedin.com/in/jane,catering,Catering Owners,2024-01-01T00:00:00.000Z")%string.
Proof. vm_compute. reflexivity. Qed.

(** * More about the de-duplicator *)

Section DedupMore.

Lemma keyed_entries m :
  keyed m -> map (fun lead => (normalizedUrl lead, lead)) (map_values m) = m.
Proof.
  unfold map_values. induction m as [|[k v] m IH]; intros Hm; [reflexivity|].
  cbn [map snd]. rewrite IH.
  - f_equal. f_equal. symmetry. apply Hm. now left.
  - intros k0 v0 H. apply Hm. now right.
Qed.

(** The loop run on the leads of a map that it built gives that map
    again. *)
Lemma dedupSeen_values m :
  keyed m -> NoDup (map_keys m) -> dedupSeen (map_values m) = m.
Proof.
  intros Hk Hnd. unfold dedupSeen. rewrite fold_dedupStep_fresh.
  - simpl. now apply keyed_entries.
  - simpl. now rewrite <- keyed_keys.
Qed.

Lemma dedupSeen_app a b :
  dedupSeen (a ++ b) = fold_left dedupStep b (dedupSeen a).
Proof. unfold dedupSeen. apply fold_left_app. Qed.

Lemma dedupSeen_keys_NoDup leads : NoDup (map_keys (dedupSeen leads)).
Proof. rewrite dedupSeen_keys. apply firstSeen_NoDup. Qed.

Lemma firstSeen_length keys : length (firstSeen keys) <= length keys.
Proof.
  induction keys as [|k keys IH]; simpl; [lia|].
  pose proof (filter_length_le (fun k' => negb (String.eqb k' k)) (firstSeen keys)).
  lia.
Qed.

End DedupMore.

(** X1.  Leads can be de-duplicated as they come: de-duplicating a first
    list, putting more leads behind the result and de-duplicating again
    gives what de-duplicating the two lists at once gives. *)
Theorem dedup_incremental :
  forall first more : list Lead,
    deduplicateLeads (deduplicateLeads first ++ more)
    = deduplicateLeads (first ++ more).
Proof.
  intros first more. unfold deduplicateLeads. f_equal.
  rewrite !dedupSeen_app. f_equal.
  apply dedupSeen_values; [apply dedupSeen_keyed | apply dedupSeen_keys_NoDup].
Qed.

(** X2.  The de-duplicator never returns more leads than it is given, and
    it returns its input unchanged exactly when the normalized URLs of
    the input are pairwise different. *)
Theorem dedup_unchanged_iff_distinct :
  forall leads : list Lead,
    length (deduplicateLeads leads) <= length leads
    /\ (deduplicateLeads leads = leads <-> NoDup (map normalizedUrl leads)).
Proof.
  intros leads. split.
  - rewrite <- (length_map normalizedUrl (deduplicateLeads leads)).
    rewrite deduplicateLeads_keys, <- (length_map normalizedUrl leads).
    apply firstSeen_length.
  - split.
    + intros H. rewrite <- H, deduplicateLeads_keys. apply firstSeen_NoDup.
    + apply deduplicateLeads_distinct.
Qed.

Lemma deduplicateLeads_dominates leads lead :
  In lead leads ->
  exists kept,
    In kept (deduplicateLeads leads)
    /\ normalizedUrl kept = normalizedUrl lead
    /\ (confidenceOrder (confidence lead)
        <= confidenceOrder (confidence kept))%Z.
Proof.
  intros Hin.
  assert (Hk : In (normalizedUrl lead) (map normalizedUrl (deduplicateLeads leads))).
  { rewrite deduplicateLeads_keys. apply firstSeen_In. now apply in_map. }
  apply in_map_iff in Hk. destruct Hk as (kept & Hkey & Hkept).
  exists kept. split; [exact Hkept|]. split; [exact Hkey|].
  pose proof (deduplicateLeads_stored _ _ Hkept) as Hs.
  destruct (dedupSeen_best _ _ _ Hs) as (before & after & Hl & _ & Hb & Ha).
  rewrite Hl in Hin. apply in_app_or in Hin. destruct Hin as [H|[H|H]].
  - specialize (Hb _ H (eq_sym Hkey)). lia.
  - subst. lia.
  - exact (Ha _ H (eq_sym Hkey)).
Qed.

(** X3.  No lead is lost to a worse one: for every lead of the input the
    output has a lead with the same normalized URL and a confidence that
    is at least as high. *)
Theorem dedup_keeps_best_confidence :
  forall (leads : list Lead) (lead : Lead),
    In lead leads ->
    exists kept,
      In kept (deduplicateLeads leads)
      /\ normalizedUrl kept = normalizedUrl lead
      /\ (confidenceOrder (confidence lead)
          <= confidenceOrder (confidence kept))%Z.
Proof. intros leads lead. apply deduplicateLeads_dominates. Qed.

Lemma dedup_keeps_best_confidence_witness :
  In lowLead [lowLead; highLead]
  /\ exists kept,
      In kept (deduplicateLeads [lowLead; highLead])
      /\ normalizedUrl kept = normalizedUrl lowLead
      /\ (confidenceOrder (confidence lowLead)
          <= confidenceOrder (confidence kept))%Z.
Proof.
  assert (H : In lowLead [lowLead; highLead]) by (simpl; auto).
  split; [exact H|]. exact (dedup_keeps_best_confidence _ _ H).
Defined.

(** * The page state *)

Section PageMerge.

Lemma mergeStep_fresh m lead :
  memKey (normalizedUrl lead) (map_keys m) = false ->
  mergeStep m lead = m ++ [entryOf lead].
Proof.
  intros H. apply map_get_None in H. unfold mergeStep. rewrite H.
  now apply map_set_fresh.
Qed.

Lemma mergeStep_seen m lead :
  memKey (normalizedUrl lead) (map_keys m) = true -> mergeStep m lead = m.
Proof.
  intros H. unfold mergeStep.
  destruct (map_get m (normalizedUrl lead)) eqn:E; [reflexivity|].
  apply map_get_None in E. congruence.
Qed.

Lemma filter_skip_lead (P : Lead -> bool) k l :
  (forall x, P x = true -> String.eqb (normalizedUrl x) k = false) ->
  filter P (filter (fun other => negb (String.eqb (normalizedUrl other) k)) l)
  = filter P l.
Proof.
  intros HP. induction l as [|x l IH]; simpl; [reflexivity|].
  destruct (P x) eqn:Px.
  - rewrite (HP _ Px). simpl. now rewrite Px, IH.
  - destruct (String.eqb (normalizedUrl x) k); simpl; [exact IH | now rewrite Px, IH].
Qed.

Lemma filter_split_lead keys k l :
  filter (fun x => negb (memKey (normalizedUrl x) (keys ++ [k]))) l =
  filter (fun x => negb (memKey (normalizedUrl x) keys))
    (filter (fun other => negb (String.eqb (normalizedUrl other) k)) l).
Proof.
  induction l as [|x l IH]; simpl; [reflexivity|].
  rewrite memKey_app. simpl. rewrite orb_false_r.
  destruct (String.eqb (normalizedUrl x) k); simpl.
  - rewrite orb_true_r. simpl. exact IH.
  - rewrite orb_false_r.
    destruct (memKey (normalizedUrl x) keys); simpl; now rewrite IH.
Qed.

(** The map after the loop, from any starting map. *)
Lemma fold_mergeStep leads : forall m,
  fold_left mergeStep leads m =
  m ++ map entryOf
         (filter (fun x => negb (memKey (normalizedUrl x) (map_keys m)))
            (firstLeads leads)).
Proof.
  induction leads as [|lead leads IH]; intros m; simpl.
  - now rewrite app_nil_r.
  - rewrite IH.
    destruct (memKey (normalizedUrl lead) (map_keys m)) eqn:E; simpl.
    + rewrite (mergeStep_seen _ _ E). f_equal. f_equal.
      symmetry. apply filter_skip_lead.
      intros x Hx. destruct (String.eqb_spec (normalizedUrl x) (normalizedUrl lead)) as [Heq|];
        [|reflexivity].
      rewrite Heq, E in Hx. discriminate.
    + rewrite (mergeStep_fresh _ _ E), <- app_assoc. simpl. f_equal. f_equal. f_equal.
      unfold map_keys. rewrite map_app. simpl. apply filter_split_lead.
Qed.

Lemma map_values_entries leads : map_values (map entryOf leads) = leads.
Proof. unfold map_values. rewrite map_map. simpl. apply map_id. Qed.

Lemma map_keys_entries leads :
  map_keys (map entryOf leads) = map normalizedUrl leads.
Proof. unfold map_keys. now rewrite map_map. Qed.

Lemma filter_all_in {A} (P : A -> bool) l :
  (forall x, In x l -> P x = true) -> filter P l = l.
Proof.
  induction l as [|x l IH]; intros H; simpl; [reflexivity|].
  rewrite (H x) by now left. f_equal. apply IH. intros y Hy. apply H. now right.
Qed.

Lemma filter_all {A} (P : A -> bool) l : (forall x, P x = true) -> filter P l = l.
Proof. intros H. apply filter_all_in. auto. Qed.

Lemma handleLeadsScraped_firstLeads prev newLeads :
  handleLeadsScraped prev newLeads = firstLeads (prev ++ newLeads).
Proof.
  unfold handleLeadsScraped. rewrite fold_mergeStep. simpl.
  rewrite map_values_entries. now apply filter_all.
Qed.

Lemma firstLeads_keys leads :
  map normalizedUrl (firstLeads leads) = firstSeen (map normalizedUrl leads).
Proof.
  induction leads as [|lead leads IH]; simpl; [reflexivity|].
  f_equal. rewrite <- IH. clear IH.
  induction (firstLeads leads) as [|x l IH]; simpl; [reflexivity|].
  destruct (String.eqb (normalizedUrl x) (normalizedUrl lead)); simpl; now rewrite IH.
Qed.

Lemma firstLeads_distinct leads :
  NoDup (map normalizedUrl leads) -> firstLeads leads = leads.
Proof.
  induction leads as [|lead leads IH]; simpl; [reflexivity|].
  intros H. inversion H as [|? ? Hx Hl]; subst. rewrite (IH Hl). f_equal.
  apply filter_all_in. intros x Hin.
  destruct (String.eqb_spec (normalizedUrl x) (normalizedUrl lead)) as [E|]; [|reflexivity].
  exfalso. apply Hx. rewrite <- E. now apply in_map.
Qed.

(** A lead of [firstLeads] stands in the list before every other lead
    with its normalized URL. *)
Lemma firstLeads_first leads : forall v,
  In v (firstLeads leads) ->
  exists before after,
    leads = before ++ v :: after /\
    forall x, In x before -> normalizedUrl x <> normalizedUrl v.
Proof.
  induction leads as [|lead leads IH]; intros v; simpl; [intros []|].
  intros [<-|H].
  - exists [], leads. split; [reflexivity | intros x []].
  - apply filter_In in H. destruct H as [H Hne].
    destruct (IH _ H) as (before & after & -> & Hb).
    exists (lead :: before), after. split; [reflexivity|].
    intros x [<-|Hx]; [|now apply Hb].
    intros E. rewrite E, String.eqb_refl in Hne. discriminate.
Qed.

End PageMerge.

(** X4.  The page keeps, for every normalized URL, the first lead that
    has it, in the order the URLs are first seen: no two leads of the new
    state have one normalized URL, and every lead of the new state stands,
    in the old state followed by the new leads, before every other lead
    with its URL. *)
Theorem page_merge_first_seen :
  forall prev newLeads : list Lead,
    let result := handleLeadsScraped prev newLeads in
    map normalizedUrl result = firstSeen (map normalizedUrl (prev ++ newLeads))
    /\ NoDup (map normalizedUrl result)
    /\ (forall v, In v result ->
        exists before after,
          prev ++ newLeads = before ++ v :: after /\
          forall x, In x before -> normalizedUrl x <> normalizedUrl v).
Proof.
  intros prev newLeads result. subst result.
  rewrite handleLeadsScraped_firstLeads, firstLeads_keys.
  split; [reflexivity|]. split; [apply firstSeen_NoDup | apply firstLeads_first].
Qed.

Lemma page_merge_first_seen_witness :
  In lowLead (handleLeadsScraped [lowLead] [highLead])
  /\ exists before after,
       [lowLead] ++ [highLead] = before ++ lowLead :: after /\
       forall x, In x before -> normalizedUrl x <> normalizedUrl lowLead.
Proof.
  assert (H : In lowLead (handleLeadsScraped [lowLead] [highLead]))
    by (vm_compute; auto).
  split; [exact H|].
  exact (proj2 (proj2 (page_merge_first_seen [lowLead] [highLead])) lowLead H).
Defined.

(** X5.  When the leads on the page have pairwise different normalized
    URLs, as they have after every update, an update keeps them all, in
    their places, and puts behind them the first-seen new leads whose URL
    is not on the page yet: a lead on the page is never replaced. *)
Theorem page_merge_extends :
  forall prev newLeads : list Lead,
    NoDup (map normalizedUrl prev) ->
    handleLeadsScraped prev newLeads
    = prev ++ filter (freshFor prev) (handleLeadsScraped [] newLeads).
Proof.
  intros prev newLeads Hnd.
  rewrite (handleLeadsScraped_firstLeads [] newLeads). simpl.
  unfold handleLeadsScraped. rewrite fold_left_app.
  rewrite (fold_mergeStep prev []). simpl.
  rewrite (firstLeads_distinct _ Hnd), (filter_all _ prev) by reflexivity.
  rewrite fold_mergeStep, map_keys_entries.
  unfold map_values. rewrite map_app. fold (map_values (map entryOf prev)).
  rewrite map_values_entries. f_equal.
  fold (map_values (map entryOf
          (filter (fun x => negb (memKey (normalizedUrl x) (map normalizedUrl prev)))
             (firstLeads newLeads)))).
  now rewrite map_values_entries.
Qed.

Lemma page_merge_extends_witness :
  NoDup (map normalizedUrl [lowLead])
  /\ handleLeadsScraped [lowLead] [highLead; sampleLead "b" High]
     = [lowLead] ++ filter (freshFor [lowLead])
                      (handleLeadsScraped [] [highLead; sampleLead "b" High]).
Proof.
  assert (H : NoDup (map normalizedUrl [lowLead]))
    by (repeat constructor; simpl; tauto).
  split; [exact H|]. exact (page_merge_extends _ _ H).
Defined.

(** X6.  The page and the batch de-duplicator agree on the URLs and on
    their order; the page only keeps the first lead of a URL, where the
    de-duplicator keeps one whose confidence is at least as high. *)
Theorem page_merge_vs_dedup :
  forall prev newLeads : list Lead,
    map normalizedUrl (handleLeadsScraped prev newLeads)
    = map normalizedUrl (deduplicateLeads (prev ++ newLeads))
    /\ (forall v, In v (handleLeadsScraped prev newLeads) ->
        exists kept,
          In kept (deduplicateLeads (prev ++ newLeads))
          /\ normalizedUrl kept = normalizedUrl v
          /\ (confidenceOrder (confidence v)
              <= confidenceOrder (confidence kept))%Z).
Proof.
  intros prev newLeads. rewrite handleLeadsScraped_firstLeads. split.
  - now rewrite firstLeads_keys, deduplicateLeads_keys.
  - intros v Hv. apply deduplicateLeads_dominates.
    destruct (firstLeads_first _ _ Hv) as (before & after & -> & _).
    apply in_or_app. right. now left.
Qed.

Lemma page_merge_vs_dedup_witness :
  In lowLead (handleLeadsScraped [lowLead] [highLead])
  /\ exists kept,
       In kept (deduplicateLeads ([lowLead] ++ [highLead]))
       /\ normalizedUrl kept = normalizedUrl lowLead
       /\ (confidenceOrder (confidence lowLead)
           <= confidenceOrder (confidence kept))%Z.
Proof.
  assert (H : In lowLead (handleLeadsScraped [lowLead] [highLead]))
    by (vm_compute; auto).
  split; [exact H|].
  exact (proj2 (page_merge_vs_dedup [lowLead] [highLead]) lowLead H).
Defined.

(** * More about the category scorer *)

Section ScoreSums.

Lemma toLowerChar_idem c : Js.toLowerChar (Js.toLowerChar c) = Js.toLowerChar c.
Proof. destruct c as [[] [] [] [] [] [] [] []]; reflexivity. Qed.

Lemma toLowerCase_idem s : Js.toLowerCase (Js.toLowerCase s) = Js.toLowerCase s.
Proof.
  induction s as [|c s IH]; simpl; [reflexivity|].
  now rewrite toLowerChar_idem, IH.
Qed.

Lemma categorizeLead_text t s t' s' :
  combinedText t s = combinedText t' s' ->
  categorizeLead t s = categorizeLead t' s'.
Proof. intros H. unfold categorizeLead, finalScores. now rewrite H. Qed.

Lemma combinedText_lower t s :
  combinedText t s = (Js.toLowerCase t ++ " " ++ Js.toLowerCase s)%string.
Proof. unfold combinedText. now rewrite !toLowerCase_app. Qed.

Lemma scoreGroup_get text category group : forall scores c,
  getScore (scoreGroup text category scores group) c =
  (getScore scores c +
   if LeadCategory_eqb c category
   then snd group * keywordHits text (fst group) else 0)%Z.
Proof.
  destruct group as [keywords weight]. unfold scoreGroup, keywordHits.
  cbn [fst snd].
  induction keywords as [|kw keywords IH]; intros scores c.
  - simpl. destruct (LeadCategory_eqb c category); lia.
  - cbn [fold_left filter]. rewrite IH.
    destruct (Js.includes text (Js.toLowerCase kw)).
    + rewrite getScore_addScore. cbn [length].
      destruct (LeadCategory_eqb c category); lia.
    + reflexivity.
Qed.

Lemma fold_scoreGroup_get text category groups : forall scores c,
  getScore (fold_left (scoreGroup text category) groups scores) c =
  (getScore scores c +
   if LeadCategory_eqb c category then groupsScore text groups else 0)%Z.
Proof.
  unfold groupsScore.
  induction groups as [|g groups IH]; intros scores c.
  - simpl. destruct (LeadCategory_eqb c category); lia.
  - cbn [fold_left map fold_right]. rewrite IH, scoreGroup_get.
    destruct (LeadCategory_eqb c category); lia.
Qed.

Lemma LeadCategory_eqb_sym a b : LeadCategory_eqb a b = LeadCategory_eqb b a.
Proof. destruct a, b; reflexivity. Qed.

Lemma keywordScores_tableScore text c :
  getScore (keywordScores text) c = tableScore text c.
Proof.
  unfold keywordScores, tableScore.
  assert (H : forall table scores,
    getScore
      (fold_left
         (fun acc entry =>
            let '(category, keywordGroups) := entry in
            if LeadCategory_eqb category Uncategorized then acc
            else fold_left (scoreGroup text category) keywordGroups acc)
         table scores) c =
    (getScore scores c +
     fold_right Z.add 0
       (map (fun e =>
               if LeadCategory_eqb (fst e) c
                  && negb (LeadCategory_eqb (fst e) Uncategorized)
               then groupsScore text (snd e) else 0) table))%Z).
  { induction table as [|[category groups] table IH]; intros scores.
    - simpl. lia.
    - cbn [fold_left map fold_right fst snd]. rewrite IH.
      destruct (LeadCategory_eqb category Uncategorized) eqn:E.
      + rewrite andb_false_r. lia.
      + rewrite fold_scoreGroup_get, andb_true_r, (LeadCategory_eqb_sym c).
        lia. }
  rewrite H. destruct c; reflexivity.
Qed.

Lemma keywordHits_zero text keywords :
  keywordHits text keywords = 0%Z <->
  forall kw, In kw keywords -> Js.includes text (Js.toLowerCase kw) = false.
Proof.
  unfold keywordHits. induction keywords as [|kw keywords IH]; simpl.
  - split; [intros _ kw [] | reflexivity].
  - destruct (Js.includes text (Js.toLowerCase kw)) eqn:E; simpl.
    + split; [lia|]. intros H. specialize (H kw (or_introl eq_refl)). congruence.
    + rewrite IH. split.
      * intros H k [<-|Hk]; auto.
      * intros H k Hk. apply H. now right.
Qed.

Lemma keywordHits_nonneg text keywords : (0 <= keywordHits text keywords)%Z.
Proof. unfold keywordHits. lia. Qed.

Lemma groupsScore_zero text groups :
  Forall (fun g : list string * Z => (0 < snd g)%Z) groups ->
  (0 <= groupsScore text groups)%Z /\
  (groupsScore text groups = 0%Z <->
   forall g kw, In g groups -> In kw (fst g) ->
     Js.includes text (Js.toLowerCase kw) = false).
Proof.
  unfold groupsScore. induction 1 as [|g groups Hw Hg IH]; simpl.
  - split; [lia|]. split; [intros _ g kw [] | reflexivity].
  - destruct IH as [IH0 IH].
    pose proof (keywordHits_nonneg text (fst g)) as Hh.
    split; [nia|]. split.
    + intros H0.
      assert (H1 : keywordHits text (fst g) = 0%Z) by nia.
      assert (H2 : fold_right Z.add 0%Z
                     (map (fun g0 => (snd g0 * keywordHits text (fst g0))%Z) groups)
                   = 0%Z) by nia.
      intros g0 kw [<-|Hin] Hkw.
      * now apply (proj1 (keywordHits_zero _ _) H1).
      * now apply (proj1 IH H2 g0 kw).
    + intros H0.
      assert (H1 : keywordHits text (fst g) = 0%Z).
      { apply keywordHits_zero. intros kw Hkw. apply (H0 g kw); auto. }
      assert (H2 : fold_right Z.add 0%Z
                     (map (fun g0 => (snd g0 * keywordHits text (fst g0))%Z) groups)
                   = 0%Z).
      { apply IH. intros g0 kw Hin Hkw. apply (H0 g0 kw); auto. }
      rewrite H1, H2. lia.
Qed.

Lemma CATEGORY_KEYWORDS_positive :
  Forall (fun e => Forall (fun g : list string * Z => (0 < snd g)%Z) (snd e))
    CATEGORY_KEYWORDS.
Proof. unfold CATEGORY_KEYWORDS. repeat constructor. Qed.

(** A real category scores 0 on keywords exactly when no keyword of its
    groups occurs in the text. *)
Lemma keywordScores_zero text c :
  c <> Uncategorized ->
  (getScore (keywordScores text) c = 0%Z <->
   forall groups g kw,
     In (c, groups) CATEGORY_KEYWORDS -> In g groups -> In kw (fst g) ->
     Js.includes text (Js.toLowerCase kw) = false).
Proof.
  intros Hc. rewrite keywordScores_tableScore. unfold tableScore.
  pose proof CATEGORY_KEYWORDS_positive as Hpos.
  induction Hpos as [|[category groups] table Hg Ht IH].
  - simpl. split; [intros _ ? ? ? [] | reflexivity].
  - cbn [map fold_right fst snd].
    destruct (groupsScore_zero text groups Hg) as [Hn Hz].
    assert (Hrest : (0 <= fold_right Z.add 0
              (map (fun e =>
                      if LeadCategory_eqb (fst e) c
                         && negb (LeadCategory_eqb (fst e) Uncategorized)
                      then groupsScore text (snd e) else 0) table))%Z).
    { clear IH. induction Ht as [|[c1 g1] t1 H1 Ht1 IH1]; simpl; [lia|].
      destruct (groupsScore_zero text g1 H1) as [Hn1 _].
      destruct (_ && _); lia. }
    destruct (LeadCategory_eqb category c) eqn:E.
    + apply LeadCategory_eqb_eq in E. subst category.
      assert (Hu : LeadCategory_eqb c Uncategorized = false).
      { destruct c; try reflexivity. congruence. }
      rewrite Hu. cbn [negb andb]. split.
      * intros H0 groups0 g kw [[= <-]|Hin] Hgin Hkw.
        -- refine (proj1 Hz _ g kw Hgin Hkw). lia.
        -- refine (proj1 IH _ groups0 g kw Hin Hgin Hkw). lia.
      * intros H0.
        assert (H1 : groupsScore text groups = 0%Z).
        { apply Hz. intros g kw Hgin Hkw. apply (H0 groups g kw); auto. now left. }
        assert (H2 : fold_right Z.add 0%Z
              (map (fun e =>
                      if LeadCategory_eqb (fst e) c
                         && negb (LeadCategory_eqb (fst e) Uncategorized)
                      then groupsScore text (snd e) else 0%Z) table) = 0%Z).
        { apply IH. intros groups0 g kw Hin. apply H0. now right. }
        lia.
    + cbn [andb]. rewrite Z.add_0_l, IH. split.
      * intros H0 groups0 g kw [[= -> _]|Hin].
        -- destruct c; discriminate.
        -- now apply H0.
      * intros H0 groups0 g kw Hin. apply H0. now right.
Qed.

Lemma tableLowerCase_true : tableLowerCase = true.
Proof. vm_compute. reflexivity. Qed.

Lemma table_keyword_lower c groups g kw :
  In (c, groups) CATEGORY_KEYWORDS -> In g groups -> In kw (fst g) ->
  Js.toLowerCase kw = kw.
Proof.
  intros H1 H2 H3. pose proof tableLowerCase_true as H. unfold tableLowerCase in H.
  rewrite forallb_forall in H. specialize (H _ H1). cbn [snd] in H.
  rewrite forallb_forall in H. specialize (H _ H2).
  rewrite forallb_forall in H. specialize (H _ H3).
  now apply String.eqb_eq in H.
Qed.

(** All the real final scores are 0 exactly when all the real keyword
    scores are. *)
Lemma locationBoost_zero text base :
  (forall c, c <> Uncategorized -> getScore (locationBoost text base) c = 0%Z)
  <-> (forall c, c <> Uncategorized -> getScore base c = 0%Z).
Proof.
  unfold locationBoost. destruct (hasLocationRelevance text); [|tauto].
  destruct (ranked_head base) as (c0 & rest & Hr & Hc0 & _). rewrite Hr. cbn [fst].
  destruct (Z.ltb_spec 0 (getScore base c0)) as [Hpos|Hle]; [|tauto].
  split; intros H.
  - specialize (H c0 Hc0). rewrite getScore_addScore in H.
    replace (LeadCategory_eqb c0 c0) with true in H by (now destruct c0). lia.
  - specialize (H c0 Hc0). lia.
Qed.

Lemma locationBoost_nonneg text base :
  nonneg base -> nonneg (locationBoost text base).
Proof.
  intros Hb. unfold locationBoost. destruct (hasLocationRelevance text); [|exact Hb].
  destruct (ranked base) as [|m rest]; [exact Hb|].
  destruct (0 <? getScore base (fst m))%Z; [|exact Hb].
  intros c. rewrite getScore_addScore. specialize (Hb c).
  destruct (LeadCategory_eqb c (fst m)); lia.
Qed.

Lemma categorizeLead_uncategorized_iff title snippet :
  res_category (categorizeLead title snippet) = Uncategorized <->
  (forall c, c <> Uncategorized ->
     getScore (finalScores title snippet) c = 0%Z).
Proof.
  destruct (ranked_three (finalScores title snippet))
    as (top & second & third & Hr).
  pose proof (categorizeLead_decide _ _ _ _ _ Hr) as Hd.
  destruct (ranked_head (finalScores title snippet))
    as (c0 & rest & Hr0 & Hc0 & Hmax & _).
  rewrite Hr in Hr0. injection Hr0 as -> _. cbn [fst snd] in Hd.
  pose proof (locationBoost_nonneg (combinedText title snippet) _
                (keywordScores_nonneg (combinedText title snippet))) as Hnn.
  fold (finalScores title snippet) in Hnn.
  unfold decide in Hd. split.
  - intros Hu c Hc.
    destruct (Z.eqb_spec (getScore (finalScores title snippet) c0) 0) as [E|E].
    + specialize (Hmax c Hc). specialize (Hnn c). lia.
    + exfalso. destruct (_ && _); [|destruct (8 <=? _)%Z];
        injection Hd as Hcat _; congruence.
  - intros Hz. rewrite (Hz c0 Hc0) in Hd. cbn in Hd. now injection Hd.
Qed.

End ScoreSums.

(** X7.  The scorer does not look at the case of letters: titles and
    snippets that are equal in lower case get the same category,
    confidence and scores; so a text and its lower-case form do. *)
Theorem scorer_case_insensitive :
  forall title snippet title' snippet' : string,
    Js.toLowerCase title = Js.toLowerCase title' ->
    Js.toLowerCase snippet = Js.toLowerCase snippet' ->
    categorizeLead title snippet = categorizeLead title' snippet'
    /\ categorizeLead (Js.toLowerCase title) (Js.toLowerCase snippet)
       = categorizeLead title snippet.
Proof.
  intros t s t' s' Ht Hs. split; apply categorizeLead_text;
    rewrite !combinedText_lower.
  - now rewrite Ht, Hs.
  - now rewrite !toLowerCase_idem.
Qed.

Lemma scorer_case_insensitive_witness :
  Js.toLowerCase "Sam - CATERER" = Js.toLowerCase "sam - Caterer"
  /\ Js.toLowerCase "Food Truck" = Js.toLowerCase "food truck"
  /\ categorizeLead "Sam - CATERER" "Food Truck"
     = categorizeLead "sam - Caterer" "food truck".
Proof.
  split; [reflexivity|]. split; [reflexivity|].
  exact (proj1 (scorer_case_insensitive "Sam - CATERER" "Food Truck"
                  "sam - Caterer" "food truck" eq_refl eq_refl)).
Defined.

(** X8.  Before the location bonus the score of a category is the sum,
    over the keyword groups of the category, of the weight of the group
    times the number of its keywords that occur in the text; the score of
    Uncategorized is 0 and stays 0 after the bonus. *)
Theorem score_is_weighted_hit_count :
  forall (title snippet : string) (c : LeadCategory),
    let text := combinedText title snippet in
    getScore (keywordScores text) c = tableScore text c
    /\ getScore (keywordScores text) Uncategorized = 0%Z
    /\ getScore (res_scores (categorizeLead title snippet)) Uncategorized = 0%Z.
Proof.
  intros title snippet c text.
  split; [apply keywordScores_tableScore|].
  assert (H0 : getScore (keywordScores text) Uncategorized = 0%Z)
    by (rewrite keywordScores_tableScore; reflexivity).
  split; [exact H0|].
  rewrite categorizeLead_scores. unfold finalScores. fold text.
  unfold locationBoost. destruct (hasLocationRelevance text); [|exact H0].
  destruct (ranked_head (keywordScores text)) as (c0 & rest & Hr & Hc0 & _).
  rewrite Hr. cbn [fst]. destruct (0 <? _)%Z; [|exact H0].
  rewrite getScore_addScore.
  destruct c0; try exact H0. congruence.
Qed.

(** X9.  The scorer answers Uncategorized exactly when no keyword of the
    table occurs in the combined text in lower case; region names alone
    never give a category. *)
Theorem uncategorized_iff_no_keyword :
  forall title snippet : string,
    res_category (categorizeLead title snippet) = Uncategorized
    <-> (forall c groups g kw,
           In (c, groups) CATEGORY_KEYWORDS -> In g groups -> In kw (fst g) ->
           ~ occursIn kw (combinedText title snippet)).
Proof.
  intros title snippet.
  rewrite categorizeLead_uncategorized_iff. unfold finalScores.
  rewrite locationBoost_zero. split.
  - intros H c groups g kw Hin Hg Hkw Hocc.
    assert (Hc : c <> Uncategorized).
    { intros ->. unfold CATEGORY_KEYWORDS in Hin. simpl in Hin.
      destruct Hin as [[=]|[[=]|[[=]|[[= <-]|[]]]]]. destruct Hg. }
    pose proof (proj1 (keywordScores_zero _ c Hc) (H c Hc) groups g kw Hin Hg Hkw) as Hf.
    rewrite (table_keyword_lower _ _ _ _ Hin Hg Hkw) in Hf.
    apply includes_spec in Hocc. congruence.
  - intros H c Hc. apply keywordScores_zero; [exact Hc|].
    intros groups g kw Hin Hg Hkw.
    rewrite (table_keyword_lower _ _ _ _ Hin Hg Hkw).
    apply includes_false. now apply (H c groups g kw).
Qed.

(** * More about the title parser *)

Section TitleMore.

Lemma occursIn_app_l needle a b : occursIn needle a -> occursIn needle (a ++ b).
Proof.
  intros (before & after & ->). exists before, (after ++ b)%string.
  now rewrite !append_assoc.
Qed.

Lemma occursIn_inside needle l t r :
  occursIn needle t -> occursIn needle (l ++ t ++ r).
Proof.
  intros (before & after & ->). exists (l ++ before)%string, (after ++ r)%string.
  now rewrite !append_assoc.
Qed.

Lemma occursIn_trim needle s : occursIn needle (Js.trim s) -> occursIn needle s.
Proof.
  intros H. destruct (trim_spec s) as ((l & r & Hs & _) & _).
  rewrite Hs. now apply occursIn_inside.
Qed.

(** A text has no separator, or a first one. *)
Lemma first_dash s :
  Js.includes s " - " = false \/
  exists a b, s = (a ++ " - " ++ b)%string /\ Js.includes (a ++ " -") " - " = false.
Proof.
  induction s as [|c r IH]; [now left|].
  destruct (Js.startsWith (String c r) " - ") eqn:E.
  - right. apply startsWith_spec in E. destruct E as (rest & E).
    exists EmptyString, rest. split; [exact E | reflexivity].
  - destruct IH as [IH|(a & b & -> & Ha)].
    + left. cbn [Js.includes]. now rewrite E, IH.
    + right. exists (String c a), b. split; [reflexivity|].
      change (String c a ++ " -")%string with (String c (a ++ " -")%string).
      cbn [Js.includes]. rewrite <- startsWith_dash_cut with (b := b).
      now rewrite E, Ha.
Qed.

Lemma splitDash_head s :
  exists p rest, Js.splitDash s = p :: rest /\ ~ occursIn " - " p.
Proof.
  destruct (first_dash s) as [H|(a & b & -> & H)].
  - exists s, []. split.
    + unfold Js.splitDash. now rewrite (splitDashFrom_whole _ _ H).
    + intros Ho. apply includes_spec in Ho. congruence.
  - exists a, (Js.splitDash b). split.
    + unfold Js.splitDash at 1. now rewrite (splitDashFrom_first _ _ _ H).
    + intros Ho. apply (occursIn_app_l _ _ " -") in Ho.
      apply includes_spec in Ho. congruence.
Qed.

Lemma extractHeadlineFromTitle_trim title :
  extractHeadlineFromTitle title = EmptyString \/
  exists s, extractHeadlineFromTitle title = Js.trim s.
Proof.
  unfold extractHeadlineFromTitle.
  destruct (Js.splitDash _) as [|p [|q rest]]; auto. right. eauto.
Qed.

End TitleMore.

(** X10.  The name and the headline never begin or end with white space,
    and the name never contains the separator. *)
Theorem parsed_fields_are_clean :
  forall title : string,
    (forall c rest,
        extractNameFromTitle title = String c rest -> Js.isSpace c = false)
    /\ (forall init c,
        extractNameFromTitle title = (init ++ String c EmptyString)%string ->
        Js.isSpace c = false)
    /\ (forall c rest,
        extractHeadlineFromTitle title = String c rest -> Js.isSpace c = false)
    /\ (forall init c,
        extractHeadlineFromTitle title = (init ++ String c EmptyString)%string ->
        Js.isSpace c = false)
    /\ ~ occursIn " - " (extractNameFromTitle title).
Proof.
  intros title.
  assert (Hname : exists p, extractNameFromTitle title = Js.trim p
                            /\ ~ occursIn " - " p).
  { unfold extractNameFromTitle.
    destruct (splitDash_head (stripLinkedInSuffix title)) as (p & rest & -> & Hp).
    now exists p. }
  destruct Hname as (p & Hn & Hp).
  destruct (trim_spec p) as (_ & Hp1 & Hp2).
  split; [rewrite Hn; exact Hp1|]. split; [rewrite Hn; exact Hp2|].
  destruct (extractHeadlineFromTitle_trim title) as [H|(s & H)]; rewrite H.
  - split; [discriminate|]. split.
    + intros [|x init] c E; discriminate.
    + rewrite Hn. intros Ho. apply Hp. now apply occursIn_trim.
  - destruct (trim_spec s) as (_ & Hs1 & Hs2).
    split; [exact Hs1|]. split; [exact Hs2|].
    rewrite Hn. intros Ho. apply Hp. now apply occursIn_trim.
Qed.

Lemma parsed_fields_are_clean_witness :
  extractNameFromTitle "  Ann Lee  - Chef | LinkedIn" = String "A" "nn Lee"
  /\ Js.isSpace "A" = false.
Proof.
  assert (H : extractNameFromTitle "  Ann Lee  - Chef | LinkedIn" = String "A" "nn Lee")
    by reflexivity.
  split; [exact H|].
  exact (proj1 (parsed_fields_are_clean "  Ann Lee  - Chef | LinkedIn") _ _ H).
Defined.

(** * Reading back the CSV export *)

Section CsvRoundTrip.

Lemma includes_one_cons c v x :
  Js.includes (String c v) (String x EmptyString)
  = Ascii.eqb x c || Js.includes v (String x EmptyString).
Proof. cbn [Js.includes Js.startsWith]. now rewrite andb_true_r. Qed.

Lemma needsQuoting_cons c v :
  needsQuoting (String c v) = negb (plainChar c) || needsQuoting v.
Proof.
  unfold needsQuoting, plainChar. rewrite !includes_one_cons.
  rewrite (Ascii.eqb_sym "," c), (Ascii.eqb_sym Js.dquote c),
    (Ascii.eqb_sym Js.LF c), (Ascii.eqb_sym Js.CR c).
  destruct (Ascii.eqb c ","), (Ascii.eqb c Js.dquote), (Ascii.eqb c Js.LF),
    (Ascii.eqb c Js.CR); simpl; rewrite ?orb_true_r; reflexivity.
Qed.

Lemma append_snoc acc c v :
  (Js.snoc acc c ++ v)%string = (acc ++ String c v)%string.
Proof. unfold Js.snoc. now rewrite append_assoc. Qed.

Lemma plainChar_unquoted c field fields r :
  plainChar c = true ->
  parseCsvFrom Unquoted field fields (String c r)
  = parseCsvFrom Unquoted (Js.snoc field c) fields r.
Proof.
  unfold plainChar. rewrite !andb_true_iff, !negb_true_iff.
  intros (((H1 & H2) & H3) & H4). cbn [parseCsvFrom]. now rewrite H1, H3.
Qed.

Lemma plainChar_start c field fields r :
  plainChar c = true ->
  parseCsvFrom FieldStart field fields (String c r)
  = parseCsvFrom Unquoted (Js.snoc field c) fields r.
Proof.
  unfold plainChar. rewrite !andb_true_iff, !negb_true_iff.
  intros (((H1 & H2) & H3) & H4). cbn [parseCsvFrom]. now rewrite H2, H1, H3.
Qed.

Lemma raw_unquoted v : forall acc fields rest,
  needsQuoting v = false ->
  parseCsvFrom Unquoted acc fields (v ++ rest)
  = parseCsvFrom Unquoted (acc ++ v) fields rest.
Proof.
  induction v as [|c v IH]; intros acc fields rest H.
  - now rewrite append_nil_r.
  - rewrite needsQuoting_cons in H. apply orb_false_iff in H.
    destruct H as [Hc Hv]. apply negb_false_iff in Hc.
    cbn [append]. rewrite (plainChar_unquoted _ _ _ _ Hc), IH by assumption.
    now rewrite append_snoc.
Qed.

Lemma endsField_unquoted field fields rest :
  endsField rest ->
  parseCsvFrom Unquoted field fields rest = afterField field fields rest.
Proof.
  intros [-> | (c & r & -> & [-> | ->])]; reflexivity.
Qed.

Lemma endsField_start fields rest :
  endsField rest ->
  parseCsvFrom FieldStart EmptyString fields rest
  = afterField EmptyString fields rest.
Proof.
  intros [-> | (c & r & -> & [-> | ->])]; reflexivity.
Qed.

Lemma endsField_quoteSeen field fields rest :
  endsField rest ->
  parseCsvFrom QuoteSeen field fields rest = afterField field fields rest.
Proof.
  intros [-> | (c & r & -> & [-> | ->])]; reflexivity.
Qed.

Lemma raw_field v fields rest :
  needsQuoting v = false -> endsField rest ->
  parseCsvFrom FieldStart EmptyString fields (v ++ rest)
  = afterField v fields rest.
Proof.
  intros Hv Hrest. destruct v as [|c v].
  - now apply endsField_start.
  - pose proof Hv as Hv'. rewrite needsQuoting_cons in Hv'.
    apply orb_false_iff in Hv'. destruct Hv' as [Hc Hv'].
    apply negb_false_iff in Hc. cbn [append].
    rewrite (plainChar_start _ _ _ _ Hc), raw_unquoted by assumption.
    now apply endsField_unquoted.
Qed.

Lemma quoted_body v : forall acc fields rest,
  parseCsvFrom Quoted acc fields (doubleQuotes v ++ String Js.dquote rest)
  = parseCsvFrom QuoteSeen (acc ++ v) fields rest.
Proof.
  induction v as [|c v IH]; intros acc fields rest.
  - cbn [doubleQuotes append parseCsvFrom]. rewrite Ascii.eqb_refl.
    now rewrite append_nil_r.
  - cbn [doubleQuotes]. destruct (Ascii.eqb_spec c Js.dquote) as [->|Hc].
    + cbn [append parseCsvFrom]. rewrite Ascii.eqb_refl.
      cbn [parseCsvFrom]. rewrite ?Ascii.eqb_refl. rewrite IH.
      now rewrite append_snoc.
    + cbn [append parseCsvFrom].
      apply Ascii.eqb_neq in Hc. rewrite Hc, IH. now rewrite append_snoc.
Qed.

Lemma quoted_field v fields rest :
  endsField rest ->
  parseCsvFrom FieldStart EmptyString fields (quoted v ++ rest)
  = afterField v fields rest.
Proof.
  intros Hrest. unfold quoted. cbn [append].
  rewrite append_assoc. cbn [append parseCsvFrom]. rewrite Ascii.eqb_refl.
  rewrite quoted_body. cbn [append]. now apply endsField_quoteSeen.
Qed.

Lemma escaped_field v fields rest :
  endsField rest ->
  parseCsvFrom FieldStart EmptyString fields (escapeCSVField v ++ rest)
  = afterField v fields rest.
Proof.
  intros Hrest. unfold escapeCSVField. destruct (needsQuoting v) eqn:E.
  - now apply quoted_field.
  - now apply raw_field.
Qed.

(** A row of escaped fields, then the end of the text or a line feed. *)
Lemma escaped_row fs : forall f fields,
  parseCsvFrom FieldStart EmptyString fields (csvRow (f :: fs))
  = [fields ++ f :: fs]
  /\ forall r,
       parseCsvFrom FieldStart EmptyString fields
         (csvRow (f :: fs) ++ String Js.LF r)
       = (fields ++ f :: fs) :: parseCsvFrom FieldStart EmptyString [] r.
Proof.
  induction fs as [|g fs IH]; intros f fields.
  - unfold csvRow. cbn [map Js.join]. split.
    + rewrite <- (append_nil_r (escapeCSVField f)).
      rewrite escaped_field by now left. reflexivity.
    + intros r. rewrite escaped_field; [reflexivity|].
      right. exists Js.LF, r. auto.
  - assert (Hrow : csvRow (f :: g :: fs)
                   = (escapeCSVField f ++ String "," (csvRow (g :: fs)))%string)
      by reflexivity.
    rewrite Hrow. destruct (IH g (fields ++ [f])) as [IH1 IH2]. split.
    + rewrite escaped_field by (right; exists ","%char, (csvRow (g :: fs)); auto).
      cbn [afterField]. rewrite Ascii.eqb_refl, IH1. now rewrite <- app_assoc.
    + intros r. rewrite append_assoc. cbn [append].
      rewrite escaped_field
        by (right; exists ","%char, (csvRow (g :: fs) ++ String Js.LF r)%string; auto).
      cbn [afterField]. rewrite Ascii.eqb_refl, IH2. now rewrite <- app_assoc.
Qed.

Lemma parseCsv_rows rows : forall row,
  Forall (fun r : list string => r <> []) (row :: rows) ->
  parseCsv (Js.join (String Js.LF EmptyString) (map csvRow (row :: rows)))
  = row :: rows.
Proof.
  unfold parseCsv. induction rows as [|row2 rows IH]; intros row H.
  - inversion H as [|? ? Hr _]; subst. destruct row as [|f fs]; [congruence|].
    cbn [map Js.join]. apply (proj1 (escaped_row fs f [])).
  - inversion H as [|? ? Hr Hrest]; subst. destruct row as [|f fs]; [congruence|].
    assert (Hj : Js.join (String Js.LF EmptyString) (map csvRow ((f :: fs) :: row2 :: rows))
                 = (csvRow (f :: fs) ++ String Js.LF
                      (Js.join (String Js.LF EmptyString) (map csvRow (row2 :: rows))))%string)
      by reflexivity.
    rewrite Hj, (proj2 (escaped_row fs f [])). cbn [app]. f_equal.
    now apply IH.
Qed.

Lemma leadsToCSV_rows lead leads :
  leadsToCSV (lead :: leads)
  = Js.join (String Js.LF EmptyString)
      (map csvRow (csvHeaders :: map csvFields (lead :: leads))).
Proof. cbn [leadsToCSV map]. now rewrite map_map. Qed.

Lemma parseCsv_leadsToCSV lead leads :
  parseCsv (leadsToCSV (lead :: leads))
  = csvHeaders :: map csvFields (lead :: leads).
Proof.
  rewrite leadsToCSV_rows. apply parseCsv_rows.
  constructor; [discriminate|].
  apply Forall_forall. intros r Hr. apply in_map_iff in Hr.
  destruct Hr as (l & <- & _). discriminate.
Qed.

Lemma categoryName_inj a b : categoryName a = categoryName b -> a = b.
Proof. destruct a, b; simpl; intros H; try reflexivity; discriminate. Qed.

Lemma confidenceName_inj a b : confidenceName a = confidenceName b -> a = b.
Proof. destruct a, b; simpl; intros H; try reflexivity; discriminate. Qed.

Lemma csvFields_sameColumns a b : csvFields a = csvFields b -> sameColumns a b.
Proof.
  unfold csvFields, sameColumns. intros [= H1 H2 H3 H4 H5 H6 H7 H8].
  apply categoryName_inj in H3. apply confidenceName_inj in H4. tauto.
Qed.

Lemma map_eq_Forall2 {A B} (f : A -> B) l1 : forall l2,
  map f l1 = map f l2 -> Forall2 (fun a b => f a = f b) l1 l2.
Proof.
  induction l1 as [|a l1 IH]; intros [|b l2] H; try discriminate.
  - constructor.
  - injection H as H1 H2. constructor; auto.
Qed.

End CsvRoundTrip.

(** X11.  The export can be read back: a reader of CSV after RFC 4180
    (comma between fields, line feed between records, quoted fields with
    doubled double quotes) finds in the export of a list of leads that is
    not empty the header record and then, lead by lead, the eight columns
    with exactly the text they had, whatever commas, double quotes and
    line breaks the text holds. *)
Theorem csv_reads_back :
  forall leads : list Lead,
    leads <> [] ->
    parseCsv (leadsToCSV leads) = csvHeaders :: map csvFields leads.
Proof.
  intros [|lead leads] H; [congruence|]. apply parseCsv_leadsToCSV.
Qed.

Lemma csv_reads_back_witness :
  [sampleLead "a,b" High] <> []
  /\ parseCsv (leadsToCSV [sampleLead "a,b" High])
     = csvHeaders :: map csvFields [sampleLead "a,b" High].
Proof.
  assert (H : [sampleLead "a,b" High] <> []) by discriminate.
  split; [exact H|]. exact (csv_reads_back _ H).
Defined.

(** X12.  The export loses nothing but the identifiers: two lists of
    leads with the same export have the same length and, place by place,
    leads with the same eight exported columns; and two field texts with
    the same escaped form are equal. *)
Theorem csv_export_injective :
  (forall leads1 leads2 : list Lead,
      leadsToCSV leads1 = leadsToCSV leads2 ->
      Forall2 sameColumns leads1 leads2)
  /\ (forall a b : string, escapeCSVField a = escapeCSVField b -> a = b).
Proof.
  split.
  - intros leads1 leads2 H. apply (f_equal parseCsv) in H.
    destruct leads1 as [|l1 r1], leads2 as [|l2 r2].
    + constructor.
    + rewrite parseCsv_leadsToCSV in H. discriminate H.
    + rewrite parseCsv_leadsToCSV in H. discriminate H.
    + rewrite !parseCsv_leadsToCSV in H.
      apply (f_equal (@tl (list string))) in H. cbn [tl] in H.
      apply map_eq_Forall2 in H.
      apply Forall2_impl with (2 := H). apply csvFields_sameColumns.
  - intros a b H.
    assert (Ha : parseCsv (escapeCSVField a) = [[a]]).
    { unfold parseCsv. rewrite <- (append_nil_r (escapeCSVField a)).
      rewrite escaped_field by now left. reflexivity. }
    assert (Hb : parseCsv (escapeCSVField b) = [[b]]).
    { unfold parseCsv. rewrite <- (append_nil_r (escapeCSVField b)).
      rewrite escaped_field by now left. reflexivity. }
    rewrite H, Hb in Ha. now injection Ha.
Qed.

Lemma csv_export_injective_witness :
  escapeCSVField "a,b" = escapeCSVField "a,b" /\ "a,b" = "a,b".
Proof.
  split; [reflexivity|].
  exact (proj2 csv_export_injective "a,b" "a,b" eq_refl).
Defined.

(** * Trimming *)

Section TrimFacts.

Lemma trimStart_clean t :
  (forall c rest, t = String c rest -> Js.isSpace c = false) ->
  Js.trimStart t = t.
Proof.
  destruct t as [|c t]; [reflexivity|]. intros H. simpl.
  now rewrite (H c t eq_refl).
Qed.

Lemma trimEnd_clean t :
  (forall init c, t = (init ++ String c EmptyString)%string ->
                  Js.isSpace c = false) ->
  Js.trimEnd t = t.
Proof.
  induction t as [|c t IH]; [reflexivity|]. intros H. cbn [Js.trimEnd].
  destruct t as [|d t].
  - cbn [Js.trimEnd]. now rewrite (H EmptyString c eq_refl).
  - rewrite IH; [reflexivity|].
    intros init x E. apply (H (String c init) x). simpl. now rewrite E.
Qed.

Lemma trim_idem s : Js.trim (Js.trim s) = Js.trim s.
Proof.
  destruct (trim_spec s) as (_ & H1 & H2). unfold Js.trim at 1.
  rewrite (trimStart_clean _ H1). now apply trimEnd_clean.
Qed.

Lemma trimEnd_blank r : Js.isBlank r = true -> Js.trimEnd r = EmptyString.
Proof.
  induction r as [|c r IH]; [reflexivity|]. simpl.
  intros H. apply andb_true_iff in H. destruct H as [Hc Hr].
  now rewrite (IH Hr), Hc.
Qed.

Lemma trimEnd_blank_app t r :
  Js.isBlank r = true -> Js.trimEnd (t ++ r) = Js.trimEnd t.
Proof.
  intros Hr. induction t as [|c t IH].
  - simpl. now apply trimEnd_blank.
  - cbn [append Js.trimEnd]. now rewrite IH.
Qed.

Lemma isHexDigit_not_space c : isHexDigit c = true -> Js.isSpace c = false.
Proof. destruct c as [[] [] [] [] [] [] [] []]; vm_compute; congruence. Qed.

Lemma allHex_trimStart t : allHex t = true -> Js.trimStart t = t.
Proof.
  destruct t as [|c t]; [reflexivity|]. simpl. intros H.
  apply andb_true_iff in H. destruct H as [Hc _].
  now rewrite (isHexDigit_not_space _ Hc).
Qed.

Lemma allHex_trimEnd t : allHex t = true -> Js.trimEnd t = t.
Proof.
  induction t as [|c t IH]; [reflexivity|]. cbn [allHex Js.trimEnd]. intros H.
  apply andb_true_iff in H. destruct H as [Hc Ht]. rewrite (IH Ht).
  destruct t; [|reflexivity]. now rewrite (isHexDigit_not_space _ Hc).
Qed.

Lemma trim_padded_hex l hex r :
  Js.isBlank l = true -> Js.isBlank r = true -> allHex hex = true ->
  Js.trim (l ++ hex ++ r) = hex.
Proof.
  intros Hl Hr Hh. unfold Js.trim. rewrite trimStart_blank_app by exact Hl.
  destruct hex as [|c hex].
  - simpl. apply trimStart_blank in Hr. now rewrite Hr.
  - assert (Hs : Js.trimStart (String c hex ++ r) = (String c hex ++ r)%string).
    { cbn [append Js.trimStart]. cbn [allHex] in Hh.
      apply andb_true_iff in Hh. destruct Hh as [Hc _].
      now rewrite (isHexDigit_not_space _ Hc). }
    rewrite Hs, trimEnd_blank_app by exact Hr. now apply allHex_trimEnd.
Qed.

Lemma isSpace_lower c : Js.isSpace (Js.toLowerChar c) = Js.isSpace c.
Proof. destruct c as [[] [] [] [] [] [] [] []]; reflexivity. Qed.

Lemma isHexDigit_lower c : isHexDigit (Js.toLowerChar c) = isHexDigit c.
Proof. destruct c as [[] [] [] [] [] [] [] []]; reflexivity. Qed.

Lemma trimStart_lower s :
  Js.trimStart (Js.toLowerCase s) = Js.toLowerCase (Js.trimStart s).
Proof.
  induction s as [|c s IH]; [reflexivity|]. simpl. rewrite isSpace_lower.
  destruct (Js.isSpace c); [exact IH | reflexivity].
Qed.

Lemma trimEnd_lower s :
  Js.trimEnd (Js.toLowerCase s) = Js.toLowerCase (Js.trimEnd s).
Proof.
  induction s as [|c s IH]; [reflexivity|]. cbn [Js.toLowerCase Js.trimEnd].
  rewrite IH, isSpace_lower. destruct (Js.trimEnd s); simpl; [|reflexivity].
  now destruct (Js.isSpace c).
Qed.

Lemma trim_lower s : Js.trim (Js.toLowerCase s) = Js.toLowerCase (Js.trim s).
Proof. unfold Js.trim. now rewrite trimStart_lower, trimEnd_lower. Qed.

Lemma length_lower s : String.length (Js.toLowerCase s) = String.length s.
Proof. induction s as [|c s IH]; simpl; [reflexivity | now rewrite IH]. Qed.

Lemma allHex_lower s : allHex (Js.toLowerCase s) = allHex s.
Proof.
  induction s as [|c s IH]; simpl; [reflexivity|].
  now rewrite isHexDigit_lower, IH.
Qed.

Lemma validateApiKey_wellFormed :
  forall apiKey : string,
    validateApiKey apiKey = true <-> wellFormedKey apiKey.
Proof.
  intros apiKey. unfold validateApiKey, wellFormedKey.
  rewrite andb_true_iff, Nat.eqb_eq. split.
  - intros [Hlen Hhex].
    destruct (trim_spec apiKey) as ((l & r & Hk & Hl & Hr) & _).
    now exists l, (Js.trim apiKey), r.
  - intros (l & hex & r & -> & Hl & Hr & Hlen & Hhex).
    now rewrite (trim_padded_hex _ _ _ Hl Hr Hhex).
Qed.

End TrimFacts.

(** X13.  A key passes [validateApiKey] exactly when it is 64
    hexadecimal digits, in either case, with nothing but white space
    before and after them. *)
Theorem api_key_format :
  forall apiKey : string,
    validateApiKey apiKey = true <-> wellFormedKey apiKey.
Proof. exact validateApiKey_wellFormed. Qed.

(** X14.  The test of the key does not see white space around the key
    nor the case of its letters. *)
Theorem api_key_test_ignores_case_and_padding :
  forall apiKey : string,
    validateApiKey (Js.trim apiKey) = validateApiKey apiKey
    /\ validateApiKey (Js.toLowerCase apiKey) = validateApiKey apiKey
    /\ (forall l r, Js.isBlank l = true -> Js.isBlank r = true ->
        validateApiKey apiKey = true ->
        validateApiKey (l ++ apiKey ++ r) = true).
Proof.
  intros apiKey. unfold validateApiKey. split; [now rewrite trim_idem|].
  split; [now rewrite trim_lower, length_lower, allHex_lower|].
  intros l r Hl Hr H. apply andb_true_iff in H. destruct H as [Hlen Hhex].
  destruct (trim_spec apiKey) as ((l0 & r0 & Hk & Hl0 & Hr0) & _).
  assert (E : (l ++ apiKey ++ r)%string
              = ((l ++ l0) ++ Js.trim apiKey ++ (r0 ++ r))%string).
  { rewrite Hk at 1. now rewrite !append_assoc. }
  rewrite E, trim_padded_hex; [now rewrite Hlen, Hhex | | | exact Hhex].
  - clear - Hl Hl0. induction l as [|c l IH]; [exact Hl0|].
    simpl in *. apply andb_true_iff in Hl. destruct Hl as [Hc Hl].
    now rewrite Hc, IH.
  - clear - Hr Hr0. induction r0 as [|c r0 IH]; [exact Hr|].
    simpl in *. apply andb_true_iff in Hr0. destruct Hr0 as [Hc Hr0].
    now rewrite Hc, IH.
Qed.

Lemma api_key_test_ignores_case_and_padding_witness :
  let key := "0123456789abcdef0123456789ABCDEF0123456789abcdef0123456789ABCDEF" in
  Js.isBlank " " = true
  /\ validateApiKey key = true
  /\ validateApiKey (" " ++ key ++ " ") = true.
Proof.
  intros key.
  assert (Hb : Js.isBlank " " = true) by reflexivity.
  assert (Hk : validateApiKey key = true) by (vm_compute; reflexivity).
  split; [exact Hb|]. split; [exact Hk|].
  exact (proj2 (proj2 (api_key_test_ignores_case_and_padding key)) " " " " Hb Hb Hk).
Defined.

(** * The scraper *)

Section Scraper.

Lemma leadsFrom_length arrivals : forall start c l,
  length (leadsFrom start arrivals c l) = length arrivals.
Proof.
  induction arrivals as [|a arrivals IH]; intros start c l; simpl;
    [reflexivity | now rewrite IH].
Qed.

Lemma trim_empty : Js.trim EmptyString = EmptyString.
Proof. reflexivity. Qed.

Lemma truthy_false s : truthy s = false <-> s = EmptyString.
Proof.
  unfold truthy. rewrite negb_false_iff. apply String.eqb_eq.
Qed.

Lemma truthy_true s : truthy s = true <-> s <> EmptyString.
Proof.
  unfold truthy. rewrite negb_true_iff. apply String.eqb_neq.
Qed.

(** The first guard is for keys that are blank, and those fail the test
    of the format too. *)
Lemma blank_key_invalid apiKey :
  negb (truthy apiKey) || negb (truthy (Js.trim apiKey)) = true ->
  validateApiKey apiKey = false.
Proof.
  intros H. assert (Ht : Js.trim apiKey = EmptyString).
  { apply orb_true_iff in H. destruct H as [H|H]; apply negb_true_iff in H;
      apply truthy_false in H; [subst; reflexivity | exact H]. }
  unfold validateApiKey. now rewrite Ht.
Qed.

Lemma blank_guard s :
  negb (truthy s) || negb (truthy (Js.trim s)) = true <-> Js.trim s = EmptyString.
Proof.
  split.
  - intros H. apply orb_true_iff in H.
    destruct H as [H|H]; apply negb_true_iff in H; apply truthy_false in H;
      [subst; reflexivity | exact H].
  - intros H. apply orb_true_iff. right. apply negb_true_iff.
    now apply truthy_false.
Qed.

Lemma scrapeFailure_failed e q :
  truthy e = true -> failedResult (scrapeFailure e q).
Proof. intros H. repeat split. now exists e. Qed.

Lemma filter_Forall {A} (P : A -> bool) l :
  Forall (fun a => P a = true) (filter P l).
Proof. apply Forall_forall. intros a H. now apply filter_In in H. Qed.

Lemma scrape_cases net calls p :
  let out := scrapeLinkedInLeads net calls p in
  sr_query (fst out) = sp_query p
  /\ ((failedResult (fst out) /\ (snd out = calls \/ snd out = S calls))
      \/ (builtResult p (fst out) /\ snd out = S calls
          /\ validateApiKey (sp_apiKey p) = true)).
Proof.
  unfold scrapeLinkedInLeads.
  destruct (negb (truthy (sp_apiKey p)) || negb (truthy (Js.trim (sp_apiKey p)))).
  { split; [reflexivity|]. left. split; [now apply scrapeFailure_failed | now left]. }
  destruct (validateApiKey (sp_apiKey p)) eqn:Hv; cbn [negb].
  2:{ split; [reflexivity|]. left. split; [now apply scrapeFailure_failed | now left]. }
  destruct (negb (truthy (sp_query p)) || negb (truthy (Js.trim (sp_query p)))).
  { split; [reflexivity|]. left. split; [now apply scrapeFailure_failed | now left]. }
  destruct (net calls _) as [message|status errorText|error organic].
  - split; [reflexivity|]. left. split; [now apply scrapeFailure_failed | now right].
  - destruct (status =? 401)%N; [|destruct (status =? 429)%N];
      (split; [reflexivity|]); left;
      (split; [now apply scrapeFailure_failed | now right]).
  - assert (Hbuilt : forall l,
      builtResult p
        {| sr_success := true;
           sr_leads := leadsFrom 0 (filter isLinkedInProfile l)
                         (sp_queryCategory p) (sp_queryLabel p);
           sr_error := None;
           sr_totalResults := length (filter isLinkedInProfile l);
           sr_query := sp_query p |}).
    { intros l. repeat split. exists (filter isLinkedInProfile l).
      repeat split. apply filter_Forall. }
    destruct error as [e|]; [destruct (truthy e) eqn:He|].
    + split; [reflexivity|]. left.
      split; [now apply scrapeFailure_failed | now right].
    + split; [reflexivity|]. right. cbn [fst snd]. auto.
    + split; [reflexivity|]. right. cbn [fst snd]. auto.
Qed.

Lemma leadsFrom_profile arrivals start c l lead :
  Forall (fun a => isLinkedInProfile a = true) arrivals ->
  In lead (leadsFrom start arrivals c l) ->
  occursIn "linkedin.com/in/" (profileUrl lead) /\ source lead = l
  /\ lowWhenUncategorized lead.
Proof.
  intros Hall Hin.
  destruct (leadsFrom_In _ _ _ _ _ Hin) as (a & index & Ha & _ & ->).
  rewrite Forall_forall in Hall. specialize (Hall a Ha).
  split; [|split; [reflexivity | apply serpResultToLead_low]].
  cbn [serpResultToLead profileUrl link]. now apply includes_spec.
Qed.

End Scraper.

(** X15.  Whatever the key, the query and the network, the result of
    [scrapeLinkedInLeads] counts its leads in [totalResults] and repeats
    the query; a success has no error, and a failure has no lead and an
    error message that is not empty. *)
Theorem scrape_result_shape :
  forall (net : Net) (calls : nat) (params : ScrapeParams),
    let r := fst (scrapeLinkedInLeads net calls params) in
    sr_totalResults r = length (sr_leads r)
    /\ sr_query r = sp_query params
    /\ (sr_success r = true -> sr_error r = None)
    /\ (sr_success r = false ->
        sr_leads r = [] /\ exists e, sr_error r = Some e /\ e <> EmptyString).
Proof.
  intros net calls params r. subst r.
  destruct (scrape_cases net calls params) as [Hq [[Hf _]|[Hb _]]].
  - destruct Hf as (Hs & Hl & Ht & e & He & Hne).
    rewrite Hl, Ht, Hs.
    split; [reflexivity|]. split; [exact Hq|]. split; [discriminate|].
    intros _. split; [reflexivity|].
    exists e. split; [exact He | now apply truthy_true].
  - destruct Hb as (Hs & He & arrivals & _ & Hl & Ht).
    rewrite Hl, Ht, Hs, leadsFrom_length.
    split; [reflexivity|]. split; [exact Hq|].
    split; [intros _; exact He | discriminate].
Qed.

Lemma scrape_result_shape_witness :
  let net : Net := fun _ _ => HttpNotOk 500 "Internal Server Error" in
  let key := "0123456789abcdef0123456789ABCDEF0123456789abcdef0123456789ABCDEF" in
  let r := fst (scrapeLinkedInLeads net 0
                  (mkScrapeParams key "caterer" "Caterers" KitchenTenant None)) in
  sr_success r = false
  /\ sr_leads r = []
  /\ exists e, sr_error r = Some e /\ e <> EmptyString.
Proof.
  intros net key r.
  assert (H : sr_success r = false) by (vm_compute; reflexivity).
  split; [exact H|].
  exact (proj2 (proj2 (proj2 (scrape_result_shape net 0
           (mkScrapeParams key "caterer" "Caterers" KitchenTenant None)))) H).
Defined.

(** X16.  [scrapeLinkedInLeads] sends no request when the key fails the
    test of the format or the query is blank: it fails, and the network
    has no part in the result.  Otherwise it sends exactly one request,
    with the trimmed key and with at most 100 as the number of results
    asked for, and the result depends on the network through the answer
    to that request only. *)
Theorem scrape_requests :
  forall (net : Net) (calls : nat) (params : ScrapeParams),
    let out := scrapeLinkedInLeads net calls params in
    let n := match sp_numResults params with Some n => n | None => 10%N end in
    let request := buildSearchParams (sp_apiKey params) (sp_query params) n in
    (validateApiKey (sp_apiKey params) = false
     \/ Js.trim (sp_query params) = EmptyString ->
     snd out = calls /\ sr_success (fst out) = false
     /\ forall net', scrapeLinkedInLeads net' calls params = out)
    /\ (validateApiKey (sp_apiKey params) = true ->
        Js.trim (sp_query params) <> EmptyString ->
        snd out = S calls
        /\ (forall net', net' calls request = net calls request ->
            scrapeLinkedInLeads net' calls params = out)
        /\ In ("api_key", Js.trim (sp_apiKey params)) request
        /\ wellFormedKey (Js.trim (sp_apiKey params))
        /\ exists m, (m <= 100)%N /\ (m <= n)%N /\ In ("num", showN m) request).
Proof.
  intros net calls params out n request. subst out. split.
  - intros H. unfold scrapeLinkedInLeads.
    destruct (negb (truthy (sp_apiKey params))
              || negb (truthy (Js.trim (sp_apiKey params)))) eqn:G1;
      [repeat split|].
    destruct (validateApiKey (sp_apiKey params)) eqn:Hv; cbn [negb];
      [|repeat split].
    destruct H as [H|H]; [discriminate|].
    apply blank_guard in H. rewrite H. repeat split.
  - intros Hv Hq.
    assert (G1 : negb (truthy (sp_apiKey params))
                 || negb (truthy (Js.trim (sp_apiKey params))) = false).
    { destruct (negb (truthy (sp_apiKey params))
                || negb (truthy (Js.trim (sp_apiKey params)))) eqn:G;
        [|reflexivity].
      apply blank_key_invalid in G. congruence. }
    assert (G3 : negb (truthy (sp_query params))
                 || negb (truthy (Js.trim (sp_query params))) = false).
    { destruct (negb (truthy (sp_query params))
                || negb (truthy (Js.trim (sp_query params)))) eqn:G;
        [|reflexivity].
      apply blank_guard in G. congruence. }
    split; [|split; [|split; [|split]]].
    + unfold scrapeLinkedInLeads. rewrite G1, Hv, G3. cbn [negb].
      fold n. fold request.
      destruct (net calls request) as [m|status txt|[e|] organic];
        try reflexivity.
      * destruct (status =? 401)%N; [|destruct (status =? 429)%N]; reflexivity.
      * destruct (truthy e); reflexivity.
    + intros net' Hnet. unfold scrapeLinkedInLeads. rewrite G1, Hv, G3.
      cbn [negb]. fold n. fold request. now rewrite Hnet.
    + unfold request, buildSearchParams. simpl. auto.
    + apply validateApiKey_wellFormed. unfold validateApiKey in *.
      now rewrite trim_idem.
    + exists (N.min n 100). split; [lia|]. split; [lia|].
      unfold request, buildSearchParams. simpl. auto 10.
Qed.

Lemma scrape_requests_witness :
  let net : Net := fun _ _ => FetchThrows None in
  let p := mkScrapeParams "not a key" "caterer" "Caterers" KitchenTenant (Some 500%N) in
  (validateApiKey (sp_apiKey p) = false \/ Js.trim (sp_query p) = EmptyString)
  /\ snd (scrapeLinkedInLeads net 7 p) = 7
  /\ sr_success (fst (scrapeLinkedInLeads net 7 p)) = false.
Proof.
  intros net p.
  assert (H : validateApiKey (sp_apiKey p) = false
              \/ Js.trim (sp_query p) = EmptyString)
    by (left; vm_compute; reflexivity).
  split; [exact H|].
  destruct (proj1 (scrape_requests net 7 p) H) as (H1 & H2 & _).
  split; assumption.
Defined.

(** X17.  The leads of a successful scrape all point to LinkedIn
    profiles, carry the label of the query as their source, have
    confidence Low when their category is Uncategorized, and have
    pairwise different identifiers; and a scrape only succeeds with a key
    that passes the test of the format. *)
Theorem scrape_success_leads :
  forall (net : Net) (calls : nat) (params : ScrapeParams),
    let r := fst (scrapeLinkedInLeads net calls params) in
    sr_success r = true ->
    validateApiKey (sp_apiKey params) = true
    /\ NoDup (map id (sr_leads r))
    /\ (forall lead, In lead (sr_leads r) ->
        occursIn "linkedin.com/in/" (profileUrl lead)
        /\ source lead = sp_queryLabel params
        /\ (category lead = Uncategorized -> confidence lead = Low)).
Proof.
  intros net calls params r Hs. subst r.
  destruct (scrape_cases net calls params) as [_ [[Hf _]|[Hb [_ Hv]]]].
  - destruct Hf as (Hf & _). congruence.
  - destruct Hb as (_ & _ & arrivals & Ha & Hl & _). rewrite Hl.
    split; [exact Hv|]. split; [apply leadsFrom_ids_NoDup|].
    intros lead Hin. exact (leadsFrom_profile _ _ _ _ _ Ha Hin).
Qed.

Lemma scrape_success_leads_witness :
  let net : Net :=
    fun _ _ => JsonBody None
      (Some [ mkArrival (janeDoe 5) 1700000000000 "2023-11-14T22:13:20.000Z";
              mkArrival (mkSerpApiResult 1 "Post" "https://linkedin.com/posts/x" "catering")
                1700000000000 "2023-11-14T22:13:20.000Z" ]) in
  let key := "0123456789abcdef0123456789ABCDEF0123456789abcdef0123456789ABCDEF" in
  let p := mkScrapeParams key "caterer" "Caterers" KitchenTenant None in
  sr_success (fst (scrapeLinkedInLeads net 0 p)) = true
  /\ map id (sr_leads (fst (scrapeLinkedInLeads net 0 p))) = ["lead-1700000000000-0"]
  /\ NoDup (map id (sr_leads (fst (scrapeLinkedInLeads net 0 p)))).
Proof.
  intros net key p.
  assert (H : sr_success (fst (scrapeLinkedInLeads net 0 p)) = true)
    by (vm_compute; reflexivity).
  split; [exact H|]. split; [vm_compute; reflexivity|].
  exact (proj1 (proj2 (scrape_success_leads net 0 p H))).
Defined.

(** * The batch *)

Section Batch.

Lemma allLeads_cons run runs :
  allLeads (run :: runs) = scrapeLeads run ++ allLeads runs.
Proof. reflexivity. Qed.

Lemma failedRuns_cons run runs :
  failedRuns (run :: runs)
  = (match run_arrivals run with None => 1 | Some _ => 0 end) + failedRuns runs.
Proof. unfold failedRuns. simpl. now destruct (run_arrivals run). Qed.

Lemma batch_fold net apiKey n queries : forall st,
  let st' := fold_left (batchStep net apiKey n) queries st in
  exists runs newErrors,
    Forall2 runFor queries runs
    /\ Forall (fun run => forall arrivals,
                 run_arrivals run = Some arrivals ->
                 Forall (fun a => isLinkedInProfile a = true) arrivals) runs
    /\ bs_allLeads st' = bs_allLeads st ++ allLeads runs
    /\ bs_totalResults st' = bs_totalResults st + length (allLeads runs)
    /\ bs_errors st' = bs_errors st ++ newErrors
    /\ length newErrors = failedRuns runs
    /\ Forall (fun e => exists q,
                 In q queries
                 /\ Js.startsWith e (bq_label q ++ ": ") = true) newErrors
    /\ bs_calls st <= bs_calls st' <= bs_calls st + length queries.
Proof.
  induction queries as [|q queries IH]; intros st; cbn zeta.
  - exists [], []. cbn [fold_left]. rewrite !app_nil_r. cbn.
    repeat split; try constructor; lia.
  - cbn [fold_left].
    set (p := {| sp_apiKey := apiKey; sp_query := bq_query q;
                 sp_queryLabel := bq_label q;
                 sp_queryCategory := bq_category q;
                 sp_numResults := Some n |}).
    pose proof (scrape_cases net (bs_calls st) p) as Hc. cbn zeta in Hc.
    assert (Hstep : batchStep net apiKey n st q =
      let '(result, calls) := scrapeLinkedInLeads net (bs_calls st) p in
      if sr_success result then
        {| bs_allLeads := bs_allLeads st ++ sr_leads result;
           bs_errors := bs_errors st;
           bs_totalResults := bs_totalResults st + sr_totalResults result;
           bs_calls := calls |}
      else
        match sr_error result with
        | Some e =>
            if truthy e then
              {| bs_allLeads := bs_allLeads st;
                 bs_errors := bs_errors st ++ [(bq_label q ++ ": " ++ e)%string];
                 bs_totalResults := bs_totalResults st;
                 bs_calls := calls |}
            else
              {| bs_allLeads := bs_allLeads st;
                 bs_errors := bs_errors st;
                 bs_totalResults := bs_totalResults st;
                 bs_calls := calls |}
        | None =>
            {| bs_allLeads := bs_allLeads st;
               bs_errors := bs_errors st;
               bs_totalResults := bs_totalResults st;
               bs_calls := calls |}
        end) by reflexivity.
    destruct (scrapeLinkedInLeads net (bs_calls st) p) as [result calls].
    cbn [fst snd] in Hc. destruct Hc as [_ [[Hf Hcalls]|[Hb [Hcalls _]]]].
    + destruct Hf as (Hs & _ & _ & e & He & Ht).
      rewrite Hs, He, Ht in Hstep. rewrite Hstep.
      destruct (IH {| bs_allLeads := bs_allLeads st;
                      bs_errors := bs_errors st ++ [(bq_label q ++ ": " ++ e)%string];
                      bs_totalResults := bs_totalResults st;
                      bs_calls := calls |})
        as (runs & errs & H1 & H2 & H3 & H4 & H5 & H6 & H7 & H8).
      cbn [bs_allLeads bs_errors bs_totalResults bs_calls] in *.
      exists ({| run_label := bq_label q; run_category := bq_category q;
                 run_arrivals := None |} :: runs),
             ((bq_label q ++ ": " ++ e)%string :: errs).
      rewrite allLeads_cons, failedRuns_cons.
      cbn [scrapeLeads run_arrivals app length].
      split; [constructor; [split; reflexivity | exact H1]|].
      split; [constructor; [discriminate | exact H2]|].
      split; [exact H3|]. split; [exact H4|].
      split; [now rewrite H5, <- app_assoc|].
      split; [now rewrite H6|].
      split.
      * constructor.
        -- exists q. split; [now left|]. apply startsWith_spec.
           exists e. now rewrite append_assoc.
        -- apply Forall_impl with (2 := H7).
           intros e0 (q0 & Hq0 & Hst). exists q0. split; [now right | exact Hst].
      * destruct Hcalls; subst; lia.
    + destruct Hb as (Hs & _ & arrivals & Ha & Hl & Htot).
      rewrite Hs in Hstep. rewrite Hstep.
      destruct (IH {| bs_allLeads := bs_allLeads st ++ sr_leads result;
                      bs_errors := bs_errors st;
                      bs_totalResults := bs_totalResults st + sr_totalResults result;
                      bs_calls := calls |})
        as (runs & errs & H1 & H2 & H3 & H4 & H5 & H6 & H7 & H8).
      cbn [bs_allLeads bs_errors bs_totalResults bs_calls] in *.
      exists ({| run_label := bq_label q; run_category := bq_category q;
                 run_arrivals := Some arrivals |} :: runs), errs.
      rewrite allLeads_cons, failedRuns_cons.
      unfold scrapeLeads at 1 2. cbn [run_arrivals run_category run_label].
      cbn [sp_queryCategory sp_queryLabel p] in Hl. rewrite <- Hl.
      split; [constructor; [split; reflexivity | exact H1]|].
      split; [constructor; [intros arrs [= <-]; exact Ha | exact H2]|].
      split; [now rewrite H3, <- app_assoc|].
      split.
      * rewrite H4, length_app, Hl, leadsFrom_length, Htot. lia.
      * split; [exact H5|]. split; [exact H6|]. split.
        -- apply Forall_impl with (2 := H7).
           intros e0 (q0 & Hq0 & Hst). exists q0. split; [now right | exact Hst].
        -- subst calls. cbn [length]. lia.
Qed.

Lemma allLeads_profiles runs qs lead :
  Forall2 runFor qs runs ->
  Forall (fun run => forall arrivals,
            run_arrivals run = Some arrivals ->
            Forall (fun a => isLinkedInProfile a = true) arrivals) runs ->
  In lead (allLeads runs) ->
  occursIn "linkedin.com/in/" (profileUrl lead)
  /\ (exists q, In q qs /\ source lead = bq_label q)
  /\ lowWhenUncategorized lead.
Proof.
  intros H2. induction H2 as [|q run qs runs [Hlab Hcat] H2 IH]; intros Hall Hin.
  - destruct Hin.
  - inversion Hall as [|? ? Hrun Hrest]; subst.
    rewrite allLeads_cons in Hin. apply in_app_or in Hin. destruct Hin as [Hin|Hin].
    + unfold scrapeLeads in Hin.
      destruct (run_arrivals run) as [arrivals|] eqn:E; [|destruct Hin].
      destruct (leadsFrom_profile _ _ _ _ _ (Hrun _ eq_refl) Hin) as (P1 & P2 & P3).
      split; [exact P1|]. split; [|exact P3].
      exists q. split; [now left | congruence].
    + destruct (IH Hrest Hin) as (P1 & (q0 & Hq0 & P2) & P3).
      split; [exact P1|]. split; [|exact P3]. exists q0. split; [now right | exact P2].
Qed.

Lemma batch_bad_key_fold net apiKey n queries : forall st,
  validateApiKey apiKey = false ->
  fold_left (batchStep net apiKey n) queries st =
  {| bs_allLeads := bs_allLeads st;
     bs_errors :=
       bs_errors st ++
       map (fun q =>
              (bq_label q ++ ": " ++
               (if negb (truthy apiKey) || negb (truthy (Js.trim apiKey))
                then "API key is required"
                else "Invalid API key format. SerpAPI keys are 64 character hex strings."))%string)
         queries;
     bs_totalResults := bs_totalResults st;
     bs_calls := bs_calls st |}.
Proof.
  intros st Hv. revert st. induction queries as [|q queries IH]; intros st.
  - simpl. rewrite app_nil_r. now destruct st.
  - cbn [fold_left map]. rewrite IH. unfold batchStep, scrapeLinkedInLeads.
    cbn [sp_apiKey sp_query]. rewrite Hv. cbn [negb].
    destruct (negb (truthy apiKey) || negb (truthy (Js.trim apiKey)));
      cbn [sr_success sr_error scrapeFailure bs_allLeads bs_errors
           bs_totalResults bs_calls];
      change (truthy "API key is required") with true;
      change (truthy "Invalid API key format. SerpAPI keys are 64 character hex strings.")
        with true;
      cbn iota; cbn [bs_allLeads bs_errors bs_totalResults bs_calls];
      now rewrite <- app_assoc.
Qed.

End Batch.

Section BatchMore.

Lemma failedRuns_le runs : failedRuns runs <= length runs.
Proof. unfold failedRuns. apply filter_length_le. Qed.

Lemma batch_unfold net calls apiKey queries n :
  exists k,
    batchScrapeLeads net calls apiKey queries n =
    (let st := batchLoop net calls apiKey queries k in
     ({| br_success := (length (bs_errors st) =? 0)%nat;
         br_leads := deduplicateLeads (bs_allLeads st);
         br_errors := bs_errors st;
         br_totalResults := bs_totalResults st |}, bs_calls st)).
Proof.
  exists (match n with Some n => n | None => 10%N end). reflexivity.
Qed.

Lemma batchRuns_runFor net apiKey n queries : forall calls,
  Forall2 runFor queries (batchRuns net calls apiKey queries n).
Proof.
  induction queries as [|q queries IH]; intros calls; cbn [batchRuns];
    constructor; [split; reflexivity | apply IH].
Qed.

(** One query of the batch against the run the network determines. *)
Lemma scrape_run net calls p :
  let numResults := match sp_numResults p with Some n => n | None => 10%N end in
  let sent := sendsRequest (sp_apiKey p) (sp_query p) in
  let out := scrapeLinkedInLeads net calls p in
  snd out = (if sent then S calls else calls)
  /\ match (if sent
            then answered (net calls (buildSearchParams (sp_apiKey p)
                                        (sp_query p) numResults))
            else None) with
     | Some arrivals =>
         sr_success (fst out) = true
         /\ sr_leads (fst out)
            = leadsFrom 0 arrivals (sp_queryCategory p) (sp_queryLabel p)
         /\ sr_totalResults (fst out) = length arrivals
     | None =>
         sr_success (fst out) = false
         /\ exists e, sr_error (fst out) = Some e /\ truthy e = true
     end.
Proof.
  cbn zeta. unfold scrapeLinkedInLeads, sendsRequest.
  destruct (negb (truthy (sp_apiKey p)) || negb (truthy (Js.trim (sp_apiKey p))))
    eqn:G1.
  { rewrite (blank_key_invalid _ G1). cbn [andb fst snd].
    split; [reflexivity|]. split; [reflexivity|]. now eexists. }
  destruct (validateApiKey (sp_apiKey p)); cbn [negb andb].
  2:{ cbn [fst snd]. split; [reflexivity|]. split; [reflexivity|]. now eexists. }
  destruct (negb (truthy (sp_query p)) || negb (truthy (Js.trim (sp_query p))))
    eqn:G3.
  { apply blank_guard in G3. rewrite G3. cbn [truthy String.eqb negb fst snd].
    split; [reflexivity|]. split; [reflexivity|]. now eexists. }
  apply orb_false_iff in G3. destruct G3 as [_ G3].
  apply negb_false_iff in G3. rewrite G3.
  destruct (net calls _) as [message|status errorText|error organic];
    cbn [answered fst snd].
  - split; [reflexivity|]. split; [reflexivity|]. now eexists.
  - destruct (status =? 401)%N; [|destruct (status =? 429)%N]; cbn [fst snd];
      (split; [reflexivity|]); (split; [reflexivity|]); now eexists.
  - destruct error as [e|]; [destruct (truthy e) eqn:He|]; cbn [fst snd].
    + split; [reflexivity|]. split; [reflexivity|]. now eexists.
    + repeat split.
    + repeat split.
Qed.

Lemma batch_fold_runs net apiKey n queries : forall st,
  let st' := fold_left (batchStep net apiKey n) queries st in
  let runs := batchRuns net (bs_calls st) apiKey queries n in
  bs_allLeads st' = bs_allLeads st ++ allLeads runs
  /\ bs_totalResults st' = bs_totalResults st + length (allLeads runs)
  /\ length (bs_errors st') = length (bs_errors st) + failedRuns runs
  /\ bs_calls st'
     = bs_calls st
       + length (filter (fun q => sendsRequest apiKey (bq_query q)) queries).
Proof.
  induction queries as [|q queries IH]; intros st; cbn zeta.
  - cbn [fold_left batchRuns filter length]. rewrite app_nil_r. cbn.
    repeat split; lia.
  - cbn [fold_left batchRuns filter].
    set (p := {| sp_apiKey := apiKey; sp_query := bq_query q;
                 sp_queryLabel := bq_label q;
                 sp_queryCategory := bq_category q;
                 sp_numResults := Some n |}).
    pose proof (scrape_run net (bs_calls st) p) as Hr. cbn zeta in Hr.
    cbn [p sp_apiKey sp_query sp_numResults sp_queryCategory sp_queryLabel] in Hr.
    fold p in Hr.
    assert (Hstep : batchStep net apiKey n st q =
      let '(result, calls) := scrapeLinkedInLeads net (bs_calls st) p in
      if sr_success result then
        {| bs_allLeads := bs_allLeads st ++ sr_leads result;
           bs_errors := bs_errors st;
           bs_totalResults := bs_totalResults st + sr_totalResults result;
           bs_calls := calls |}
      else
        match sr_error result with
        | Some e =>
            if truthy e then
              {| bs_allLeads := bs_allLeads st;
                 bs_errors := bs_errors st ++ [(bq_label q ++ ": " ++ e)%string];
                 bs_totalResults := bs_totalResults st;
                 bs_calls := calls |}
            else
              {| bs_allLeads := bs_allLeads st;
                 bs_errors := bs_errors st;
                 bs_totalResults := bs_totalResults st;
                 bs_calls := calls |}
        | None =>
            {| bs_allLeads := bs_allLeads st;
               bs_errors := bs_errors st;
               bs_totalResults := bs_totalResults st;
               bs_calls := calls |}
        end) by reflexivity.
    destruct (scrapeLinkedInLeads net (bs_calls st) p) as [result calls].
    cbn [fst snd] in Hr. destruct Hr as [Hcalls Hr].
    rewrite allLeads_cons, failedRuns_cons. unfold scrapeLeads at 1 2.
    cbn [run_arrivals run_category run_label].
    destruct (if sendsRequest apiKey (bq_query q)
              then answered (net (bs_calls st)
                               (buildSearchParams apiKey (bq_query q) n))
              else None) as [arrivals|].
    + destruct Hr as (Hs & Hl & Htot). rewrite Hs in Hstep. rewrite Hstep.
      specialize (IH {| bs_allLeads := bs_allLeads st ++ sr_leads result;
                        bs_errors := bs_errors st;
                        bs_totalResults := bs_totalResults st + sr_totalResults result;
                        bs_calls := calls |}).
      cbn zeta in IH. cbn [bs_allLeads bs_errors bs_totalResults bs_calls] in IH.
      rewrite <- Hcalls. destruct IH as (H1 & H2 & H3 & H4).
      rewrite H1, H2, H3, H4, Hl, Htot, Hcalls, <- app_assoc, length_app,
        leadsFrom_length.
      repeat split; try lia.
      destruct (sendsRequest apiKey (bq_query q)); cbn [length]; lia.
    + destruct Hr as (Hs & e & He & Ht). rewrite Hs, He, Ht in Hstep.
      rewrite Hstep.
      specialize (IH {| bs_allLeads := bs_allLeads st;
                        bs_errors := bs_errors st ++ [(bq_label q ++ ": " ++ e)%string];
                        bs_totalResults := bs_totalResults st;
                        bs_calls := calls |}).
      cbn zeta in IH. cbn [bs_allLeads bs_errors bs_totalResults bs_calls] in IH.
      rewrite <- Hcalls. destruct IH as (H1 & H2 & H3 & H4).
      rewrite H1, H2, H3, H4, Hcalls. cbn [app length].
      rewrite ?length_app. cbn [length].
      repeat split; try lia.
      destruct (sendsRequest apiKey (bq_query q)); cbn [length]; lia.
Qed.

End BatchMore.

(** X18.  Whatever the network does, a batch returns at most as many
    leads as it counts in [totalResults] and at most one error per query,
    each error starting with the label of a query; it succeeds exactly
    when it has no error; it sends at most one request per query; its
    leads have pairwise different normalized URLs, all point to LinkedIn
    profiles, carry the label of one of the queries as their source and
    have confidence Low when their category is Uncategorized. *)
Theorem batch_result_invariants :
  forall (net : Net) (calls : nat) (apiKey : string)
         (queries : list BatchQuery) (numResultsPerQuery : option N),
    let out := batchScrapeLeads net calls apiKey queries numResultsPerQuery in
    let b := fst out in
    length (br_leads b) <= br_totalResults b
    /\ length (br_errors b) <= length queries
    /\ (br_success b = true <-> br_errors b = [])
    /\ calls <= snd out <= calls + length queries
    /\ NoDup (map normalizedUrl (br_leads b))
    /\ (forall lead, In lead (br_leads b) ->
        occursIn "linkedin.com/in/" (profileUrl lead)
        /\ (exists q, In q queries /\ source lead = bq_label q)
        /\ (category lead = Uncategorized -> confidence lead = Low))
    /\ Forall (fun e => exists q,
                 In q queries /\ Js.startsWith e (bq_label q ++ ": ") = true)
         (br_errors b).
Proof.
  intros net calls apiKey queries n out b. subst b out.
  destruct (batch_unfold net calls apiKey queries n) as (k & ->). cbn zeta.
  unfold batchLoop. cbn [fst snd br_leads br_totalResults br_errors br_success].
  destruct (batch_fold net apiKey k queries
              {| bs_allLeads := []; bs_errors := []; bs_totalResults := 0;
                 bs_calls := calls |})
    as (runs & errs & H1 & H2 & H3 & H4 & H5 & H6 & H7 & H8).
  cbn zeta in *. cbn [bs_allLeads bs_errors bs_totalResults bs_calls app] in *.
  rewrite H3, H4, H5.
  split.
  { rewrite <- (length_map normalizedUrl), deduplicateLeads_keys.
    rewrite <- (length_map normalizedUrl (allLeads runs)).
    pose proof (firstSeen_length (map normalizedUrl (allLeads runs))). lia. }
  split.
  { rewrite H6, (Forall2_length H1). apply failedRuns_le. }
  split.
  { rewrite Nat.eqb_eq. split; [apply length_zero_iff_nil | intros ->; reflexivity]. }
  split; [exact H8|].
  split; [rewrite deduplicateLeads_keys; apply firstSeen_NoDup|].
  split; [|exact H7].
  intros lead Hin. apply deduplicateLeads_incl in Hin.
  exact (allLeads_profiles _ _ _ H1 H2 Hin).
Qed.

Lemma batch_result_invariants_witness :
  let net : Net :=
    fun _ _ => JsonBody None
      (Some [ mkArrival (janeDoe 5) 1700000000000 "2023-11-14T22:13:20.000Z" ]) in
  let key := "0123456789abcdef0123456789ABCDEF0123456789abcdef0123456789ABCDEF" in
  let qs := [mkBatchQuery "caterer" "Caterers" KitchenTenant] in
  let b := fst (batchScrapeLeads net 0 key qs None) in
  In (serpResultToLead 1700000000000 "2023-11-14T22:13:20.000Z" (janeDoe 0)
        KitchenTenant "Caterers") (br_leads b)
  /\ occursIn "linkedin.com/in/"
       (profileUrl (serpResultToLead 1700000000000 "2023-11-14T22:13:20.000Z"
                      (janeDoe 0) KitchenTenant "Caterers")).
Proof.
  intros net key qs b.
  assert (H : In (serpResultToLead 1700000000000 "2023-11-14T22:13:20.000Z"
                    (janeDoe 0) KitchenTenant "Caterers") (br_leads b))
    by (vm_compute; auto).
  split; [exact H|].
  destruct (batch_result_invariants net 0 key qs None)
    as (_ & _ & _ & _ & _ & Hl & _).
  exact (proj1 (Hl _ H)).
Defined.

(** X19.  The leads of a batch are the de-duplicated leads of the query
    runs that the network determines ([batchRuns]): one run per query, in
    the order of the queries, with the label and the category of the
    query; the run of a query that sends its request is built from the
    LinkedIn profiles of the answer to that request, and a query that
    sends none, or whose answer is not a body without error, builds
    nothing.  [totalResults] counts the leads before de-duplication,
    there is one error per failed run, and the requests sent are one per
    query that is not blank, when the key passes the test of the format. *)
Theorem batch_is_dedup_of_runs :
  forall (net : Net) (calls : nat) (apiKey : string)
         (queries : list BatchQuery) (numResultsPerQuery : option N),
    let out := batchScrapeLeads net calls apiKey queries numResultsPerQuery in
    let b := fst out in
    let runs :=
      batchRuns net calls apiKey queries
        (match numResultsPerQuery with Some n => n | None => 10%N end) in
    Forall2 runFor queries runs
    /\ br_leads b = deduplicateLeads (allLeads runs)
    /\ br_totalResults b = length (allLeads runs)
    /\ length (br_errors b) = failedRuns runs
    /\ snd out
       = calls + length (filter (fun q => sendsRequest apiKey (bq_query q))
                           queries).
Proof.
  intros net calls apiKey queries n out b runs. subst b out runs.
  unfold batchScrapeLeads, batchLoop.
  cbn [fst snd br_leads br_totalResults br_errors].
  set (k := match n with Some n => n | None => 10%N end).
  destruct (batch_fold_runs net apiKey k queries
              {| bs_allLeads := []; bs_errors := []; bs_totalResults := 0;
                 bs_calls := calls |})
    as (H1 & H2 & H3 & H4).
  cbn [bs_allLeads bs_errors bs_totalResults bs_calls app length] in *.
  split; [apply batchRuns_runFor|].
  rewrite H1, H2, H3, H4. auto.
Qed.

(** X20.  With a key that fails the test of the format a batch sends no
    request and returns no lead: every query gets one error, its label
    followed by the message about the key, and the network has no part in
    the result. *)
Theorem batch_bad_key :
  forall (net : Net) (calls : nat) (apiKey : string)
         (queries : list BatchQuery) (numResultsPerQuery : option N),
    validateApiKey apiKey = false ->
    let out := batchScrapeLeads net calls apiKey queries numResultsPerQuery in
    snd out = calls
    /\ br_leads (fst out) = []
    /\ br_totalResults (fst out) = 0
    /\ br_errors (fst out)
       = map (fun q =>
                (bq_label q ++ ": " ++
                 (if String.eqb (Js.trim apiKey) EmptyString
                  then "API key is required"
                  else "Invalid API key format. SerpAPI keys are 64 character hex strings."))%string)
           queries
    /\ (br_success (fst out) = true <-> queries = [])
    /\ forall net',
         batchScrapeLeads net' calls apiKey queries numResultsPerQuery = out.
Proof.
  intros net calls apiKey queries n Hv out. subst out.
  assert (Hg : negb (truthy apiKey) || negb (truthy (Js.trim apiKey))
               = String.eqb (Js.trim apiKey) EmptyString).
  { destruct (String.eqb_spec (Js.trim apiKey) EmptyString) as [E|E].
    - now apply blank_guard.
    - destruct (negb (truthy apiKey) || negb (truthy (Js.trim apiKey))) eqn:G;
        [|reflexivity].
      apply blank_guard in G. congruence. }
  assert (Hall : forall net0,
    batchScrapeLeads net0 calls apiKey queries n =
    ({| br_success := (length queries =? 0)%nat;
        br_leads := [];
        br_errors :=
          map (fun q =>
                 (bq_label q ++ ": " ++
                  (if String.eqb (Js.trim apiKey) EmptyString
                   then "API key is required"
                   else "Invalid API key format. SerpAPI keys are 64 character hex strings."))%string)
            queries;
        br_totalResults := 0 |}, calls)).
  { intros net0. unfold batchScrapeLeads, batchLoop.
    rewrite batch_bad_key_fold by exact Hv.
    cbn [bs_allLeads bs_errors bs_totalResults bs_calls app].
    rewrite Hg, length_map. reflexivity. }
  rewrite Hall. cbn [fst snd br_leads br_totalResults br_errors br_success].
  repeat split.
  - intros H. apply Nat.eqb_eq in H. now apply length_zero_iff_nil.
  - intros ->. reflexivity.
  - intros net'. apply Hall.
Qed.

Lemma batch_bad_key_witness :
  let net : Net := fun _ _ => FetchThrows None in
  let qs := [mkBatchQuery "caterer" "Caterers" KitchenTenant] in
  validateApiKey "  " = false
  /\ snd (batchScrapeLeads net 3 "  " qs None) = 3
  /\ br_errors (fst (batchScrapeLeads net 3 "  " qs None))
     = ["Caterers: API key is required"].
Proof.
  intros net qs.
  assert (H : validateApiKey "  " = false) by reflexivity.
  split; [exact H|].
  destruct (batch_bad_key net 3 "  " qs None H) as (H1 & _ & _ & H2 & _).
  split; [exact H1 | exact H2].
Defined.

(** * The table of leads *)

Section Table.

Variable external : SortField -> Lead -> Lead -> Z.

Lemma insertBy_perm compare x l : Permutation (insertBy compare x l) (x :: l).
Proof.
  induction l as [|y l IH]; simpl; [apply Permutation_refl|].
  destruct (compare x y <=? 0)%Z; [apply Permutation_refl|].
  apply perm_trans with (y :: x :: l); [now apply perm_skip | apply perm_swap].
Qed.

Lemma sortBy_perm compare l : Permutation (sortBy compare l) l.
Proof.
  induction l as [|x l IH]; simpl; [apply perm_nil|].
  apply perm_trans with (x :: sortBy compare l);
    [apply insertBy_perm | now apply perm_skip].
Qed.

Lemma filter_filter {A} (P Q : A -> bool) l :
  filter P (filter Q l) = filter (fun x => Q x && P x) l.
Proof.
  induction l as [|x l IH]; simpl; [reflexivity|].
  destruct (Q x); simpl; [|exact IH]. destruct (P x); now rewrite IH.
Qed.

Lemma filter_ext_all {A} (P Q : A -> bool) l :
  (forall x, P x = Q x) -> filter P l = filter Q l.
Proof.
  intros H. induction l as [|x l IH]; simpl; [reflexivity|].
  now rewrite H, IH.
Qed.

Lemma filteredLeads_sortBy leads cf conf term f d :
  filteredLeads external leads cf conf term f d
  = sortBy (sortCompare external f d) (filter (shownb cf conf term) leads).
Proof.
  unfold filteredLeads. f_equal.
  assert (H1 : match cf with
               | Some c => filter (fun lead => LeadCategory_eqb (category lead) c) leads
               | None => leads
               end
               = filter (fun lead => match cf with
                                     | Some c => LeadCategory_eqb (category lead) c
                                     | None => true
                                     end) leads).
  { destruct cf; [reflexivity|]. symmetry. now apply filter_all. }
  rewrite H1. clear H1.
  assert (H2 : forall l,
            (if String.eqb conf "all" then l
             else filter (fun lead =>
                            String.eqb (confidenceName (confidence lead)) conf) l)
            = filter (fun lead =>
                        String.eqb conf "all"
                        || String.eqb (confidenceName (confidence lead)) conf) l).
  { intros l. destruct (String.eqb conf "all"); [|reflexivity].
    symmetry. now apply filter_all. }
  rewrite H2. clear H2.
  assert (H3 : forall l,
            (if truthy term then filter (matchesSearch (Js.toLowerCase term)) l
             else l)
            = filter (fun lead =>
                        negb (truthy term)
                        || matchesSearch (Js.toLowerCase term) lead) l).
  { intros l. destruct (truthy term); [reflexivity|].
    symmetry. now apply filter_all. }
  rewrite H3. clear H3.
  rewrite !filter_filter. apply filter_ext_all. intros x. unfold shownb.
  now rewrite andb_assoc.
Qed.

Lemma shownb_shown cf conf term lead :
  shownb cf conf term lead = true <-> shown cf conf term lead.
Proof.
  unfold shownb, shown, matchesSearch.
  rewrite !andb_true_iff, !orb_true_iff, negb_true_iff, truthy_false,
    !includes_spec, !String.eqb_eq.
  split.
  - intros [[H1 H2] H3]. repeat split.
    + intros c ->. now apply LeadCategory_eqb_eq.
    + intros Hc. destruct H2; [contradiction | assumption].
    + intros Ht. destruct H3 as [H3|H3]; [contradiction | tauto].
  - intros (H1 & H2 & H3). repeat split.
    + destruct cf as [c|]; [|reflexivity]. apply LeadCategory_eqb_eq. now apply H1.
    + destruct (String.eqb_spec conf "all"); [now left | right; auto].
    + destruct (String.eqb_spec term EmptyString); [now left | right].
      specialize (H3 n). tauto.
Qed.

(** The sort by confidence, in either direction. *)
Lemma confidence_compare d x y :
  (sortCompare external SortConfidence d x y <=? 0)%Z = true
  <-> inDirection d x y.
Proof.
  unfold sortCompare, comparison, inDirection. rewrite Z.leb_le.
  destruct d; lia.
Qed.

Lemma confidence_compare_false d x y :
  (sortCompare external SortConfidence d x y <=? 0)%Z = false ->
  inDirection d y x
  /\ confidenceOrder (confidence x) <> confidenceOrder (confidence y).
Proof.
  unfold sortCompare, comparison, inDirection. rewrite Z.leb_gt.
  destruct d; lia.
Qed.

Lemma inDirection_trans d x y z :
  inDirection d x y -> inDirection d y z -> inDirection d x z.
Proof. unfold inDirection. destruct d; lia. Qed.

Lemma insertBy_confidence_sorted d x l :
  Sorted (inDirection d) l ->
  Sorted (inDirection d) (insertBy (sortCompare external SortConfidence d) x l).
Proof.
  induction 1 as [|y l Hl IH Hy]; cbn [insertBy]; [repeat constructor|].
  destruct (sortCompare external SortConfidence d x y <=? 0)%Z eqn:E.
  - apply confidence_compare in E.
    constructor; [now constructor|]. now constructor.
  - apply confidence_compare_false in E. destruct E as [E _].
    constructor; [exact IH|].
    destruct l as [|z l]; cbn [insertBy].
    + now constructor.
    + inversion Hy; subst.
      destruct (sortCompare external SortConfidence d x z <=? 0)%Z;
        now constructor.
Qed.

Lemma sortBy_confidence_sorted d l :
  Sorted (inDirection d) (sortBy (sortCompare external SortConfidence d) l).
Proof.
  induction l as [|x l IH]; simpl; [constructor|].
  now apply insertBy_confidence_sorted.
Qed.

Lemma confidenceOrder_inj a b :
  confidenceOrder a = confidenceOrder b -> a = b.
Proof. destruct a, b; simpl; intros H; try reflexivity; lia. Qed.

Lemma insertBy_confidence_stable d c x l :
  filter (fun lead => Confidence_eqb (confidence lead) c)
    (insertBy (sortCompare external SortConfidence d) x l)
  = filter (fun lead => Confidence_eqb (confidence lead) c) (x :: l).
Proof.
  induction l as [|y l IH]; [reflexivity|].
  cbn [insertBy].
  destruct (sortCompare external SortConfidence d x y <=? 0)%Z eqn:E;
    [reflexivity|].
  apply confidence_compare_false in E. destruct E as [_ E].
  cbn [filter] in *. rewrite IH.
  destruct (confidence x), (confidence y), c; cbn in *;
    try reflexivity; congruence.
Qed.

Lemma sortBy_confidence_stable d c l :
  filter (fun lead => Confidence_eqb (confidence lead) c)
    (sortBy (sortCompare external SortConfidence d) l)
  = filter (fun lead => Confidence_eqb (confidence lead) c) l.
Proof.
  induction l as [|x l IH]; [reflexivity|].
  cbn [sortBy fold_right]. fold (sortBy (sortCompare external SortConfidence d) l).
  rewrite insertBy_confidence_stable. cbn [filter]. now rewrite IH.
Qed.

End Table.

(** X21.  The table shows exactly the leads that pass the three filters
    (category, confidence, search in name, headline and snippet without
    regard to case), each as often as it is in the list, whatever the
    sort; with no filter set it shows all the leads. *)
Theorem table_shows_filtered :
  forall (external : SortField -> Lead -> Lead -> Z)
         (leads : list Lead) (categoryFilter : option LeadCategory)
         (confidenceFilter searchTerm : string)
         (sortField : SortField) (sortDirection : SortDirection),
    let result :=
      filteredLeads external leads categoryFilter confidenceFilter searchTerm
        sortField sortDirection in
    Permutation result
      (filter (shownb categoryFilter confidenceFilter searchTerm) leads)
    /\ (forall lead,
        In lead result <->
        In lead leads /\ shown categoryFilter confidenceFilter searchTerm lead)
    /\ length result <= length leads
    /\ (categoryFilter = None -> confidenceFilter = "all" ->
        searchTerm = EmptyString -> Permutation result leads).
Proof.
  intros external leads cf conf term f d result. subst result.
  rewrite filteredLeads_sortBy.
  pose proof (sortBy_perm (sortCompare external f d)
                (filter (shownb cf conf term) leads)) as Hp.
  split; [exact Hp|]. split; [|split].
  - intros lead. rewrite <- shownb_shown, <- filter_In. split.
    + apply Permutation_in. exact Hp.
    + apply Permutation_in. now apply Permutation_sym.
  - rewrite (Permutation_length Hp). apply filter_length_le.
  - intros -> -> ->. apply perm_trans with (1 := Hp).
    rewrite filter_all; [apply Permutation_refl | reflexivity].
Qed.

(** X22.  Sorted by confidence, which is how the table starts, the leads
    shown are in the order of the direction (highest first when
    descending), and leads of one confidence keep the order they have in
    the list. *)
Theorem table_confidence_order :
  forall (external : SortField -> Lead -> Lead -> Z)
         (leads : list Lead) (categoryFilter : option LeadCategory)
         (confidenceFilter searchTerm : string) (sortDirection : SortDirection),
    let result :=
      filteredLeads external leads categoryFilter confidenceFilter searchTerm
        SortConfidence sortDirection in
    Sorted (inDirection sortDirection) result
    /\ forall c,
         filter (fun lead => Confidence_eqb (confidence lead) c) result
         = filter (fun lead => Confidence_eqb (confidence lead) c)
             (filter (shownb categoryFilter confidenceFilter searchTerm) leads).
Proof.
  intros external leads cf conf term d result. subst result.
  rewrite filteredLeads_sortBy. split.
  - apply sortBy_confidence_sorted.
  - intros c. apply sortBy_confidence_stable.
Qed.


Lemma table_shows_filtered_witness :
  let ext : SortField -> Lead -> Lead -> Z := fun _ _ _ => 0%Z in
  let result :=
    filteredLeads ext [lowLead; highLead] None "all" EmptyString
      SortConfidence Desc in
  result = [highLead; lowLead] /\ Permutation result [lowLead; highLead].
Proof.
  intros ext result.
  split; [reflexivity|].
  exact (proj2 (proj2 (proj2 (table_shows_filtered ext [lowLead; highLead]
           None "all" EmptyString SortConfidence Desc))) eq_refl eq_refl eq_refl).
Defined.

(** * Counting by category *)

Section Counts.

Lemma counts_get_set_same counts k v : counts_get (counts_set counts k v) k = Some v.
Proof.
  induction counts as [|[k' v'] counts IH]; simpl.
  - now rewrite String.eqb_refl.
  - destruct (String.eqb k' k) eqn:E; simpl.
    + now rewrite String.eqb_refl.
    + now rewrite E.
Qed.

Lemma counts_get_set_other counts k v k' :
  k' <> k -> counts_get (counts_set counts k v) k' = counts_get counts k'.
Proof.
  intros Hne. induction counts as [|[k0 v0] counts IH]; simpl.
  - destruct (String.eqb_spec k k'); [congruence | reflexivity].
  - destruct (String.eqb_spec k0 k) as [->|Hk]; simpl.
    + destruct (String.eqb_spec k k'); [congruence | reflexivity].
    + destruct (String.eqb k0 k'); [reflexivity | exact IH].
Qed.

(** After the loop a count is what it was plus the number of leads whose
    category has the name. *)
Lemma fold_counts leads : forall counts k,
  countOf
    (fold_left
       (fun counts lead =>
          counts_set counts (categoryName (category lead))
            (countOf counts (categoryName (category lead)) + 1))
       leads counts) k
  = countOf counts k
    + length (filter (fun lead => String.eqb (categoryName (category lead)) k) leads).
Proof.
  induction leads as [|lead leads IH]; intros counts k; simpl; [lia|].
  rewrite IH. unfold countOf at 1.
  destruct (String.eqb_spec (categoryName (category lead)) k) as [E|E].
  - rewrite E, counts_get_set_same. simpl. lia.
  - rewrite counts_get_set_other by congruence. fold (countOf counts k). lia.
Qed.

Lemma categoryName_eqb a b :
  String.eqb (categoryName a) (categoryName b) = LeadCategory_eqb a b.
Proof. destruct a, b; reflexivity. Qed.

Lemma category_partition leads :
  length (filter (fun lead => LeadCategory_eqb (category lead) KitchenTenant) leads)
  + length (filter (fun lead => LeadCategory_eqb (category lead) OfficeTenant) leads)
  + length (filter (fun lead => LeadCategory_eqb (category lead) EventClient) leads)
  + length (filter (fun lead => LeadCategory_eqb (category lead) Uncategorized) leads)
  = length leads.
Proof.
  induction leads as [|lead leads IH]; simpl; [reflexivity|].
  destruct (category lead); simpl; lia.
Qed.

End Counts.

(** X23.  The counts of the table: under the name of a category stands
    the number of leads of the category, under all the number of leads,
    and the four counts of the categories add up to the count under
    all. *)
Theorem category_counts_add_up :
  forall leads : list Lead,
    let counts := categoryCounts leads in
    (forall c,
        countOf counts (categoryName c)
        = length (filter (fun lead => LeadCategory_eqb (category lead) c) leads))
    /\ countOf counts "all" = length leads
    /\ countOf counts "Kitchen Tenant" + countOf counts "Office Tenant"
       + countOf counts "Event Client" + countOf counts "Uncategorized"
       = countOf counts "all".
Proof.
  intros leads counts. subst counts. unfold categoryCounts.
  assert (Hc : forall c,
    countOf
      (fold_left
         (fun counts lead =>
            counts_set counts (categoryName (category lead))
              (countOf counts (categoryName (category lead)) + 1))
         leads [("all", length leads)]) (categoryName c)
    = length (filter (fun lead => LeadCategory_eqb (category lead) c) leads)).
  { intros c. rewrite fold_counts.
    replace (countOf [("all", length leads)] (categoryName c)) with 0
      by (now destruct c).
    simpl. f_equal. apply filter_ext_all. intros x. apply categoryName_eqb. }
  assert (Ha :
    countOf
      (fold_left
         (fun counts lead =>
            counts_set counts (categoryName (category lead))
              (countOf counts (categoryName (category lead)) + 1))
         leads [("all", length leads)]) "all" = length leads).
  { rewrite fold_counts.
    rewrite (filter_ext_all _ (fun _ => false)).
    - replace (filter (fun _ : Lead => false) leads) with (@nil Lead).
      + cbn. lia.
      + clear. induction leads; simpl; auto.
    - intros x. now destruct (category x). }
  split; [exact Hc|]. split; [exact Ha|].
  rewrite Ha.
  change "Kitchen Tenant" with (categoryName KitchenTenant).
  change "Office Tenant" with (categoryName OfficeTenant).
  change "Event Client" with (categoryName EventClient).
  change "Uncategorized" with (categoryName Uncategorized).
  rewrite !Hc. apply category_partition.
Qed.

(** * The list of queries *)

Section Queries.

Lemma toggle_twice id q :
  (let q' := if String.eqb (q_id q) id
             then {| q_id := q_id q; q_label := q_label q; q_query := q_query q;
                     q_category := q_category q; q_enabled := negb (q_enabled q) |}
             else q in
   if String.eqb (q_id q') id
   then {| q_id := q_id q'; q_label := q_label q'; q_query := q_query q';
           q_category := q_category q'; q_enabled := negb (q_enabled q') |}
   else q') = q.
Proof.
  cbn zeta. destruct (String.eqb (q_id q) id) eqn:E.
  - cbn [q_id q_label q_query q_category q_enabled]. rewrite E.
    destruct q as [i l t c e]. cbn. now rewrite negb_involutive.
  - now rewrite E.
Qed.

Lemma takeChars_length n s : String.length (takeChars n s) <= n.
Proof.
  revert s. induction n as [|n IH]; intros s; simpl; [lia|].
  destruct s as [|c s]; simpl; [lia|]. specialize (IH s). lia.
Qed.

End Queries.

(** X24.  Toggling a query twice gives the list back; toggling changes
    nothing but the enabled flag, and changes it for exactly the queries
    with the given identifier. *)
Theorem toggle_query_involutive :
  forall (id : string) (queries : list SearchQuery),
    toggleQuery id (toggleQuery id queries) = queries
    /\ Forall2 (fun before after =>
                  sameButEnabled before after
                  /\ q_enabled after
                     = if String.eqb (q_id before) id
                       then negb (q_enabled before) else q_enabled before)
         queries (toggleQuery id queries).
Proof.
  intros id queries. unfold toggleQuery. split.
  - rewrite map_map. rewrite <- (map_id queries) at 2.
    apply map_ext. intros q. apply toggle_twice.
  - induction queries as [|q queries IH]; simpl; constructor; [|exact IH].
    destruct (String.eqb (q_id q) id); repeat split.
Qed.

(** X25.  [addCustomQuery] does nothing when the text is blank.
    Otherwise it puts one query at the end of the list, enabled, in the
    chosen category, whose search text contains site:linkedin.com and
    starts with the text typed, and whose label has at most 41
    characters, and it empties the input field; removing the query by its
    identifier gives the old list back when no query of the list had that
    identifier. *)
Theorem add_custom_query :
  forall (now : N) (customQuery : string) (customCategory : LeadCategory)
         (searchQueries : list SearchQuery),
    let out := addCustomQuery now customQuery customCategory searchQueries in
    (Js.trim customQuery = EmptyString -> out = (searchQueries, customQuery))
    /\ (Js.trim customQuery <> EmptyString ->
        exists q,
          out = (searchQueries ++ [q], EmptyString)
          /\ q_enabled q = true
          /\ q_category q = customCategory
          /\ occursIn "site:linkedin.com" (q_query q)
          /\ (exists rest, q_query q = (customQuery ++ rest)%string)
          /\ String.length (q_label q) <= 41
          /\ ((forall old, In old searchQueries -> q_id old <> q_id q) ->
              removeQuery (q_id q) (fst out) = searchQueries)).
Proof.
  intros now customQuery customCategory searchQueries out. subst out.
  unfold addCustomQuery. split.
  - intros H. apply truthy_false in H. now rewrite H.
  - intros H. apply truthy_true in H. rewrite H. cbn [negb].
    exists (customSearchQuery now customQuery customCategory).
    split; [reflexivity|]. split; [reflexivity|]. split; [reflexivity|].
    split; [|split; [|split]].
    + cbn [customSearchQuery q_query].
      destruct (Js.includes customQuery "site:linkedin.com") eqn:E.
      * now apply includes_spec.
      * exists (customQuery ++ " ")%string, "/in/". now rewrite !append_assoc.
    + cbn [customSearchQuery q_query].
      destruct (Js.includes customQuery "site:linkedin.com").
      * exists EmptyString. now rewrite append_nil_r.
      * now exists " site:linkedin.com/in/".
    + cbn [customSearchQuery q_label append String.length].
      rewrite append_length. cbn [String.length].
      pose proof (takeChars_length 30 customQuery). lia.
    + intros Hfresh. cbn [fst]. unfold removeQuery. rewrite filter_app.
      cbn [filter]. rewrite String.eqb_refl. cbn [negb].
      rewrite app_nil_r. apply filter_all_in. intros old Hold.
      apply negb_true_iff. apply String.eqb_neq. now apply Hfresh.
Qed.

Lemma add_custom_query_witness :
  let out := addCustomQuery 1700000000000 "vegan bakery owner Baltimore"
               OfficeTenant [] in
  Js.trim "vegan bakery owner Baltimore" <> EmptyString
  /\ exists q,
       out = ([] ++ [q], EmptyString)
       /\ occursIn "site:linkedin.com" (q_query q).
Proof.
  intros out.
  assert (H : Js.trim "vegan bakery owner Baltimore" <> EmptyString)
    by (vm_compute; discriminate).
  split; [exact H|].
  destruct (proj2 (add_custom_query 1700000000000 "vegan bakery owner Baltimore"
                     OfficeTenant []) H) as (q & H1 & _ & _ & H2 & _).
  exists q. split; assumption.
Defined.

(** * The export to the sheet *)

Section Sheets.

Lemma beforeSpace_no_space s : ~ occursIn " " (beforeSpace s).
Proof.
  intros H. apply includes_spec in H. revert H.
  induction s as [|c s IH]; [discriminate|]. simpl.
  destruct (Ascii.eqb c " ") eqn:E; [discriminate|].
  cbn [Js.includes Js.startsWith]. rewrite (Ascii.eqb_sym " " c), E. exact IH.
Qed.

Lemma generateConnectionNote_greets lead :
  exists rest,
    generateConnectionNote lead
    = ("Hi " ++ beforeSpace (name lead) ++ ", " ++ rest)%string.
Proof.
  unfold generateConnectionNote. destruct (category lead); eexists;
    rewrite ?append_assoc; reflexivity.
Qed.

End Sheets.

(** X26.  [exportToGoogleSheets] sends nothing for an empty list and
    fails with the message that there is nothing to export.  For any
    other list it sends one row of six columns per lead, with a job
    title that is never empty, a connection note that greets by the
    first word of the name, and the status New; it reports the number of
    rows exactly when it succeeds, and that number is the number of
    leads. *)
Theorem sheet_export_result :
  forall (formatDate : string -> string)
         (post : list (list string) -> SheetsOutcome) (leads : list Lead),
    let r := exportToGoogleSheets formatDate post leads in
    (leads = [] ->
     r = mkSheetExportResult false "No leads to export" None)
    /\ (se_success r = true -> se_rowsAdded r = Some (length leads) /\ leads <> [])
    /\ (se_success r = false -> se_rowsAdded r = None)
    /\ (forall post',
        post' (map (sheetRow formatDate) leads) = post (map (sheetRow formatDate) leads) ->
        exportToGoogleSheets formatDate post' leads = r)
    /\ (forall lead,
        length (sheetRow formatDate lead) = 6
        /\ nth 2 (sheetRow formatDate lead) EmptyString <> EmptyString
        /\ nth 5 (sheetRow formatDate lead) EmptyString = "New"
        /\ (exists rest,
            nth 4 (sheetRow formatDate lead) EmptyString
            = ("Hi " ++ beforeSpace (name lead) ++ ", " ++ rest)%string)
        /\ ~ occursIn " " (beforeSpace (name lead))).
Proof.
  intros formatDate post leads r. subst r. unfold exportToGoogleSheets.
  split; [intros ->; reflexivity|].
  split; [|split; [|split]].
  - destruct leads as [|l ls]; [discriminate|]. cbn [length Nat.eqb].
    destruct (post _) as [m|ok status txt [[success e]|]]; cbn; try discriminate.
    + destruct (negb ok && negb (status =? 302)%N); cbn; [discriminate|].
      destruct success; cbn; [|discriminate]. intros _. split; [reflexivity | discriminate].
    + destruct (negb ok && negb (status =? 302)%N); cbn; [discriminate|].
      destruct ok; cbn; [|discriminate]. intros _. split; [reflexivity | discriminate].
  - destruct leads as [|l ls]; [reflexivity|]. cbn [length Nat.eqb].
    destruct (post _) as [m|ok status txt [[success e]|]]; cbn; try reflexivity.
    + destruct (negb ok && negb (status =? 302)%N); cbn; [reflexivity|].
      destruct success; cbn; [discriminate | reflexivity].
    + destruct (negb ok && negb (status =? 302)%N); cbn; [reflexivity|].
      destruct ok; cbn; [discriminate | reflexivity].
  - intros post' H. destruct (length leads =? 0)%nat; [reflexivity|].
    cbn zeta. now rewrite H.
  - intros lead. split; [reflexivity|]. split; [|split; [reflexivity|split]].
    + cbn [sheetRow nth]. destruct (truthy (headline lead)) eqn:E.
      * now apply truthy_true.
      * destruct (category lead); discriminate.
    + cbn [sheetRow nth]. apply generateConnectionNote_greets.
    + apply beforeSpace_no_space.
Qed.

Lemma sheet_export_result_witness :
  let post : list (list string) -> SheetsOutcome :=
    fun _ => SheetsResponse true 200 "OK" None in
  let r := exportToGoogleSheets (fun d => d) post [lowLead; highLead] in
  se_success r = true /\ se_rowsAdded r = Some 2.
Proof.
  intros post r.
  assert (H : se_success r = true) by reflexivity.
  split; [exact H|].
  exact (proj1 (proj1 (proj2 (sheet_export_result (fun d => d) post
                                [lowLead; highLead])) H)).
Defined.

(** * More sample inputs *)

Lemma dedup_unchanged_iff_distinct_witness :
  NoDup (map normalizedUrl [lowLead; sampleLead "b" Medium])
  /\ deduplicateLeads [lowLead; sampleLead "b" Medium]
     = [lowLead; sampleLead "b" Medium].
Proof.
  assert (H : NoDup (map normalizedUrl [lowLead; sampleLead "b" Medium])).
  { repeat constructor; simpl; intuition discriminate. }
  split; [exact H|].
  exact (proj2 (proj2 (dedup_unchanged_iff_distinct
                         [lowLead; sampleLead "b" Medium])) H).
Defined.

Lemma uncategorized_iff_no_keyword_witness :
  res_category (categorizeLead "John Smith - Accountant" "numbers and ledgers")
  = Uncategorized
  /\ ~ occursIn "catering"
       (combinedText "John Smith - Accountant" "numbers and ledgers").
Proof.
  assert (H : res_category
                (categorizeLead "John Smith - Accountant" "numbers and ledgers")
              = Uncategorized) by (vm_compute; reflexivity).
  split; [exact H|].
  refine (proj1 (uncategorized_iff_no_keyword "John Smith - Accountant"
                   "numbers and ledgers") H KitchenTenant _ _ "catering" _ _ _).
  - unfold CATEGORY_KEYWORDS. left. reflexivity.
  - left. reflexivity.
  - left. reflexivity.
Defined.

Lemma api_key_format_witness :
  let key := "0123456789abcdef0123456789ABCDEF0123456789abcdef0123456789ABCDEF" in
  validateApiKey (" " ++ key) = true /\ wellFormedKey (" " ++ key).
Proof.
  intros key.
  assert (H : validateApiKey (" " ++ key) = true) by (vm_compute; reflexivity).
  split; [exact H|]. exact (proj1 (api_key_format (" " ++ key)) H).
Defined.

(** * The rest of the model on small inputs *)

Example page_keeps_the_first :
  handleLeadsScraped [lowLead] [highLead; sampleLead "b" High]
  = [lowLead; sampleLead "b" High].
Proof. reflexivity. Qed.

Example reader_on_quoted_fields :
  parseCsv (escapeCSVField "a,b" ++ "," ++ escapeCSVField (String Js.dquote "x")
            ++ String Js.LF (escapeCSVField (String "l" (String Js.LF "m")) ++ ",z"))
  = [["a,b"; String Js.dquote "x"]; [String "l" (String Js.LF "m"); "z"]].
Proof. vm_compute. reflexivity. Qed.

Example key_too_short : validateApiKey "0123456789abcdef" = false.
Proof. reflexivity. Qed.

Example key_with_other_letter :
  validateApiKey "0123456789abcdef0123456789ABCDEF0123456789abcdef0123456789ABCDEG"
  = false.
Proof. vm_compute. reflexivity. Qed.

Example rate_limited_scrape :
  scrapeLinkedInLeads (fun _ _ => HttpNotOk 429 "slow down") 2
    (mkScrapeParams
       "0123456789abcdef0123456789ABCDEF0123456789abcdef0123456789ABCDEF"
       "caterer" "Caterers" KitchenTenant None)
  = (scrapeFailure "Rate limit exceeded. Please wait and try again." "caterer", 3).
Proof. vm_compute. reflexivity. Qed.

Example request_asks_for_at_most_100 :
  buildSearchParams " abc " "caterer" 500
  = [ ("api_key", "abc"); ("engine", "google"); ("q", "caterer");
      ("num", "100"); ("gl", "us"); ("hl", "en") ].
Proof. vm_compute. reflexivity. Qed.

Example batch_of_two :
  let net : Net :=
    fun n _ =>
      match n with
      | 0 => JsonBody None
               (Some [ mkArrival (janeDoe 9) 1700000000000 "2023-11-14T22:13:20.000Z" ])
      | _ => HttpNotOk 500 "down"
      end in
  let out :=
    batchScrapeLeads net 0
      "0123456789abcdef0123456789ABCDEF0123456789abcdef0123456789ABCDEF"
      [ mkBatchQuery "caterer" "Caterers" KitchenTenant;
        mkBatchQuery "planner" "Planners" EventClient ] None in
  (br_success (fst out), map id (br_leads (fst out)), br_errors (fst out),
   br_totalResults (fst out), snd out)
  = (false, ["lead-1700000000000-0"], ["Planners: SerpAPI error (500): down"], 1, 2).
Proof. vm_compute. reflexivity. Qed.

Example table_filters_then_sorts :
  filteredLeads (fun _ _ _ => 0%Z)
    [sampleLead "a" Low; sampleLead "b" High; sampleLead "c" Medium;
     sampleLead "d" High]
    (Some KitchenTenant) "all" "JANE" SortConfidence Desc
  = [sampleLead "b" High; sampleLead "d" High; sampleLead "c" Medium;
     sampleLead "a" Low].
Proof. vm_compute. reflexivity. Qed.

Example counts_of_two :
  categoryCounts [lowLead; highLead] = [("all", 2); ("Kitchen Tenant", 2)].
Proof. reflexivity. Qed.

Example custom_query_gets_the_site :
  q_query (customSearchQuery 5 "vegan bakery" OfficeTenant)
  = "vegan bakery site:linkedin.com/in/"
  /\ q_query (customSearchQuery 5 "chef site:linkedin.com/in/" OfficeTenant)
     = "chef site:linkedin.com/in/".
Proof. split; reflexivity. Qed.

Example note_for_a_caterer :
  generateConnectionNote lowLead
  = "Hi Jane, I noticed your work in Owner. The LaChow offers shared commercial kitchen space in Baltimore - would love to connect and share how we support food entrepreneurs like yourself.".
Proof. reflexivity. Qed.

Example runs_of_a_batch_of_two :
  let net : Net :=
    fun n _ =>
      match n with
      | 0 => JsonBody None
               (Some [ mkArrival (janeDoe 9) 1700000000000 "2023-11-14T22:13:20.000Z";
                       mkArrival (mkSerpApiResult 2 "Post" "https://linkedin.com/posts/x" "catering")
                         1700000000000 "2023-11-14T22:13:20.000Z" ])
      | _ => HttpNotOk 500 "down"
      end in
  batchRuns net 0
    "0123456789abcdef0123456789ABCDEF0123456789abcdef0123456789ABCDEF"
    [ mkBatchQuery "caterer" "Caterers" KitchenTenant;
      mkBatchQuery "   " "Blank" Uncategorized;
      mkBatchQuery "planner" "Planners" EventClient ] 10
  = [ mkQueryRun "Caterers" KitchenTenant
        (Some [ mkArrival (janeDoe 9) 1700000000000 "2023-11-14T22:13:20.000Z" ]);
      mkQueryRun "Blank" Uncategorized None;
      mkQueryRun "Planners" EventClient None ].
Proof. vm_compute. reflexivity. Qed.

Example batch_with_one_reading_in_two_queries :
  let net : Net :=
    fun n _ =>
      match n with
      | 0 => JsonBody None
               (Some [ mkArrival (janeDoe 1) 1700000000000 "2023-11-14T22:13:20.000Z" ])
      | _ => JsonBody None
               (Some [ mkArrival plainResult 1700000000000 "2023-11-14T22:13:20.000Z" ])
      end in
  let out :=
    batchScrapeLeads net 0
      "0123456789abcdef0123456789ABCDEF0123456789abcdef0123456789ABCDEF"
      [ mkBatchQuery "caterer" "Catering Owners" KitchenTenant;
        mkBatchQuery "accountant" "Accountants" Uncategorized ] None in
  br_leads (fst out) = deduplicateLeads (allLeads collidingBatch)
  /\ map id (br_leads (fst out))
     = ["lead-1700000000000-0"; "lead-1700000000000-0"]
  /\ map name (br_leads (fst out)) = ["Jane Doe"; "John Smith"].
Proof. vm_compute. repeat split. Qed.

(** * Code units above 127 *)

Example accented_capitals_fold :
  Js.toLowerCase (String "201"%char "COLE") = String "233"%char "cole"
  /\ Js.toLowerChar "192"%char = "224"%char
  /\ Js.toLowerChar "214"%char = "246"%char
  /\ Js.toLowerChar "215"%char = "215"%char
  /\ Js.toLowerChar "216"%char = "248"%char
  /\ Js.toLowerChar "222"%char = "254"%char
  /\ Js.toLowerChar "223"%char = "223"%char
  /\ Js.toLowerChar "255"%char = "255"%char.
Proof. repeat split. Qed.

Example no_break_space_is_trimmed :
  Js.isSpace "160"%char = true
  /\ Js.isSpace "133"%char = false
  /\ Js.trim (String "160"%char ("Chef" ++ String "160"%char " ")) = "Chef".
Proof. repeat split. Qed.

Example urls_differing_in_an_accented_capital :
  let upper := sampleLead ("https://linkedin.com/in/" ++ String "201"%char "ric") Low in
  let lower := sampleLead ("https://linkedin.com/in/" ++ String "233"%char "ric") High in
  normalizedUrl upper = normalizedUrl lower
  /\ deduplicateLeads [upper; lower] = [lower]
  /\ handleLeadsScraped [upper] [lower] = [upper].
Proof. vm_compute. repeat split. Qed.

Example headline_before_a_no_break_space :
  extractHeadlineFromTitle
    ("Ann Lee - Chef" ++ String "160"%char "| LinkedIn") = "Chef"
  /\ extractNameFromTitle
       ("Ann Lee" ++ String "160"%char ("|" ++ String "160"%char "LinkedIn"))
     = "Ann Lee".
Proof. vm_compute. split; reflexivity. Qed.

Example key_padded_with_a_no_break_space :
  validateApiKey
    (String "160"%char
       "0123456789abcdef0123456789ABCDEF0123456789abcdef0123456789ABCDEF")
  = true
  /\ validateApiKey
       (String "201"%char
          "123456789abcdef0123456789ABCDEF0123456789abcdef0123456789ABCDEF")
     = false.
Proof. vm_compute. split; reflexivity. Qed.

Example search_folds_accented_capitals :
  let lead :=
    {| id := "lead-1700000000000-0";
       name := String "201"%char "ric Roy";
       headline := "Chef";
       profileUrl := "https://linkedin.com/in/eric";
       snippet := "catering";
       category := KitchenTenant;
       confidence := Low;
       source := "Caterers";
       scrapedAt := "2024-01-01T00:00:00.000Z" |} in
  filteredLeads (fun _ _ _ => 0%Z) [lead] None "all" (String "233"%char "RIC")
    SortName Asc
  = [lead].
Proof. vm_compute. reflexivity. Qed.
